(** * Chrome tab organizer: the selection model, the grouping pass and the
      reconciliation against the browser's tab-group facility.

    A shallow embedding of [src/App.tsx].  Pure helpers are Rocq functions;
    the React state updaters ([toggleGroup], [toggleTab]) are functions on
    the [groups] array that return [None] where the JavaScript raises a
    [TypeError]; the asynchronous handler [handleOrganizeTabs] is written
    in a small state-and-exception monad over an arbitrary implementation
    of the [chrome.*] calls it awaits; [loadTabs] is a function on the
    state variables it writes, and the returned JSX a function from the
    state to a description of the view. *)

From stdpp Require Import base option list strings.
From Stdlib Require Import ZArith Ascii Lia.

Local Open Scope Z_scope.
#[local] Set Warnings "-clear-no-such-hyp".

(** ** Data model (App.tsx, lines 5-17) *)

Record TabSummary := mkTabSummary {
  id : Z;
  title : string;
  url : string;
  selected : bool;
}.

Record GroupSuggestion := mkGroupSuggestion {
  host : string;
  tabs : list TabSummary;
  groupSelected : bool;
  customName : option string;       (* [customName?: string] *)
}.

(** [{ ...tab, selected: b }] *)
Definition with_selected (b : bool) (tab : TabSummary) : TabSummary :=
  {| id := id tab; title := title tab; url := url tab; selected := b |}.

(** ** Selection model (App.tsx, lines 118-173)

    Each updater receives [prevGroups], copies the array ([[...prevGroups]])
    and mutates the group object found at [groupIndex].  The array slots hold
    pairwise distinct objects (every builder pushes a fresh object literal per
    group), so the in-place mutation is the replacement of one slot.  Reading
    a property of [undefined] (an index outside the array) raises a
    [TypeError]: the updater then produces no state, [None].  The functions
    below are one application of an updater to the state it is given (the
    second application that React's strict mode makes in development builds
    is not part of the model). *)

Definition toggleGroup (groupIndex : nat) (prevGroups : list GroupSuggestion)
  : option (list GroupSuggestion) :=
  let updated := prevGroups in
  group ← updated !! groupIndex;
  let groupSelected' := negb (groupSelected group) in
  let tabs' := with_selected groupSelected' <$> tabs group in
  Some (<[groupIndex :=
            {| host := host group; tabs := tabs';
               groupSelected := groupSelected';
               customName := customName group |}]> updated).

Definition toggleTab (groupIndex tabIndex : nat) (prevGroups : list GroupSuggestion)
  : option (list GroupSuggestion) :=
  let updated := prevGroups in
  group ← updated !! groupIndex;
  tab ← tabs group !! tabIndex;
  let tabs' := <[tabIndex := with_selected (negb (selected tab)) tab]> (tabs group) in
  Some (<[groupIndex :=
            {| host := host group; tabs := tabs';
               groupSelected := forallb selected tabs';     (* [every] *)
               customName := customName group |}]> updated).

Definition hasSelectedTabs (groups : list GroupSuggestion) : bool :=
  existsb (λ group, existsb selected (tabs group)) groups.

Definition updateGroupName (groupIndex : nat) (newName : string)
    (prevGroups : list GroupSuggestion) : option (list GroupSuggestion) :=
  let updated := prevGroups in
  group ← updated !! groupIndex;
  Some (<[groupIndex :=
            {| host := host group; tabs := tabs group;
               groupSelected := groupSelected group;
               customName := Some newName |}]> updated).

(** The consistency condition of the data model: the group flag is the
    conjunction of the tab flags. *)
Definition group_consistent (g : GroupSuggestion) : Prop :=
  groupSelected g = forallb selected (tabs g).

Definition model_consistent (groups : list GroupSuggestion) : Prop :=
  Forall group_consistent groups.

(** A group whose tabs all carry the group's own flag. *)
Definition group_uniform (g : GroupSuggestion) : Prop :=
  Forall (λ tab, selected tab = groupSelected g) (tabs g).

(** ** The browser's tab records (the subset of [chrome.tabs.Tab] and
    [chrome.tabGroups.TabGroup] that App.tsx reads).  Optional properties are
    options; [groupId] is [-1] for a tab outside every group. *)

Module chrome.
Record Tab := mkTab {
  id : option Z;
  url : option string;
  title : option string;
  groupId : Z;
}.

Record TabGroup := mkTabGroup {
  group_title : option string;
  color : string;
  collapsed : bool;
}.
End chrome.

(** JavaScript truthiness of the optional properties tested by [&&]. *)
Definition truthy_number (x : option Z) : bool :=
  match x with Some n => negb (n =? 0) | None => false end.

Definition truthy_string (x : option string) : bool :=
  match x with Some s => negb (String.eqb s "") | None => false end.

(** [x || y] on strings: the first operand unless it is falsy. *)
Definition or_else (x : option string) (y : string) : string :=
  match x with
  | Some s => if String.eqb s "" then y else s
  | None => y
  end.

(** ** KeyExtractor (App.tsx, lines 23-30) *)

(** [s.replace(/^www\./, '')]: the pattern is anchored and not global, so at
    most the one leading occurrence is removed. *)
Definition replace_leading_www (s : string) : string :=
  match s with
  | String "w"%char (String "w"%char (String "w"%char (String "."%char rest))) => rest
  | _ => s
  end.

(** The part of a WHATWG [URL] object that the program reads. *)
Record URL := mkURL { hostname : string }.

(** Completion of a JavaScript evaluation: a value, or a raised exception. *)
Inductive completion (A : Type) : Type :=
| Normal (a : A)
| Thrown.
Arguments Normal {A} a.
Arguments Thrown {A}.

Definition is_thrown {A} (c : completion A) : bool :=
  match c with Thrown => true | Normal _ => false end.

(** [try { body } catch { handler }] on completions. *)
Definition try_value {A} (body : completion A) (handler : A) : completion A :=
  match body with
  | Normal a => Normal a
  | Thrown => Normal handler
  end.

(** ** Insertion-ordered [Map] (the ECMAScript [Map] keeps its keys in the
    order of their first [set]); values that are arrays are appended to in
    place through the reference [get] returns. *)
Section JsMap.
Context {K V : Type} `{EqDecision K}.

Definition JsMap := list (K * V).

Definition Map_has (m : JsMap) (k : K) : bool :=
  existsb (λ e, bool_decide (e.1 = k)) m.

Fixpoint Map_get (m : JsMap) (k : K) : option V :=
  match m with
  | [] => None
  | (k', v) :: m' => if decide (k' = k) then Some v else Map_get m' k
  end.

(** [m.set(k, v)]: an existing key keeps its position. *)
Fixpoint Map_set (m : JsMap) (k : K) (v : V) : JsMap :=
  match m with
  | [] => [(k, v)]
  | (k', v') :: m' =>
      if decide (k' = k) then (k', v) :: m' else (k', v') :: Map_set m' k v
  end.

(** Mutation of the object stored under [k] (no effect on a missing key,
    where the program would have raised; every use below follows a [has]
    or [set] of the same key). *)
Fixpoint Map_update (m : JsMap) (k : K) (f : V → V) : JsMap :=
  match m with
  | [] => []
  | (k', v) :: m' =>
      if decide (k' = k) then (k', f v) :: m' else (k', v) :: Map_update m' k f
  end.
End JsMap.
Arguments JsMap : clear implicits.

(** ** The awaited browser calls

    [handleOrganizeTabs] suspends on calls of the [chrome.tabs] and
    [chrome.tabGroups] API.  A call is a value; what the browser answers (a
    value of the call's response type, or a rejected promise) and how the
    browser's state moves meanwhile is left to a [facility], so that every
    statement below holds for whatever the browser does at each suspension
    point. *)
Inductive call : Type :=
| tabs_get (tabId : Z)                                  (* chrome.tabs.get(tabId) *)
| tabs_ungroup (tabId : Z)                              (* chrome.tabs.ungroup(tabId) *)
| tabGroups_get (groupId : Z)                           (* chrome.tabGroups.get(groupId) *)
| tabs_query_groupId (groupId : Z)                      (* chrome.tabs.query({ groupId }) *)
| tabs_query_currentWindow                              (* chrome.tabs.query({ currentWindow: true }) *)
| tabs_group (groupId : option Z) (tabIds : list Z)     (* chrome.tabs.group({ groupId?, tabIds }) *)
| tabGroups_update (groupId : Z) (title color : string) (collapsed : bool).

Definition response (c : call) : Type :=
  match c with
  | tabs_get _ => chrome.Tab
  | tabs_ungroup _ => unit
  | tabGroups_get _ => chrome.TabGroup
  | tabs_query_groupId _ => list chrome.Tab
  | tabs_query_currentWindow => list chrome.Tab
  | tabs_group _ _ => Z
  | tabGroups_update _ _ _ _ => unit
  end.

Definition facility (W : Type) : Type :=
  W → ∀ c : call, completion (response c) * W.

(** A finished run: how it ended, the browser's state it left, and the
    calls it issued, oldest first. *)
Record Run (W A : Type) := mkRun {
  outcome : completion A;
  world : W;
  issued : list call;
}.
Arguments mkRun {W A} outcome world issued.
Arguments outcome {W A} r.
Arguments world {W A} r.
Arguments issued {W A} r.

(** Computations that await the browser, started in a state of the browser.
    They end normally or by a raised exception, and what was done to the
    browser before an exception stays done. *)
Definition M (W A : Type) : Type := W → Run W A.

Section Monad.
Context {W : Type}.

Definition ret {A} (a : A) : M W A := λ w, mkRun (Normal a) w [].

Definition bind {A B} (m : M W A) (k : A → M W B) : M W B := λ w,
  let r := m w in
  match outcome r with
  | Normal a =>
      let r' := k a (world r) in
      mkRun (outcome r') (world r') (issued r ++ issued r')
  | Thrown => mkRun Thrown (world r) (issued r)
  end.

(** [try { body } catch { handler }] *)
Definition try_catch {A} (body handler : M W A) : M W A := λ w,
  let r := body w in
  match outcome r with
  | Normal a => r
  | Thrown =>
      let r' := handler (world r) in
      mkRun (outcome r') (world r') (issued r ++ issued r')
  end.

(** The completion of [body], reified: what a [try] block hands to the code
    after it when the [catch] clause is empty. *)
Definition attempt {A} (body : M W A) : M W (completion A) := λ w,
  let r := body w in mkRun (Normal (outcome r)) (world r) (issued r).

Definition await (api : facility W) (c : call) : M W (response c) := λ w,
  let '(answer, w') := api w c in mkRun answer w' [c].
End Monad.

#[global] Instance M_ret W : MRet (M W) := @ret W.
#[global] Instance M_bind W : MBind (M W) := λ A B k m, bind m k.

(** [for (const x of l) body(x)] *)
Fixpoint for_of {W A} (l : list A) (body : A → M W unit) : M W unit :=
  match l with
  | [] => mret tt
  | x :: l' => body x ;; for_of l' body
  end.

(** A [for ... of] loop whose body updates local variables [s]. *)
Fixpoint for_of_state {W A S} (l : list A) (body : S → A → M W S) (s : S) : M W S :=
  match l with
  | [] => mret s
  | x :: l' => s' ← body s x; for_of_state l' body s'
  end.

(** The React state of the component that the handler reads and writes, and
    the notices it shows with [alert]. *)
Record AppState := mkAppState {
  groups : list GroupSuggestion;
  organized : bool;
  alerts : list string;
}.

Section App.
(** The platform's URL parser: [new URL(url)] returns an object or raises a
    [TypeError]. *)
Context (new_URL : string → completion URL).

Definition getHostname (url : string) : completion string :=
  try_value
    (match new_URL url with
     | Normal u => Normal (replace_leading_www (hostname u))
     | Thrown => Thrown
     end)
    "unknown".

(** The value of a call that cannot raise. *)
Definition hostname_key (url : string) : string :=
  match getHostname url with Normal h => h | Thrown => "unknown" end.

(** *** Fresh build (App.tsx, lines 53-102) *)

(** Lines 56-61 and 256-261. *)
Definition filterTabs (tabs : list chrome.Tab) : list chrome.Tab :=
  List.filter
    (λ tab, truthy_string (chrome.url tab)
            && negb (String.prefix "chrome://" (default "" (chrome.url tab)))
            && negb (String.prefix "chrome-extension://" (default "" (chrome.url tab))))
    tabs.

(** The guard [tab.id && tab.url && tab.title] (lines 76 and 269). *)
Definition actionable (tab : chrome.Tab) : bool :=
  truthy_number (chrome.id tab) && truthy_string (chrome.url tab)
  && truthy_string (chrome.title tab).

(** The object literal of lines 78-83 (and 287-292, 299-304).  It is built
    under the guard [actionable], where the three properties are present. *)
Definition tabSummary (tab : chrome.Tab) : TabSummary :=
  {| id := default 0 (chrome.id tab);
     title := default "" (chrome.title tab);
     url := default "" (chrome.url tab);
     selected := true |}.

(** Lines 85-88: create the bucket on first sight of the key, then push. *)
Definition hostMap_push (hostMap : JsMap string (list TabSummary))
    (host : string) (tabSummary : TabSummary) : JsMap string (list TabSummary) :=
  let hostMap := if Map_has hostMap host then hostMap else Map_set hostMap host [] in
  Map_update hostMap host (λ bucket, bucket ++ [tabSummary]).

(** One iteration of the [forEach] of lines 75-90. *)
Definition loadTabs_step (hostMap : JsMap string (list TabSummary)) (tab : chrome.Tab)
  : JsMap string (list TabSummary) :=
  if actionable tab
  then hostMap_push hostMap (hostname_key (default "" (chrome.url tab))) (tabSummary tab)
  else hostMap.

Definition loadTabs_hostMap (filteredTabs : list chrome.Tab)
  : JsMap string (list TabSummary) :=
  fold_left loadTabs_step filteredTabs [].

(** Lines 94-100. *)
Definition hostGroups (hostMap : JsMap string (list TabSummary)) : list GroupSuggestion :=
  (λ '(host, tabs),
     {| host := host; tabs := tabs; groupSelected := true; customName := None |})
  <$> hostMap.

(** The array handed to [setGroups] by [loadTabs] when
    [chrome.tabs.query({ currentWindow: true })] answered [tabs]. *)
Definition loadTabs_groups (tabs : list chrome.Tab) : list GroupSuggestion :=
  hostGroups (loadTabs_hostMap (filterTabs tabs)).

(** *** Reconciliation and resync (App.tsx, lines 179-337) *)
Context {W : Type} (api : facility W).

(** Lines 196-203: the body of the loop over the deselected tabs. *)
Definition ungroupDeselected (tabId : Z) : M W unit :=
  try_catch
    (tab ← await api (tabs_get tabId);
     if negb (chrome.groupId tab =? -1)
     then await api (tabs_ungroup tabId)
     else mret tt)
    (mret tt).

(** Lines 214-226: the loop over the selected tabs, with its two local
    variables.  [existingGroupId] is assigned before
    [chrome.tabGroups.get] is awaited, so it keeps the assigned value when
    that call is rejected and the empty [catch] lets the loop go on. *)
Fixpoint findExistingGroup (selectedTabIds : list Z)
    (existingGroupId : option Z) (wasCollapsed : bool) : M W (option Z * bool) :=
  match selectedTabIds with
  | [] => mret (existingGroupId, wasCollapsed)
  | tabId :: rest =>
      r ← attempt (await api (tabs_get tabId));
      match r with
      | Thrown => findExistingGroup rest existingGroupId wasCollapsed
      | Normal tab =>
          if negb (chrome.groupId tab =? -1) then
            let existingGroupId := Some (chrome.groupId tab) in
            r' ← attempt (await api (tabGroups_get (chrome.groupId tab)));
            match r' with
            | Thrown => findExistingGroup rest existingGroupId wasCollapsed
            | Normal groupInfo =>
                mret (existingGroupId, chrome.collapsed groupInfo || false)  (* break *)
            end
          else findExistingGroup rest existingGroupId wasCollapsed
      end
  end.

(** [currentTabIds.includes(id)] *)
Definition includes (l : list Z) (x : Z) : bool := existsb (Z.eqb x) l.

(** Lines 229-243: the group the selected tabs end up in. *)
Definition joinGroup (existingGroupId : option Z) (selectedTabIds : list Z) : M W Z :=
  match existingGroupId with
  | Some groupId =>
      currentGroupTabs ← await api (tabs_query_groupId groupId);
      let currentTabIds := omap chrome.id currentGroupTabs in
      let tabsToAdd := List.filter (λ id, negb (includes currentTabIds id)) selectedTabIds in
      (if (0 <? length tabsToAdd)%nat
       then await api (tabs_group (Some groupId) tabsToAdd) ;; mret tt
       else mret tt) ;;
      mret groupId
  | None => await api (tabs_group None selectedTabIds)
  end.

Definition selectedTabIds (group : GroupSuggestion) : list Z :=
  id <$> List.filter selected (tabs group).

Definition unselectedTabIds (group : GroupSuggestion) : list Z :=
  id <$> List.filter (λ tab, negb (selected tab)) (tabs group).

(** Lines 193-205. *)
Definition ungroupPhase (group : GroupSuggestion) : M W unit :=
  if (0 <? length (unselectedTabIds group))%nat
  then for_of (unselectedTabIds group) ungroupDeselected
  else mret tt.

(** Lines 208-251. *)
Definition groupPhase (group : GroupSuggestion) : M W unit :=
  if (0 <? length (selectedTabIds group))%nat then
    '(existingGroupId, wasCollapsed) ← findExistingGroup (selectedTabIds group) None false;
    groupId ← joinGroup existingGroupId (selectedTabIds group);
    await api (tabGroups_update groupId
                 (or_else (customName group) (host group)) "grey" wasCollapsed)
  else mret tt.

(** The body of the loop of line 182. *)
Definition organizeGroup (group : GroupSuggestion) : M W unit :=
  ungroupPhase group ;; groupPhase group.

(** Lines 268-307: one iteration of the rebuilding loop. *)
Definition resync_step
    (maps : JsMap Z (string * list TabSummary) * JsMap string (list TabSummary))
    (tab : chrome.Tab)
  : M W (JsMap Z (string * list TabSummary) * JsMap string (list TabSummary)) :=
  let '(groupMap, hostMap) := maps in
  let url := default "" (chrome.url tab) in
  if actionable tab then
    if negb (chrome.groupId tab =? -1) then
      groupMap ←
        (if negb (Map_has groupMap (chrome.groupId tab)) then
           r ← attempt (await api (tabGroups_get (chrome.groupId tab)));
           match r with
           | Normal groupInfo =>
               mret (Map_set groupMap (chrome.groupId tab)
                       (or_else (chrome.group_title groupInfo) (hostname_key url), []))
           | Thrown =>
               mret (Map_set groupMap (chrome.groupId tab) (hostname_key url, []))
           end
         else mret groupMap);
      mret (Map_update groupMap (chrome.groupId tab)
              (λ groupData, (groupData.1, groupData.2 ++ [tabSummary tab])),
            hostMap)
    else mret (groupMap, hostMap_push hostMap (hostname_key url) (tabSummary tab))
  else mret (groupMap, hostMap).

(** Lines 310-329. *)
Definition newGroups
    (maps : JsMap Z (string * list TabSummary) * JsMap string (list TabSummary))
  : list GroupSuggestion :=
  ((λ '(_, groupData),
      {| host := groupData.1; tabs := groupData.2; groupSelected := true;
         customName := Some groupData.1 |}) <$> maps.1)
  ++ hostGroups maps.2.

(** Lines 255-329: the rebuilt array. *)
Definition resync : M W (list GroupSuggestion) :=
  tabs ← await api tabs_query_currentWindow;
  let filteredTabs := filterTabs tabs in
  maps ← for_of_state filteredTabs resync_step ([], []);
  mret (newGroups maps).

(** Lines 181-252: the loop over the suggestions. *)
Definition reconcile (groups : list GroupSuggestion) : M W unit :=
  for_of groups organizeGroup.

(** The [try] block of [handleOrganizeTabs]: it ends normally with the
    array given to [setGroups], or by an exception. *)
Definition organize_body (groups : list GroupSuggestion) : M W (list GroupSuggestion) :=
  reconcile groups ;; resync.

Definition handleOrganizeTabs (state : AppState) : M W AppState :=
  try_catch
    (newGroups ← organize_body (groups state);
     mret {| groups := newGroups;                     (* setGroups(newGroups) *)
             organized := true;                       (* setOrganized(true) *)
             alerts := alerts state |})
    (mret {| groups := groups state;
             organized := organized state;
             alerts := alerts state ++ ["Failed to organize tabs. Please try again."] |}).
End App.

(** ** A reference browser

    One implementation of the calls, used to run the handler on concrete
    windows: tabs carry their group id, a group lives as long as it has a
    member, and a call that names a closed tab or a dissolved group is
    rejected without effect. *)
Record Browser := mkBrowser {
  open_tabs : list chrome.Tab;
  tab_groups : JsMap Z chrome.TabGroup;
  next_groupId : Z;
}.

Definition has_id (tabId : Z) (tab : chrome.Tab) : bool :=
  bool_decide (chrome.id tab = Some tabId).

Definition tab_open (b : Browser) (tabId : Z) : bool :=
  existsb (has_id tabId) (open_tabs b).

Definition move_to_group (groupId : Z) (tabIds : list Z) (tab : chrome.Tab) : chrome.Tab :=
  if existsb (λ tabId, has_id tabId tab) tabIds
  then {| chrome.id := chrome.id tab; chrome.url := chrome.url tab;
          chrome.title := chrome.title tab; chrome.groupId := groupId |}
  else tab.

(** Groups without a member are dissolved. *)
Definition dissolve_empty (tabs : list chrome.Tab) (groups : JsMap Z chrome.TabGroup)
  : JsMap Z chrome.TabGroup :=
  List.filter (λ e, existsb (λ tab, chrome.groupId tab =? e.1) tabs) groups.

Definition regroup (b : Browser) (groupId : Z) (tabIds : list Z)
    (groups : JsMap Z chrome.TabGroup) (next : Z) : Browser :=
  let tabs := move_to_group groupId tabIds <$> open_tabs b in
  {| open_tabs := tabs; tab_groups := dissolve_empty tabs groups; next_groupId := next |}.

Definition browser : facility Browser := λ b c,
  match c return completion (response c) * Browser with
  | tabs_get tabId =>
      match List.find (has_id tabId) (open_tabs b) with
      | Some tab => (Normal tab, b)
      | None => (Thrown, b)
      end
  | tabs_ungroup tabId =>
      if tab_open b tabId
      then (Normal tt, regroup b (-1) [tabId] (tab_groups b) (next_groupId b))
      else (Thrown, b)
  | tabGroups_get groupId =>
      match Map_get (tab_groups b) groupId with
      | Some group => (Normal group, b)
      | None => (Thrown, b)
      end
  | tabs_query_groupId groupId =>
      (Normal (List.filter (λ tab, chrome.groupId tab =? groupId) (open_tabs b)), b)
  | tabs_query_currentWindow => (Normal (open_tabs b), b)
  | tabs_group (Some groupId) tabIds =>
      if Map_has (tab_groups b) groupId && forallb (tab_open b) tabIds
         && negb (bool_decide (tabIds = []))
      then (Normal groupId, regroup b groupId tabIds (tab_groups b) (next_groupId b))
      else (Thrown, b)
  | tabs_group None tabIds =>
      if forallb (tab_open b) tabIds && negb (bool_decide (tabIds = []))
      then (Normal (next_groupId b),
            regroup b (next_groupId b) tabIds
              (Map_set (tab_groups b) (next_groupId b)
                 {| chrome.group_title := None; chrome.color := "grey";
                    chrome.collapsed := false |})
              (next_groupId b + 1))
      else (Thrown, b)
  | tabGroups_update groupId title color collapsed =>
      if Map_has (tab_groups b) groupId
      then (Normal tt,
            {| open_tabs := open_tabs b;
               tab_groups := Map_set (tab_groups b) groupId
                               {| chrome.group_title := Some title; chrome.color := color;
                                  chrome.collapsed := collapsed |};
               next_groupId := next_groupId b |})
      else (Thrown, b)
  end.

(** The same browser with a user at work: between two calls of the handler
    the user may close tabs or drag them out of their group.  The world
    carries what the user does after each of the coming calls. *)
Inductive user_action : Type :=
| user_closes (tabId : Z)
| user_ungroups (tabId : Z).

Definition user_act (b : Browser) (a : user_action) : Browser :=
  match a with
  | user_closes tabId =>
      let tabs := List.filter (λ tab, negb (has_id tabId tab)) (open_tabs b) in
      {| open_tabs := tabs; tab_groups := dissolve_empty tabs (tab_groups b);
         next_groupId := next_groupId b |}
  | user_ungroups tabId => regroup b (-1) [tabId] (tab_groups b) (next_groupId b)
  end.

Definition live_browser : facility (Browser * list (list user_action)) := λ w c,
  let '(r, b) := browser w.1 c in
  match w.2 with
  | [] => (r, (b, []))
  | actions :: later => (r, (fold_left user_act actions b, later))
  end.

(** The parser used to run the examples: it knows the addresses of the
    examples and rejects everything else. *)
Definition example_URL (url : string) : completion URL :=
  if String.eqb url "https://www.example.com/x" then Normal {| hostname := "www.example.com" |}
  else if String.eqb url "https://shop.example.com" then Normal {| hostname := "shop.example.com" |}
  else if String.eqb url "https://a.com/1" then Normal {| hostname := "a.com" |}
  else if String.eqb url "https://a.com/2" then Normal {| hostname := "a.com" |}
  else if String.eqb url "https://a.com/3" then Normal {| hostname := "a.com" |}
  else if String.eqb url "https://b.com/1" then Normal {| hostname := "b.com" |}
  else if String.eqb url "https://www.a.com/" then Normal {| hostname := "www.a.com" |}
  else Thrown.

(** ** Notions used by the statements *)

(** A suggestion of two tabs at ["a.com"], with the given flags. *)
Definition two_tab_group (s1 s2 gs : bool) : GroupSuggestion :=
  {| host := "a.com";
     tabs := [ {| id := 1; title := "one"; url := "https://a.com/1"; selected := s1 |};
               {| id := 2; title := "two"; url := "https://a.com/2"; selected := s2 |} ];
     groupSelected := gs; customName := None |}.

(** What the anchored pattern does, in terms of string prefixes. *)
Definition one_leading_www_stripped (hostname key : string) : Prop :=
  hostname = "www." +:+ key ∨ ((∀ rest, hostname ≠ "www." +:+ rest) ∧ key = hostname).

(** The keys of a list in the order of their first occurrence. *)
Fixpoint first_seen (keys : list string) : list string :=
  match keys with
  | [] => []
  | k :: keys' => k :: filter (λ k', k' ≠ k) (first_seen keys')
  end.

Section FreshBuild.
Context (new_URL : string → completion URL).

(** The tabs the build keeps, in input order, and the key of a tab. *)
Definition kept (tabs : list chrome.Tab) : list chrome.Tab :=
  List.filter actionable (filterTabs tabs).

Definition key_of (tab : chrome.Tab) : string :=
  hostname_key new_URL (default "" (chrome.url tab)).

(** The suggestion for key [k]: the kept tabs with that key, in input
    order, all selected. *)
Definition suggestion_for (tabs : list chrome.Tab) (k : string) : GroupSuggestion :=
  {| host := k;
     tabs := tabSummary <$> filter (λ tab, key_of tab = k) (kept tabs);
     groupSelected := true;
     customName := None |}.

(** The fresh build, said declaratively: one suggestion per key, keys in
    first-seen order. *)
Definition fresh_build (tabs : list chrome.Tab) : list GroupSuggestion :=
  suggestion_for tabs <$> first_seen (key_of <$> kept tabs).
End FreshBuild.

(** A group as the builders make it: selected as a whole, with all its tabs. *)
Definition all_selected (g : GroupSuggestion) : Prop :=
  groupSelected g = true ∧ Forall (λ tab, selected tab = true) (tabs g).

(** ... and holding at least one tab. *)
Definition well_formed (g : GroupSuggestion) : Prop :=
  all_selected g ∧ tabs g ≠ [].

(** Kinds of calls. *)
Definition is_tabs_get (c : call) : bool :=
  match c with tabs_get _ => true | _ => false end.

Definition is_lookup (c : call) : bool :=
  match c with tabs_get _ | tabGroups_get _ => true | _ => false end.

Definition is_tabs_group (c : call) : bool :=
  match c with tabs_group _ _ => true | _ => false end.

Definition is_update (c : call) : bool :=
  match c with tabGroups_update _ _ _ _ => true | _ => false end.

(** The first of [tabIds], in order, whose lookup answers a tab that is in a
    group: that group, and the browser's state after the lookup.  A lookup
    that is rejected, or answers an ungrouped tab, is passed over. *)
Fixpoint first_grouped {W} (api : facility W) (tabIds : list Z) (w : W) : option (Z * W) :=
  match tabIds with
  | [] => None
  | tabId :: rest =>
      match api w (tabs_get tabId) with
      | (Normal tab, w') =>
          if negb (chrome.groupId tab =? -1)
          then Some (chrome.groupId tab, w')
          else first_grouped api rest w'
      | (Thrown, w') => first_grouped api rest w'
      end
  end.

(** The selected ids that the answer [members] of the membership query does
    not list. *)
Definition not_yet_members (members : list chrome.Tab) (tabIds : list Z) : list Z :=
  List.filter (λ tabId, negb (includes (omap chrome.id members) tabId)) tabIds.

Definition is_group_or_update (c : call) : bool := is_tabs_group c || is_update c.

Definition is_get_or_ungroup (c : call) : bool :=
  match c with tabs_get _ | tabs_ungroup _ => true | _ => false end.

(** ** Example windows *)

Definition example_tab (tabId : Z) (address : string) (groupId : Z) : chrome.Tab :=
  {| chrome.id := Some tabId; chrome.url := Some address; chrome.title := Some "t";
     chrome.groupId := groupId |}.

Definition example_group (title : string) (collapsed : bool) : chrome.TabGroup :=
  {| chrome.group_title := Some title; chrome.color := "blue";
     chrome.collapsed := collapsed |}.

(** The window of the end-to-end scenario: group 10 (["a.com"], collapsed)
    holds tab 1, group 11 (["b.com"], expanded) holds tab 2, and tab 3, at
    ["a.com"], is in no group. *)
Definition scenario_window : Browser :=
  {| open_tabs := [ example_tab 1 "https://a.com/1" 10;
                    example_tab 2 "https://b.com/1" 11;
                    example_tab 3 "https://a.com/3" (-1) ];
     tab_groups := [ (10, example_group "a.com" true); (11, example_group "b.com" false) ];
     next_groupId := 12 |}.

Definition scenario_state : AppState :=
  {| groups := loadTabs_groups example_URL (open_tabs scenario_window);
     organized := false; alerts := [] |}.

(** Two tabs of one host in two different groups. *)
Definition two_groups_window : Browser :=
  {| open_tabs := [ example_tab 1 "https://a.com/1" 5; example_tab 2 "https://a.com/2" 7 ];
     tab_groups := [ (5, example_group "five" true); (7, example_group "seven" false) ];
     next_groupId := 12 |}.

(** One tab in one group. *)
Definition one_group_window : Browser :=
  {| open_tabs := [ example_tab 1 "https://a.com/1" 5 ];
     tab_groups := [ (5, example_group "five" true) ];
     next_groupId := 12 |}.

Definition one_tab_group : GroupSuggestion :=
  {| host := "a.com";
     tabs := [ {| id := 1; title := "one"; url := "https://a.com/1"; selected := true |} ];
     groupSelected := true; customName := None |}.

(** A window whose tab 1 has been closed since the model was built. *)
Definition closed_tab_window : Browser :=
  {| open_tabs := [ example_tab 2 "https://a.com/2" 7 ];
     tab_groups := [ (7, example_group "seven" false) ];
     next_groupId := 12 |}.

(** [group.customName || group.host] *)
Definition group_title_of (group : GroupSuggestion) : string :=
  or_else (customName group) (host group).

Definition all_tabs_selected (l : list TabSummary) : Prop :=
  Forall (λ tab, selected tab = true) l.

(** A bucket of the rebuilding loop after its push: selected tabs, at least
    one. *)
Definition bucket_ok (l : list TabSummary) : Prop :=
  all_tabs_selected l ∧ l ≠ [].

Definition maps_ok
    (maps : JsMap Z (string * list TabSummary) * JsMap string (list TabSummary)) : Prop :=
  Forall (λ e, bucket_ok e.2.2) maps.1 ∧ Forall (λ e, bucket_ok e.2) maps.2.

(** Group ids of the reference browser are below the next id it hands out. *)
Definition browser_wf (b : Browser) : Prop :=
  Forall (λ e, e.1 < next_groupId b) (tab_groups b).

(** From [b] to [b']: a group of [b'] either existed in [b] with the same
    [collapsed] attribute, or was created since and is expanded. *)
Definition collapsed_kept (b b' : Browser) : Prop :=
  next_groupId b ≤ next_groupId b' ∧ browser_wf b' ∧
  ∀ groupId group', Map_get (tab_groups b') groupId = Some group' →
    (∃ group, Map_get (tab_groups b) groupId = Some group ∧
              chrome.collapsed group' = chrome.collapsed group)
    ∨ (next_groupId b ≤ groupId ∧ chrome.collapsed group' = false).

(** What the scan knows of the group it has found so far. *)
Definition scan_inv (b : Browser) (existing : option Z) (wasCollapsed : bool) : Prop :=
  match existing with
  | Some groupId =>
      ∀ group, Map_get (tab_groups b) groupId = Some group →
               wasCollapsed = chrome.collapsed group
  | None => wasCollapsed = false
  end.

(** The models the component can hold: the initial empty array, the array
    of a fresh build, and what the updaters and a successful
    [handleOrganizeTabs] make of a model it can hold. *)
Inductive reachable_model (new_URL : string → completion URL) {W : Type} (api : facility W)
  : list GroupSuggestion → Prop :=
| reach_initial : reachable_model new_URL api []
| reach_loadTabs listing : reachable_model new_URL api (loadTabs_groups new_URL listing)
| reach_toggleGroup groups groupIndex groups' :
    reachable_model new_URL api groups →
    toggleGroup groupIndex groups = Some groups' →
    reachable_model new_URL api groups'
| reach_toggleTab groups groupIndex tabIndex groups' :
    reachable_model new_URL api groups →
    toggleTab groupIndex tabIndex groups = Some groups' →
    reachable_model new_URL api groups'
| reach_updateGroupName groups groupIndex newName groups' :
    reachable_model new_URL api groups →
    updateGroupName groupIndex newName groups = Some groups' →
    reachable_model new_URL api groups'
| reach_organize groups w groups' :
    reachable_model new_URL api groups →
    outcome (organize_body new_URL api groups w) = Normal groups' →
    reachable_model new_URL api groups'.

Definition failure_notice : string := "Failed to organize tabs. Please try again.".

(** ** Notions used by the further properties *)

(** What identifies a tab and a suggestion, apart from the selection flags. *)
Definition tab_identity (tab : TabSummary) : Z * string * string :=
  (id tab, title tab, url tab).

Definition group_identity (g : GroupSuggestion)
  : string * option string * list (Z * string * string) :=
  (host g, customName g, tab_identity <$> tabs g).

(** The selection flags of a model, group by group. *)
Definition selection_flags (groups : list GroupSuggestion) : list (list bool) :=
  (λ g, selected <$> tabs g) <$> groups.

(** All the tabs of a model, group after group. *)
Definition all_tabs (groups : list GroupSuggestion) : list TabSummary :=
  concat (tabs <$> groups).

(** ** [loadTabs] as a whole (App.tsx, lines 50-109)

    Besides the listing query, [loadTabs] awaits
    [chrome.windows.getCurrent()] and
    [chrome.tabs.query({ active: true, windowId })] before it builds the
    groups; a rejection of any of the three is caught by its [try], which
    only clears the loading flag. *)
Record Window := mkWindow { window_id : option Z }.

Inductive load_call : Type :=
| load_query_currentWindow                    (* chrome.tabs.query({ currentWindow: true }) *)
| windows_getCurrent                          (* chrome.windows.getCurrent() *)
| tabs_query_active (windowId : option Z).    (* chrome.tabs.query({ active: true, windowId }) *)

Definition load_response (c : load_call) : Type :=
  match c with
  | load_query_currentWindow => list chrome.Tab
  | windows_getCurrent => Window
  | tabs_query_active _ => list chrome.Tab
  end.

Definition load_facility (W : Type) : Type :=
  W → ∀ c : load_call, completion (load_response c) * W.

(** The state variables [loadTabs] writes. *)
Record PopupState := mkPopupState {
  loading : bool;
  popup_groups : list GroupSuggestion;
  activeTabId : option Z;
}.

(** The [catch] clause: [setLoading(false)] alone. *)
Definition loadTabs_failed (state : PopupState) : PopupState :=
  {| loading := false; popup_groups := popup_groups state;
     activeTabId := activeTabId state |}.

(** The new state, the browser's state, and the calls issued. *)
Definition loadTabs (new_URL : string → completion URL) {W} (api : load_facility W)
    (state : PopupState) (w : W) : PopupState * W * list load_call :=
  match api w load_query_currentWindow with
  | (Thrown, w1) => (loadTabs_failed state, w1, [load_query_currentWindow])
  | (Normal tabs, w1) =>
      match api w1 windows_getCurrent with
      | (Thrown, w2) =>
          (loadTabs_failed state, w2, [load_query_currentWindow; windows_getCurrent])
      | (Normal currentWindow, w2) =>
          match api w2 (tabs_query_active (window_id currentWindow)) with
          | (Thrown, w3) =>
              (loadTabs_failed state, w3,
               [load_query_currentWindow; windows_getCurrent;
                tabs_query_active (window_id currentWindow)])
          | (Normal activeTab, w3) =>
              let currentActiveTabId := head activeTab ≫= chrome.id in   (* activeTab[0]?.id *)
              ({| loading := false;
                  popup_groups := loadTabs_groups new_URL tabs;
                  activeTabId := currentActiveTabId |},
               w3,
               [load_query_currentWindow; windows_getCurrent;
                tabs_query_active (window_id currentWindow)])
          end
      end
  end.

(** A window that answers the three calls of [loadTabs] from fixed data, and
    one whose [chrome.windows.getCurrent] is rejected. *)
Definition example_loader (tabs : list chrome.Tab) (answers_window : bool)
  : load_facility unit := λ w c,
  match c return completion (load_response c) * unit with
  | load_query_currentWindow => (Normal tabs, w)
  | windows_getCurrent =>
      (if answers_window then Normal {| window_id := Some 1 |} else Thrown, w)
  | tabs_query_active _ => (Normal (take 1 tabs), w)
  end.

(** The tabs held by the two maps of the rebuilding loop. *)
Definition maps_tabs
    (maps : JsMap Z (string * list TabSummary) * JsMap string (list TabSummary))
  : list TabSummary :=
  concat ((λ e, e.2.2) <$> maps.1) ++ concat ((λ e, e.2) <$> maps.2).

(** The calls whose rejection ends [handleOrganizeTabs]: they are awaited
    outside the inner [try] blocks. *)
Definition is_unguarded (c : call) : bool :=
  match c with
  | tabs_query_groupId _ | tabs_query_currentWindow | tabs_group _ _
  | tabGroups_update _ _ _ _ => true
  | tabs_get _ | tabs_ungroup _ | tabGroups_get _ => false
  end.

(** What a call issued for a suggestion may name: a deselected tab for an
    ungroup, selected tabs for a grouping, a tab of the suggestion for a
    lookup; group lookups, membership queries and updates are for
    suggestions with a selected tab. *)
Definition call_within (group : GroupSuggestion) (c : call) : Prop :=
  match c with
  | tabs_get tabId => tabId ∈ id <$> tabs group
  | tabs_ungroup tabId => tabId ∈ unselectedTabIds group
  | tabs_group _ tabIds => tabIds ≠ [] ∧ ∀ tabId, tabId ∈ tabIds → tabId ∈ selectedTabIds group
  | tabs_query_currentWindow => False
  | tabGroups_update _ title color _ =>
      selectedTabIds group ≠ [] ∧ title = group_title_of group ∧ color = "grey"
  | tabGroups_get _ | tabs_query_groupId _ => selectedTabIds group ≠ []
  end.

(** A run that, if it raised, raised right after a call awaited outside the
    inner [try] blocks. *)
Definition raised_by_unguarded {W A} (r : Run W A) : Prop :=
  outcome r = Thrown → ∃ c, last (issued r) = Some c ∧ is_unguarded c = true.

(** The listed tabs outside every group. *)
Definition ungrouped (listing : list chrome.Tab) : list chrome.Tab :=
  List.filter (λ tab, chrome.groupId tab =? -1) listing.

(** The summaries of the kept tabs of group [groupId], in listing order. *)
Definition tabs_in_group (groupId : Z) (listing : list chrome.Tab) : list TabSummary :=
  tabSummary <$> List.filter (λ tab, chrome.groupId tab =? groupId) (kept listing).

(** The suggestion that stands for the browser's group [e.1], named [e.2]. *)
Definition mirrored_group (listing : list chrome.Tab) (e : Z * string) : GroupSuggestion :=
  {| host := e.2; tabs := tabs_in_group e.1 listing; groupSelected := true;
     customName := Some e.2 |}.

(** The state of the rebuilding loop after the tabs [seen]: one entry per
    group met, holding the summaries of its tabs met so far, and the
    hostname map of the tabs outside every group. *)
Definition resync_inv (new_URL : string → completion URL) (seen : list chrome.Tab)
    (maps : JsMap Z (string * list TabSummary) * JsMap string (list TabSummary)) : Prop :=
  NoDup maps.1.*1 ∧
  (∀ groupId, groupId ∈ maps.1.*1 ↔
     groupId ≠ -1 ∧ ∃ tab, tab ∈ List.filter actionable seen ∧ chrome.groupId tab = groupId) ∧
  Forall (λ e, e.2.2 = tabSummary <$> List.filter (λ tab, chrome.groupId tab =? e.1)
                                        (List.filter actionable seen)) maps.1 ∧
  maps.2 = fold_left (loadTabs_step new_URL) (ungrouped seen) [].

(** ** The view (App.tsx, lines 32-46 and 339-462)

    What the component returns, as data: the loading view, the success
    view, or the main view, a list of cards (the empty list stands for the
    "No tabs to organize." message) and the [disabled] attribute of the
    "Organize Tabs" button. *)

(** *** JavaScript string indices

    The strings of the model are texts in UTF-8.  [length] and [substring]
    of JavaScript count UTF-16 code units: one for a code point of the basic
    plane, two (a surrogate pair) for any other.  A byte that does not begin
    a sequence of the UTF-8 bit patterns is read as U+FFFD. *)
Definition byte (c : ascii) : Z := Z.of_N (N_of_ascii c).

Definition continuation (c : ascii) : bool := (128 <=? byte c) && (byte c <? 192).

Definition low_bits (c : ascii) : Z := Z.land (byte c) 63.

Fixpoint code_points (s : string) : list Z :=
  match s with
  | EmptyString => []
  | String c0 s0 =>
      if byte c0 <? 128 then byte c0 :: code_points s0
      else
        match s0 with
        | EmptyString => [65533]
        | String c1 s1 =>
            if (192 <=? byte c0) && (byte c0 <? 224) && continuation c1
            then (Z.shiftl (Z.land (byte c0) 31) 6 + low_bits c1) :: code_points s1
            else
              match s1 with
              | EmptyString => 65533 :: code_points s0
              | String c2 s2 =>
                  if (224 <=? byte c0) && (byte c0 <? 240)
                     && continuation c1 && continuation c2
                  then (Z.shiftl (Z.land (byte c0) 15) 12 + Z.shiftl (low_bits c1) 6
                        + low_bits c2) :: code_points s2
                  else
                    match s2 with
                    | EmptyString => 65533 :: code_points s0
                    | String c3 s3 =>
                        if (240 <=? byte c0) && (byte c0 <? 248)
                           && continuation c1 && continuation c2 && continuation c3
                        then (Z.shiftl (Z.land (byte c0) 7) 18
                              + Z.shiftl (low_bits c1) 12 + Z.shiftl (low_bits c2) 6
                              + low_bits c3) :: code_points s3
                        else 65533 :: code_points s0
                    end
              end
        end
  end.

Definition code_units (codePoint : Z) : list Z :=
  if codePoint <? 65536 then [codePoint]
  else [55296 + Z.shiftr (codePoint - 65536) 10; 56320 + Z.land (codePoint - 65536) 1023].

(** The UTF-16 code units of a text: what JavaScript indexes. *)
Definition utf16 (s : string) : list Z := concat (code_units <$> code_points s).

Record TabRow := mkTabRow {
  row_key : Z;                  (* key={tab.id} *)
  row_active : bool;            (* tab.id === activeTabId *)
  row_tooltip : string;
  row_checked : bool;           (* checked={tab.selected} *)
  row_text : list Z;            (* the code units shown *)
}.

(** The name of a card: an input holding the name while the group is being
    renamed (lines 389-403), otherwise a label with the name and the number
    of tabs (lines 405-415). *)
Inductive CardLabel :=
| NameInput (value : string)
| NameLabel (name : string) (count : nat) (plural : bool).

Record GroupCard := mkGroupCard {
  card_key : string;            (* key={group.host} *)
  card_checked : bool;          (* checked={group.groupSelected} *)
  card_label : CardLabel;
  card_rows : list TabRow;
}.

(** [group.customName || group.host], as the input or the label shows it. *)
Definition card_name (card : GroupCard) : string :=
  match card_label card with
  | NameInput value => value
  | NameLabel name _ _ => name
  end.

Inductive View :=
| LoadingView
| SuccessView
| MainView (cards : list GroupCard) (organize_disabled : bool).

(** Lines 438-440: [tab.title.length > 50 ? tab.title.substring(0, 50) +
    '...' : tab.title], in code units. *)
Definition displayed_title (title : string) : list Z :=
  if (50 <? length (utf16 title))%nat
  then take 50 (utf16 title) ++ utf16 "..."
  else utf16 title.

(** Lines 423-442. *)
Definition render_tab (active : option Z) (tab : TabSummary) : TabRow :=
  let is_active := bool_decide (Some (id tab) = active) in
  {| row_key := id tab;
     row_active := is_active;
     row_tooltip := if is_active then "Current active tab" else title tab;
     row_checked := selected tab;
     row_text := displayed_title (title tab) |}.

(** Lines 379-445. *)
Definition render_group (active : option Z) (editingGroupIndex : option nat)
    (groupIndex : nat) (group : GroupSuggestion) : GroupCard :=
  {| card_key := host group;
     card_checked := groupSelected group;
     card_label :=
       if bool_decide (editingGroupIndex = Some groupIndex)
       then NameInput (or_else (customName group) (host group))
       else NameLabel (or_else (customName group) (host group))
                      (length (tabs group))
                      (negb (length (tabs group) =? 1)%nat);
     card_rows := render_tab active <$> tabs group |}.

(** Lines 339-462. *)
Definition render (loading organized : bool) (groups : list GroupSuggestion)
    (active : option Z) (editingGroupIndex : option nat) : View :=
  if loading then LoadingView
  else if organized then SuccessView
  else MainView (imap (render_group active editingGroupIndex) groups)
                (negb (hasSelectedTabs groups)).

(** The initial values of the state variables [loadTabs] writes (lines
    34-43). *)
Definition initial_popup : PopupState :=
  {| loading := true; popup_groups := []; activeTabId := None |}.

Definition popup_view (state : PopupState) (organized : bool)
    (editingGroupIndex : option nat) : View :=
  render (loading state) organized (popup_groups state) (activeTabId state) editingGroupIndex.

(** Whether one of the three calls of [loadTabs] is rejected. *)
Definition load_rejected {W} (api : load_facility W) (w : W) : bool :=
  match api w load_query_currentWindow with
  | (Thrown, _) => true
  | (Normal _, w1) =>
      match api w1 windows_getCurrent with
      | (Thrown, _) => true
      | (Normal currentWindow, w2) =>
          is_thrown (api w2 (tabs_query_active (window_id currentWindow))).1
      end
  end.

(** The models the main view shows: the fresh build of a listing and what
    the three updaters make of it. *)
Inductive editable_model (new_URL : string → completion URL) (listing : list chrome.Tab)
  : list GroupSuggestion → Prop :=
| edit_loaded : editable_model new_URL listing (loadTabs_groups new_URL listing)
| edit_toggleGroup groups groupIndex groups' :
    editable_model new_URL listing groups →
    toggleGroup groupIndex groups = Some groups' →
    editable_model new_URL listing groups'
| edit_toggleTab groups groupIndex tabIndex groups' :
    editable_model new_URL listing groups →
    toggleTab groupIndex tabIndex groups = Some groups' →
    editable_model new_URL listing groups'
| edit_updateGroupName groups groupIndex newName groups' :
    editable_model new_URL listing groups →
    updateGroupName groupIndex newName groups = Some groups' →
    editable_model new_URL listing groups'.

(** The React keys of a suggestion: its own and those of its tabs. *)
Definition group_keys (group : GroupSuggestion) : string * list Z :=
  (host group, id <$> tabs group).

(** The group of tab [tabId] in window [b], as [chrome.tabs.get] answers
    it: [None] for a closed tab, [Some (-1)] for a tab outside every
    group. *)
Definition group_of (b : Browser) (tabId : Z) : option Z :=
  chrome.groupId <$> List.find (has_id tabId) (open_tabs b).

(** A window as the browser keeps it: no tab id twice, every group with a
    member listed, and the ids of new groups not negative. *)
Definition window_ok (b : Browser) : Prop :=
  NoDup (omap chrome.id (open_tabs b)) ∧
  (∀ tab, tab ∈ open_tabs b → chrome.groupId tab ≠ -1 →
          Map_has (tab_groups b) (chrome.groupId tab) = true) ∧
  0 ≤ next_groupId b.

(** A window with tabs 1 and 2 in groups 5 and 7, and tab 9 in group 7. *)
Definition three_tabs_window : Browser :=
  {| open_tabs := [ example_tab 1 "https://a.com/1" 5; example_tab 2 "https://a.com/2" 7;
                    example_tab 9 "https://b.com/1" 7 ];
     tab_groups := [ (5, example_group "five" true); (7, example_group "seven" false) ];
     next_groupId := 12 |}.

(** The group ids of a list in the order in which they are first met. *)
Fixpoint first_met (groupIds : list Z) : list Z :=
  match groupIds with
  | [] => []
  | g :: rest => g :: filter (λ g', g' ≠ g) (first_met rest)
  end.

(** Of the tabs the rebuilding loop keeps, those in a group. *)
Definition grouped (keptTabs : list chrome.Tab) : list chrome.Tab :=
  List.filter (λ tab, negb (chrome.groupId tab =? -1)) keptTabs.

(** The hostname key of the first kept tab of group [groupId]. *)
Definition first_key (new_URL : string → completion URL) (groupId : Z)
    (keptTabs : list chrome.Tab) : string :=
  match List.filter (λ tab, chrome.groupId tab =? groupId) keptTabs with
  | tab :: _ => key_of new_URL tab
  | [] => ""
  end.

(** The groups met among the kept tabs, in the order of first appearance,
    each with the key of its first tab. *)
Definition groups_met (new_URL : string → completion URL) (keptTabs : list chrome.Tab)
  : list (Z * string) :=
  (λ g, (g, first_key new_URL g keptTabs)) <$> first_met (chrome.groupId <$> grouped keptTabs).

(** [groupInfo.title || getHostname(tab.url)], and the key alone when the
    lookup is rejected (lines 274-284). *)
Definition group_name (answer : completion chrome.TabGroup) (key : string) : string :=
  match answer with
  | Normal groupInfo => or_else (chrome.group_title groupInfo) key
  | Thrown => key
  end.

(** The names that the lookups of the groups [met] give when they are made
    in order from the state [w], and the state after them. *)
Fixpoint lookup_names {W} (api : facility W) (met : list (Z * string)) (w : W)
  : list (Z * string) * W :=
  match met with
  | [] => ([], w)
  | (groupId, key) :: rest =>
      let '(answer, w1) := api w (tabGroups_get groupId) in
      let '(named, w2) := lookup_names api rest w1 in
      ((groupId, group_name answer key) :: named, w2)
  end.

(** The ids and names held by the map of the rebuilding loop. *)
Definition names_of (groupMap : JsMap Z (string * list TabSummary)) : list (Z * string) :=
  (λ e, (e.1, e.2.1)) <$> groupMap.

(** * Properties *)

(** ** Selection model *)

Lemma toggleGroup_eq (groups : list GroupSuggestion) groupIndex group :
  groups !! groupIndex = Some group →
  toggleGroup groupIndex groups =
    Some (<[groupIndex :=
              {| host := host group;
                 tabs := with_selected (negb (groupSelected group)) <$> tabs group;
                 groupSelected := negb (groupSelected group);
                 customName := customName group |}]> groups).
Proof. intros Hg. unfold toggleGroup. by rewrite Hg. Qed.

Lemma toggleTab_eq (groups : list GroupSuggestion) groupIndex tabIndex group tab :
  groups !! groupIndex = Some group →
  tabs group !! tabIndex = Some tab →
  toggleTab groupIndex tabIndex groups =
    Some (<[groupIndex :=
              {| host := host group;
                 tabs := <[tabIndex := with_selected (negb (selected tab)) tab]> (tabs group);
                 groupSelected :=
                   forallb selected
                     (<[tabIndex := with_selected (negb (selected tab)) tab]> (tabs group));
                 customName := customName group |}]> groups).
Proof. intros Hg Ht. unfold toggleTab. rewrite Hg. simpl. by rewrite Ht. Qed.

(** Outside the array the updaters raise. *)
Lemma toggleGroup_out_of_range (groups : list GroupSuggestion) groupIndex :
  (length groups ≤ groupIndex)%nat → toggleGroup groupIndex groups = None.
Proof. intros H. unfold toggleGroup. by rewrite lookup_ge_None_2. Qed.

(** [hasSelectedTabs] is false exactly when no tab of no group is selected. *)
Lemma hasSelectedTabs_false (groups : list GroupSuggestion) :
  hasSelectedTabs groups = false ↔
  Forall (λ group, Forall (λ tab, selected tab = false) (tabs group)) groups.
Proof.
  unfold hasSelectedTabs. induction groups as [|group groups IH]; simpl.
  { split; [constructor|done]. }
  rewrite orb_false_iff, IH, Forall_cons. apply and_iff_compat_r.
  induction (tabs group) as [|tab l IHl]; simpl.
  { split; [constructor|done]. }
  by rewrite orb_false_iff, IHl, Forall_cons.
Qed.

Lemma forallb_with_selected b (l : list TabSummary) :
  l ≠ [] → forallb selected (with_selected b <$> l) = b.
Proof.
  intros Hne. destruct b.
  - clear Hne. induction l as [|tab l IH]; [done|]. simpl. exact IH.
  - by destruct l.
Qed.

Lemma model_consistent_insert (groups : list GroupSuggestion) i g :
  model_consistent groups → group_consistent g → model_consistent (<[i := g]> groups).
Proof.
  unfold model_consistent. rewrite !Forall_lookup. intros Hall Hg j g' Hj.
  destruct (decide (i = j)) as [->|Hne].
  - apply list_lookup_insert_Some in Hj as [(_ & -> & _)|(? & _)]; [done|lia].
  - rewrite list_lookup_insert_ne in Hj by done. eauto.
Qed.

(** What one toggle does to the flags, on any array: after [toggleTab], and
    after [toggleGroup] on a group that has at least one tab, the toggled
    group's [groupSelected] is the conjunction of its tabs' [selected] flags
    and every other group is untouched; hence a consistent model stays
    consistent. *)
Lemma toggle_keeps_consistency (groups : list GroupSuggestion) groupIndex group :
  groups !! groupIndex = Some group →
  (tabs group ≠ [] →
   ∃ groups' group',
     toggleGroup groupIndex groups = Some groups' ∧
     groups' !! groupIndex = Some group' ∧ group_consistent group' ∧
     (∀ j, j ≠ groupIndex → groups' !! j = groups !! j) ∧
     (model_consistent groups → model_consistent groups'))
  ∧
  (∀ tabIndex tab, tabs group !! tabIndex = Some tab →
   ∃ groups' group',
     toggleTab groupIndex tabIndex groups = Some groups' ∧
     groups' !! groupIndex = Some group' ∧ group_consistent group' ∧
     (∀ j, j ≠ groupIndex → groups' !! j = groups !! j) ∧
     (model_consistent groups → model_consistent groups')).
Proof.
  intros Hg. pose proof (lookup_lt_Some _ _ _ Hg) as Hlt. split.
  - intros Hne. eexists _, _. split; [by apply toggleGroup_eq|].
    assert (group_consistent
              {| host := host group;
                 tabs := with_selected (negb (groupSelected group)) <$> tabs group;
                 groupSelected := negb (groupSelected group);
                 customName := customName group |}) as Hc.
    { unfold group_consistent. simpl. by rewrite forallb_with_selected. }
    split; [by apply list_lookup_insert_eq|]. split; [done|]. split.
    + intros j Hj. by apply list_lookup_insert_ne.
    + intros Hall. by apply model_consistent_insert.
  - intros tabIndex tab Ht. eexists _, _. split; [by eapply toggleTab_eq|].
    split; [by apply list_lookup_insert_eq|]. split; [done|]. split.
    + intros j Hj. by apply list_lookup_insert_ne.
    + intros Hall. by apply model_consistent_insert.
Qed.

(** The proviso on [toggleGroup] is needed on arrays in general: on a group
    without tabs the flag becomes [false] while the conjunction over no tabs
    is [true].  The component never holds such a group (see
    [reachable_model_invariants] below). *)
Lemma toggleGroup_empty_group_inconsistent :
  let groups := [ {| host := "a.com"; tabs := []; groupSelected := true;
                     customName := None |} ] in
  model_consistent groups ∧ (0 < length groups)%nat ∧
  ∃ groups', toggleGroup 0 groups = Some groups' ∧ ¬ model_consistent groups'.
Proof.
  simpl. split; [by repeat constructor|]. split; [lia|].
  eexists. split; [reflexivity|]. intros H.
  apply Forall_cons_1 in H as [H _]. discriminate H.
Qed.

Lemma with_selected_id tab : with_selected (selected tab) tab = tab.
Proof. by destruct tab. Qed.

Lemma with_selected_twice b b' tab :
  with_selected b (with_selected b' tab) = with_selected b tab.
Proof. done. Qed.

Lemma group_uniform_spec g :
  group_uniform g ↔ selected <$> tabs g = (λ _, groupSelected g) <$> tabs g.
Proof.
  unfold group_uniform. generalize (groupSelected g). intros b.
  induction (tabs g) as [|tab l IH]; simpl.
  - split; [done|constructor].
  - split.
    + intros [Hx Hl]%Forall_cons. f_equal; [done|by apply IH].
    + intros [= Hx Hl]. constructor; [done|by apply IH].
Qed.

Lemma group_uniform_restore g :
  group_uniform g → with_selected (groupSelected g) <$> tabs g = tabs g.
Proof.
  unfold group_uniform. generalize (groupSelected g). intros b.
  induction 1 as [|tab l Hx _ IH]; [done|].
  rewrite fmap_cons, IH, <- Hx. by rewrite with_selected_id.
Qed.

(** A consistent group that is selected as a whole, or whose tabs are all
    deselected, is uniform. *)
Lemma group_consistent_selected_uniform g :
  group_consistent g → groupSelected g = true → group_uniform g.
Proof.
  unfold group_consistent, group_uniform. intros -> H.
  apply Forall_forall. intros tab Hin. rewrite H.
  rewrite forallb_forall in H. apply H. by apply list_elem_of_In.
Qed.

(** C2 (as amended). Applying [toggleGroup] twice restores [groupSelected]
    and leaves every tab of the group with the flag [groupSelected] had
    before the two calls; the tabs get their prior [selected] flags back
    exactly when these all equalled [groupSelected], and then the whole
    model is restored. *)
Theorem toggleGroup_twice (groups : list GroupSuggestion) groupIndex group :
  groups !! groupIndex = Some group →
  ∃ groups1 groups2 group2,
    toggleGroup groupIndex groups = Some groups1 ∧
    toggleGroup groupIndex groups1 = Some groups2 ∧
    groups2 !! groupIndex = Some group2 ∧
    groupSelected group2 = groupSelected group ∧
    selected <$> tabs group2 = (λ _, groupSelected group) <$> tabs group ∧
    (selected <$> tabs group2 = selected <$> tabs group ↔ group_uniform group) ∧
    (group_uniform group → groups2 = groups).
Proof.
  intros Hg. pose proof (lookup_lt_Some _ _ _ Hg) as Hlt.
  eexists _, _, _. split; [by apply toggleGroup_eq|].
  split. { apply toggleGroup_eq. by apply list_lookup_insert_eq. }
  simpl. rewrite list_insert_insert_eq, negb_involutive, <- list_fmap_compose.
  split. { by apply list_lookup_insert_eq. }
  simpl. split; [done|].
  assert (selected <$> (with_selected (groupSelected group)
                          ∘ with_selected (negb (groupSelected group)) <$> tabs group)
          = (λ _, groupSelected group) <$> tabs group) as Hsel.
  { rewrite <- list_fmap_compose. by apply list_fmap_ext. }
  split; [exact Hsel|]. split.
  - rewrite Hsel, group_uniform_spec. split; intros H; by rewrite H.
  - intros Hu. apply list_insert_id. rewrite Hg. f_equal.
    pose proof (group_uniform_restore _ Hu) as Hr.
    destruct group as [h ts gs cn]. simpl in *. f_equal.
    symmetry. etransitivity; [|exact Hr]. by apply list_fmap_ext.
Qed.

Lemma toggleGroup_twice_witness :
  ∃ groups1, toggleGroup 0 [two_tab_group true true true] = Some groups1 ∧
             toggleGroup 0 groups1 = Some [two_tab_group true true true].
Proof.
  destruct (toggleGroup_twice [two_tab_group true true true] 0 _ eq_refl)
    as (groups1 & groups2 & group2 & H1 & H2 & _ & _ & _ & _ & Hback).
  exists groups1. split; [exact H1|]. rewrite H2. f_equal. apply Hback.
  by repeat constructor.
Defined.

(** C2 (as stated) fails on a partly selected group, a state reached from
    the freshly built one by a single [toggleTab]: tab 1 was selected before
    the two calls of [toggleGroup] and is deselected after them. *)
Lemma toggleGroup_twice_loses_partial_selection :
  let groups := [two_tab_group true false false] in
  toggleTab 0 1 [two_tab_group true true true] = Some groups ∧
  model_consistent groups ∧
  ∃ groups1 groups2 group2,
    toggleGroup 0 groups = Some groups1 ∧
    toggleGroup 0 groups1 = Some groups2 ∧
    groups2 !! 0%nat = Some group2 ∧
    selected <$> tabs (two_tab_group true false false) = [true; false] ∧
    selected <$> tabs group2 = [false; false].
Proof.
  simpl. split; [reflexivity|]. split; [by repeat constructor|].
  by eexists _, _, _.
Qed.

(** C10. On a consistent model, [toggleTab] applied twice at an in-range
    position returns exactly the prior model. *)
Theorem toggleTab_twice (groups : list GroupSuggestion) groupIndex tabIndex group tab :
  model_consistent groups →
  groups !! groupIndex = Some group →
  tabs group !! tabIndex = Some tab →
  ∃ groups1,
    toggleTab groupIndex tabIndex groups = Some groups1 ∧
    toggleTab groupIndex tabIndex groups1 = Some groups.
Proof.
  intros Hall Hg Ht.
  pose proof (lookup_lt_Some _ _ _ Hg) as Hlt.
  pose proof (lookup_lt_Some _ _ _ Ht) as Hlt'.
  eexists. split; [by eapply toggleTab_eq|].
  erewrite toggleTab_eq;
    [|by apply list_lookup_insert_eq|simpl; by apply list_lookup_insert_eq].
  simpl. f_equal. rewrite list_insert_insert_eq.
  rewrite !list_insert_insert_eq, with_selected_twice, negb_involutive, with_selected_id.
  rewrite (list_insert_id (tabs group)) by done.
  apply list_insert_id. rewrite Hg. f_equal.
  unfold model_consistent in Hall. rewrite Forall_lookup in Hall.
  specialize (Hall _ _ Hg). unfold group_consistent in Hall.
  destruct group; simpl in *. by rewrite <- Hall.
Qed.

Lemma toggleTab_twice_witness :
  ∃ groups1, toggleTab 0 1 [two_tab_group true false false] = Some groups1 ∧
             toggleTab 0 1 groups1 = Some [two_tab_group true false false].
Proof.
  apply (toggleTab_twice [two_tab_group true false false] 0 1
           (two_tab_group true false false)
           {| id := 2; title := "two"; url := "https://a.com/2"; selected := false |}).
  - by repeat constructor.
  - reflexivity.
  - reflexivity.
Defined.

(** ** KeyExtractor *)

Local Ltac other_char a :=
  right; split;
  [ intros ? [=]; congruence
  | destruct a as [[] [] [] [] [] [] [] []]; try reflexivity; congruence ].

Lemma replace_leading_www_cases (s : string) :
  (∃ rest, s = "www." +:+ rest ∧ replace_leading_www s = rest) ∨
  ((∀ rest, s ≠ "www." +:+ rest) ∧ replace_leading_www s = s).
Proof.
  destruct s as [|a1 s]; [right; done|].
  destruct (decide (a1 = "w"%char)) as [->|]; [|other_char a1].
  destruct s as [|a2 s]; [right; done|].
  destruct (decide (a2 = "w"%char)) as [->|]; [|other_char a2].
  destruct s as [|a3 s]; [right; done|].
  destruct (decide (a3 = "w"%char)) as [->|]; [|other_char a3].
  destruct s as [|a4 s]; [right; done|].
  destruct (decide (a4 = "."%char)) as [->|]; [|other_char a4].
  left. by exists s.
Qed.

Lemma replace_leading_www_stripped (s : string) :
  one_leading_www_stripped s (replace_leading_www s).
Proof.
  destruct (replace_leading_www_cases s) as [(rest & -> & ->)|[Hp ->]].
  - by left.
  - by right.
Qed.

(** C3. [getHostname] returns a key for every string and every behaviour of
    the URL parser: the parsed hostname without one leading ["www."], or
    ["unknown"] when the parser raises. *)
Theorem getHostname_total (new_URL : string → completion URL) (url : string) :
  (∃ key,
     getHostname new_URL url = Normal key ∧
     match new_URL url with
     | Normal u => one_leading_www_stripped (hostname u) key
     | Thrown => key = "unknown"
     end) ∧
  replace_leading_www "www.example.com" = "example.com" ∧
  replace_leading_www "shop.example.com" = "shop.example.com" ∧
  replace_leading_www "www.www.example.com" = "www.example.com" ∧
  replace_leading_www "shop.www.example.com" = "shop.www.example.com" ∧
  getHostname example_URL "https://www.example.com/x" = Normal "example.com" ∧
  getHostname example_URL "https://shop.example.com" = Normal "shop.example.com" ∧
  getHostname example_URL "" = Normal "unknown" ∧
  getHostname example_URL "not a url" = Normal "unknown".
Proof.
  split; [|by repeat split].
  unfold getHostname. destruct (new_URL url) as [u|]; simpl.
  - eexists. split; [done|]. apply replace_leading_www_stripped.
  - by eexists.
Qed.

Lemma hostname_key_eq (new_URL : string → completion URL) (url : string) :
  getHostname new_URL url = Normal (hostname_key new_URL url).
Proof. unfold hostname_key, getHostname. by destruct (new_URL url). Qed.

(** ** GroupSuggestionBuilder: the fresh build *)

Lemma first_seen_elem_of (keys : list string) k : k ∈ first_seen keys ↔ k ∈ keys.
Proof.
  induction keys as [|k' keys IH]; simpl; [done|].
  rewrite !elem_of_cons, list_elem_of_filter, IH.
  destruct (decide (k = k')); naive_solver.
Qed.

Lemma first_seen_NoDup (keys : list string) : NoDup (first_seen keys).
Proof.
  induction keys as [|k keys IH]; simpl; [constructor|].
  constructor; [|by apply NoDup_filter].
  rewrite list_elem_of_filter. naive_solver.
Qed.

Lemma first_seen_snoc (keys : list string) k :
  first_seen (keys ++ [k]) =
    if decide (k ∈ keys) then first_seen keys else first_seen keys ++ [k].
Proof.
  induction keys as [|k' keys IH]; simpl; [done|].
  rewrite IH. destruct (decide (k ∈ keys)) as [Hin|Hnin].
  - rewrite decide_True; [done|by right].
  - rewrite filter_app. destruct (decide (k = k')) as [->|Hne].
    + rewrite decide_True by left. rewrite filter_cons_False by naive_solver.
      simpl. by rewrite app_nil_r.
    + rewrite decide_False by (rewrite elem_of_cons; naive_solver).
      by rewrite filter_cons_True.
Qed.

(** Extending the input only appends keys. *)
Lemma first_seen_app_prefix (keys more : list string) :
  first_seen keys `prefix_of` first_seen (keys ++ more).
Proof.
  revert keys. induction more as [|k more IH]; intros keys.
  - by rewrite app_nil_r.
  - replace (keys ++ k :: more) with ((keys ++ [k]) ++ more) by by rewrite <- app_assoc.
    etransitivity; [|apply IH]. rewrite first_seen_snoc.
    case_decide; [done|by apply prefix_app_r].
Qed.

Section JsMapFacts.
Context {V : Type}.
Implicit Types (m : JsMap string V) (k : string).

Lemma Map_has_elem_of m k : Map_has m k = true ↔ k ∈ m.*1.
Proof.
  unfold Map_has. rewrite existsb_exists, list_elem_of_fmap. split.
  - intros (e & Hin%list_elem_of_In & He%bool_decide_eq_true). by exists e.
  - intros (e & -> & Hin%list_elem_of_In). exists e. by rewrite bool_decide_eq_true.
Qed.

Lemma Map_set_fresh m k v : k ∉ m.*1 → Map_set m k v = m ++ [(k, v)].
Proof.
  induction m as [|[k' v'] m IH]; simpl; [done|].
  rewrite not_elem_of_cons. intros [Hne Hnin].
  rewrite decide_False by done. by rewrite IH.
Qed.

Lemma Map_update_fresh m k f : k ∉ m.*1 → Map_update m k f = m.
Proof.
  induction m as [|[k' v'] m IH]; simpl; [done|].
  rewrite not_elem_of_cons. intros [Hne Hnin].
  rewrite decide_False by done. by rewrite IH.
Qed.

Lemma Map_update_app_fresh m k v f :
  k ∉ m.*1 → Map_update (m ++ [(k, v)]) k f = m ++ [(k, f v)].
Proof.
  induction m as [|[k' v'] m IH]; simpl.
  - intros _. by rewrite decide_True.
  - rewrite not_elem_of_cons. intros [Hne Hnin].
    rewrite decide_False by done. by rewrite IH.
Qed.

(** On a map presented by its key list, an update touches the one entry of
    its key. *)
Lemma Map_update_tabulate (keys : list string) (F : string → V) k f :
  NoDup keys →
  Map_update ((λ k', (k', F k')) <$> keys) k f =
    (λ k', (k', if decide (k' = k) then f (F k') else F k')) <$> keys.
Proof.
  induction 1 as [|k' keys Hnin Hnd IH]; csimpl; [done|].
  destruct (decide (k' = k)) as [->|Hne].
  - f_equal. apply list_fmap_ext. intros i k' Hk'.
    rewrite decide_False; [done|]. intros ->. apply Hnin.
    by eapply list_elem_of_lookup_2.
  - by rewrite IH.
Qed.
End JsMapFacts.

Section FreshBuildFacts.
Context (new_URL : string → completion URL).
#[local] Abbreviation key_of := (key_of new_URL).

Lemma tabulate_keys {V} (keys : list string) (F : string → V) :
  ((λ k, (k, F k)) <$> keys).*1 = keys.
Proof. induction keys as [|k keys IH]; csimpl; [done|]. by rewrite IH. Qed.

Lemma filter_key_absent (l : list chrome.Tab) k :
  k ∉ key_of <$> l → filter (λ tab, key_of tab = k) l = [].
Proof.
  intros Hnin. induction l as [|tab l IH]; [done|].
  rewrite fmap_cons, not_elem_of_cons in Hnin. destruct Hnin as [Hne Hnin].
  rewrite filter_cons_False by done. by apply IH.
Qed.

(** The map built by the loop is the tabulation of the buckets over the
    first-seen keys. *)
Lemma loadTabs_hostMap_spec (l : list chrome.Tab) :
  loadTabs_hostMap new_URL l =
    (λ k, (k, tabSummary <$> filter (λ tab, key_of tab = k) (List.filter actionable l)))
    <$> first_seen (key_of <$> List.filter actionable l).
Proof.
  unfold loadTabs_hostMap. induction l as [|tab l IH] using rev_ind; [done|].
  rewrite fold_left_app. simpl. rewrite IH. clear IH.
  unfold loadTabs_step. rewrite List.filter_app. simpl.
  destruct (actionable tab); [|by rewrite app_nil_r].
  set (E := List.filter actionable l).
  rewrite !fmap_app. csimpl. rewrite first_seen_snoc. fold (key_of tab).
  unfold hostMap_push. set (k := key_of tab).
  destruct (Map_has _ k) eqn:Hhas.
  - apply Map_has_elem_of in Hhas. rewrite tabulate_keys, first_seen_elem_of in Hhas.
    rewrite decide_True by done.
    rewrite Map_update_tabulate by apply first_seen_NoDup.
    apply list_fmap_ext. intros _ k' _. f_equal. rewrite filter_app, fmap_app.
    case_decide as Hk.
    + subst k'. by rewrite filter_cons_True.
    + rewrite filter_cons_False by done. by rewrite filter_nil, app_nil_r.
  - assert (k ∉ key_of <$> E) as Hnin.
    { intros Hin. rewrite <- first_seen_elem_of in Hin.
      rewrite <- (tabulate_keys _ (λ k, tabSummary <$> filter (λ tab, key_of tab = k) E)) in Hin.
      apply Map_has_elem_of in Hin. congruence. }
    rewrite decide_False by done.
    rewrite Map_set_fresh, Map_update_app_fresh;
      try by rewrite tabulate_keys, first_seen_elem_of.
    rewrite fmap_app. f_equal.
    + apply list_fmap_ext. intros i k' Hk'. f_equal.
      rewrite filter_app, filter_cons_False, filter_nil, app_nil_r; [done|].
      intros Heq. apply Hnin. rewrite <- first_seen_elem_of. fold k in Heq. subst k'.
      by eapply list_elem_of_lookup_2.
    + simpl. rewrite filter_app, filter_key_absent by done.
      by rewrite filter_cons_True.
Qed.

Lemma loadTabs_groups_fresh_build (tabs : list chrome.Tab) :
  loadTabs_groups new_URL tabs = fresh_build new_URL tabs.
Proof.
  unfold loadTabs_groups, fresh_build, hostGroups. rewrite loadTabs_hostMap_spec.
  rewrite <- list_fmap_compose. by apply list_fmap_ext.
Qed.
End FreshBuildFacts.

Lemma List_filter_Permutation {A} (f : A → bool) (l l' : list A) :
  l ≡ₚ l' → List.filter f l ≡ₚ List.filter f l'.
Proof.
  induction 1 as [|x l l' _ IH|x y l|l1 l2 l3 _ IH1 _ IH2]; simpl.
  - done.
  - destruct (f x); [by constructor|done].
  - destruct (f x), (f y); try done. apply perm_swap.
  - by etransitivity.
Qed.

Lemma kept_app (tabs more : list chrome.Tab) : kept (tabs ++ more) = kept tabs ++ kept more.
Proof. unfold kept, filterTabs. by rewrite !List.filter_app. Qed.

Lemma kept_Permutation (tabs tabs' : list chrome.Tab) : tabs ≡ₚ tabs' → kept tabs ≡ₚ kept tabs'.
Proof. intros H. unfold kept, filterTabs. by do 2 apply List_filter_Permutation. Qed.

Lemma Forall_selected_tabSummary (l : list chrome.Tab) :
  Forall (λ tab, selected tab = true) (tabSummary <$> l).
Proof. apply Forall_fmap, Forall_true. done. Qed.

(** C4. The fresh build of [loadTabs]: one suggestion per key, holding the
    kept tabs of that key in input order; the suggestions come in the order
    in which their keys are first seen; permuting the input changes neither
    which tabs share a suggestion; every flag starts [true]. *)
Theorem loadTabs_groups_by_key (new_URL : string → completion URL) (listing : list chrome.Tab) :
  loadTabs_groups new_URL listing = fresh_build new_URL listing ∧
  NoDup (host <$> loadTabs_groups new_URL listing) ∧
  host <$> loadTabs_groups new_URL listing = first_seen (key_of new_URL <$> kept listing) ∧
  (∀ g, g ∈ loadTabs_groups new_URL listing →
     tabs g =
       tabSummary <$> filter (λ tab, key_of new_URL tab = host g) (kept listing) ∧
     tabs g ≠ []) ∧
  (∀ tab, tab ∈ kept listing →
     ∃ g, g ∈ loadTabs_groups new_URL listing ∧ host g = key_of new_URL tab ∧
          tabSummary tab ∈ tabs g) ∧
  (∀ more, host <$> loadTabs_groups new_URL listing
             `prefix_of` host <$> loadTabs_groups new_URL (listing ++ more)) ∧
  (∀ listing' g, listing' ≡ₚ listing → g ∈ loadTabs_groups new_URL listing →
     ∃ g', g' ∈ loadTabs_groups new_URL listing' ∧ host g' = host g ∧
           tabs g' ≡ₚ tabs g) ∧
  Forall all_selected (loadTabs_groups new_URL listing).
Proof.
  assert (∀ ts, host <$> loadTabs_groups new_URL ts
                  = first_seen (key_of new_URL <$> kept ts)) as Hhosts.
  { intros ts. rewrite loadTabs_groups_fresh_build. unfold fresh_build.
    rewrite <- list_fmap_compose.
    etransitivity; [by apply list_fmap_ext|apply list_fmap_id]. }
  split; [apply loadTabs_groups_fresh_build|].
  split; [rewrite Hhosts; apply first_seen_NoDup|].
  split; [apply Hhosts|].
  split; [|split; [|split; [|split]]].
  - rewrite loadTabs_groups_fresh_build. unfold fresh_build.
    intros g (k & -> & Hk)%list_elem_of_fmap. simpl. split; [done|].
    apply first_seen_elem_of, list_elem_of_fmap in Hk as (tab & -> & Hin).
    intros Hnil%fmap_nil_inv.
    assert (tab ∈ filter (λ tab', key_of new_URL tab' = key_of new_URL tab) (kept listing))
      as Hin' by by apply list_elem_of_filter.
    rewrite Hnil in Hin'. by apply not_elem_of_nil in Hin'.
  - rewrite loadTabs_groups_fresh_build. unfold fresh_build.
    intros tab Hin. exists (suggestion_for new_URL listing (key_of new_URL tab)).
    split; [|split; [done|]].
    + apply list_elem_of_fmap_2, first_seen_elem_of. by apply list_elem_of_fmap_2.
    + simpl. apply list_elem_of_fmap_2. by apply list_elem_of_filter.
  - intros more. rewrite !Hhosts.
    rewrite kept_app, fmap_app. apply first_seen_app_prefix.
  - rewrite !loadTabs_groups_fresh_build. unfold fresh_build.
    intros listing' g Hperm (k & -> & Hk)%list_elem_of_fmap.
    rewrite loadTabs_groups_fresh_build. unfold fresh_build.
    apply kept_Permutation in Hperm.
    exists (suggestion_for new_URL listing' k). split; [|split; [done|]].
    + apply list_elem_of_fmap_2, first_seen_elem_of.
      rewrite Hperm. by apply first_seen_elem_of.
    + simpl. by rewrite Hperm.
  - rewrite loadTabs_groups_fresh_build. unfold fresh_build.
    apply Forall_fmap, Forall_true. intros k. split; [done|].
    apply Forall_selected_tabSummary.
Qed.

(** The example of the specification, with a parser that answers the
    hostnames of its three addresses. *)
Example loadTabs_groups_example :
  let tab n address :=
    {| chrome.id := Some n; chrome.url := Some address; chrome.title := Some "t";
       chrome.groupId := -1 |} in
  (host <$> loadTabs_groups example_URL
     [tab 1 "https://a.com/1"; tab 2 "https://b.com/1"; tab 3 "https://a.com/2"])
  = ["a.com"; "b.com"] ∧
  (fmap id ∘ tabs <$> loadTabs_groups example_URL
     [tab 1 "https://a.com/1"; tab 2 "https://b.com/1"; tab 3 "https://a.com/2"])
  = [[1; 3]; [2]].
Proof. by split. Qed.

(** ** Reconciliation *)

Section Runs.
Context {W : Type} (api : facility W).

Lemma bind_run {A B} (m : M W A) (k : A → M W B) (w : W) :
  (m ≫= k) w =
    match outcome (m w) with
    | Normal a =>
        mkRun (outcome (k a (world (m w)))) (world (k a (world (m w))))
              (issued (m w) ++ issued (k a (world (m w))))
    | Thrown => mkRun Thrown (world (m w)) (issued (m w))
    end.
Proof. reflexivity. Qed.

Lemma bind_normal {A B} (m : M W A) (k : A → M W B) (w : W) a :
  outcome (m w) = Normal a →
  outcome ((m ≫= k) w) = outcome (k a (world (m w))) ∧
  world ((m ≫= k) w) = world (k a (world (m w))) ∧
  issued ((m ≫= k) w) = issued (m w) ++ issued (k a (world (m w))).
Proof. intros H. rewrite bind_run, H. done. Qed.

Lemma for_of_app {A} (body : A → M W unit) (l1 l2 : list A) (w : W) :
  (∀ x w', outcome (body x w') = Normal tt) →
  outcome (for_of (l1 ++ l2) body w) = outcome (for_of l2 body (world (for_of l1 body w))) ∧
  world (for_of (l1 ++ l2) body w) = world (for_of l2 body (world (for_of l1 body w))) ∧
  issued (for_of (l1 ++ l2) body w) =
    issued (for_of l1 body w) ++ issued (for_of l2 body (world (for_of l1 body w))).
Proof.
  intros Hbody. revert w. induction l1 as [|x l1 IH]; intros w; [done|].
  simpl. destruct (bind_normal (body x) (λ _, for_of (l1 ++ l2) body) w tt (Hbody _ _))
    as (-> & -> & ->).
  destruct (bind_normal (body x) (λ _, for_of l1 body) w tt (Hbody _ _))
    as (_ & -> & ->).
  destruct (IH (world (body x w))) as (-> & -> & ->).
  by rewrite app_assoc.
Qed.

Lemma for_of_normal {A} (body : A → M W unit) (l : list A) (w : W) :
  (∀ x w', outcome (body x w') = Normal tt) →
  outcome (for_of l body w) = Normal tt.
Proof.
  intros Hbody. revert w. induction l as [|x l IH]; intros w; [done|].
  simpl. destruct (bind_normal (body x) (λ _, for_of l body) w tt (Hbody _ _)) as (-> & _).
  apply IH.
Qed.

(** *** The loop over the deselected tabs *)

(** One deselected tab: the three ways its iteration can go. *)
Lemma ungroupDeselected_run (tabId : Z) (w : W) :
  ungroupDeselected api tabId w =
    match api w (tabs_get tabId) with
    | (Thrown, w1) => mkRun (Normal tt) w1 [tabs_get tabId]
    | (Normal tab, w1) =>
        if negb (chrome.groupId tab =? -1)
        then mkRun (Normal tt) (api w1 (tabs_ungroup tabId)).2
                   [tabs_get tabId; tabs_ungroup tabId]
        else mkRun (Normal tt) w1 [tabs_get tabId]
    end.
Proof.
  unfold ungroupDeselected, try_catch, mbind, M_bind, bind, await, mret, M_ret, ret.
  destruct (api w (tabs_get tabId)) as [[tab|] w1]; simpl; [|done].
  destruct (negb _); simpl; [|done].
  destruct (api w1 (tabs_ungroup tabId)) as [[[]|] w2]; done.
Qed.

Lemma ungroupDeselected_normal (tabId : Z) (w : W) :
  outcome (ungroupDeselected api tabId w) = Normal tt.
Proof.
  rewrite ungroupDeselected_run.
  destruct (api w (tabs_get tabId)) as [[tab|] w1]; [|done].
  by destruct (negb _).
Qed.

Lemma ungroupDeselected_lookups (tabId : Z) (w : W) :
  List.filter is_tabs_get (issued (ungroupDeselected api tabId w)) = [tabs_get tabId].
Proof.
  rewrite ungroupDeselected_run.
  destruct (api w (tabs_get tabId)) as [[tab|] w1]; [|done].
  by destruct (negb _).
Qed.
End Runs.

Section Reconciliation.
Context {W : Type} (api : facility W).

Lemma ungroupPhase_loop (group : GroupSuggestion) (w : W) :
  ungroupPhase api group w = for_of (unselectedTabIds group) (ungroupDeselected api) w.
Proof.
  unfold ungroupPhase. by destruct (unselectedTabIds group).
Qed.

Lemma ungroup_loop_lookups (tabIds : list Z) (w : W) :
  List.filter is_tabs_get (issued (for_of tabIds (ungroupDeselected api) w))
  = tabs_get <$> tabIds.
Proof.
  revert w. induction tabIds as [|tabId tabIds IH]; intros w; [done|].
  simpl.
  destruct (bind_normal (ungroupDeselected api tabId)
              (λ _, for_of tabIds (ungroupDeselected api)) w tt
              (ungroupDeselected_normal api _ _)) as (_ & _ & ->).
  by rewrite List.filter_app, ungroupDeselected_lookups, IH.
Qed.

Lemma organizeGroup_phases (group : GroupSuggestion) (w : W) :
  let r1 := ungroupPhase api group w in
  let r2 := groupPhase api group (world r1) in
  outcome r1 = Normal tt ∧
  outcome (organizeGroup api group w) = outcome r2 ∧
  world (organizeGroup api group w) = world r2 ∧
  issued (organizeGroup api group w) = issued r1 ++ issued r2.
Proof.
  assert (outcome (ungroupPhase api group w) = Normal tt) as H.
  { rewrite ungroupPhase_loop. apply for_of_normal, ungroupDeselected_normal. }
  split; [done|]. exact (bind_normal _ (λ _, groupPhase api group) w tt H).
Qed.

(** C7. Whatever the browser answers for a deselected tab, the loop over the
    deselected tabs ends normally and looks up every one of them in order; a
    tab whose lookup is rejected gets no other call, a tab found in a group
    gets its ungroup call, and the iteration ends normally whether or not
    that call is rejected; the iterations after a tab start from the state
    its iteration left; and the rest of the suggestion, and the suggestions
    after it, are processed as soon as the part for the selected tabs ends
    normally. *)
Theorem deselected_failures_are_skipped (group : GroupSuggestion) (w : W) :
  outcome (ungroupPhase api group w) = Normal tt ∧
  List.filter is_tabs_get (issued (ungroupPhase api group w))
    = tabs_get <$> unselectedTabIds group ∧
  (∀ before tabId after, unselectedTabIds group = before ++ tabId :: after →
     let reached := world (for_of before (ungroupDeselected api) w) in
     let this := ungroupDeselected api tabId reached in
     outcome this = Normal tt ∧
     issued this =
       match (api reached (tabs_get tabId)).1 with
       | Normal tab =>
           if negb (chrome.groupId tab =? -1)
           then [tabs_get tabId; tabs_ungroup tabId]
           else [tabs_get tabId]
       | Thrown => [tabs_get tabId]
       end ∧
     issued (ungroupPhase api group w) =
       issued (for_of before (ungroupDeselected api) w) ++ issued this
       ++ issued (for_of after (ungroupDeselected api) (world this)) ∧
     world (ungroupPhase api group w) =
       world (for_of after (ungroupDeselected api) (world this))) ∧
  outcome (organizeGroup api group w)
    = outcome (groupPhase api group (world (ungroupPhase api group w))) ∧
  issued (organizeGroup api group w)
    = issued (ungroupPhase api group w)
      ++ issued (groupPhase api group (world (ungroupPhase api group w))) ∧
  (∀ later, outcome (organizeGroup api group w) = Normal tt →
     outcome (reconcile api (group :: later) w)
       = outcome (reconcile api later (world (organizeGroup api group w))) ∧
     issued (reconcile api (group :: later) w)
       = issued (organizeGroup api group w)
         ++ issued (reconcile api later (world (organizeGroup api group w)))).
Proof.
  destruct (organizeGroup_phases group w) as (Hn & Ho & Hw & Hi).
  split; [done|]. split.
  { rewrite ungroupPhase_loop. apply ungroup_loop_lookups. }
  split; [|split; [done|split; [done|]]].
  - intros before tabId after Heq. simpl.
    split; [apply ungroupDeselected_normal|]. split.
    + rewrite ungroupDeselected_run.
      destruct (api _ (tabs_get tabId)) as [[tab|] w1]; simpl; [|done].
      by destruct (negb _).
    + rewrite ungroupPhase_loop, Heq.
      destruct (for_of_app (ungroupDeselected api) before (tabId :: after) w
                  (ungroupDeselected_normal api)) as (_ & -> & ->).
      simpl.
      destruct (bind_normal (ungroupDeselected api tabId)
                  (λ _, for_of after (ungroupDeselected api))
                  (world (for_of before (ungroupDeselected api) w)) tt
                  (ungroupDeselected_normal api _ _)) as (_ & -> & ->).
      done.
  - intros later Hok. unfold reconcile. simpl.
    destruct (bind_normal (organizeGroup api group)
                (λ _, for_of later (organizeGroup api)) w tt Hok) as (-> & _ & ->).
    done.
Qed.
End Reconciliation.

Lemma filter_none {A} (p q : A → bool) (l : list A) :
  (∀ x, p x = true → q x = false) → forallb p l = true → List.filter q l = [].
Proof.
  intros Hpq. induction l as [|x l IH]; simpl; [done|].
  intros [Hx Hl]%andb_true_iff. by rewrite (Hpq _ Hx), IH.
Qed.

Section GroupPhase.
Context {W : Type} (api : facility W).

Lemma ungroup_loop_calls (tabIds : list Z) (w : W) :
  forallb is_get_or_ungroup (issued (for_of tabIds (ungroupDeselected api) w)) = true.
Proof.
  revert w. induction tabIds as [|tabId tabIds IH]; intros w; [done|].
  simpl.
  destruct (bind_normal (ungroupDeselected api tabId)
              (λ _, for_of tabIds (ungroupDeselected api)) w tt
              (ungroupDeselected_normal api _ _)) as (_ & _ & ->).
  rewrite forallb_app, IH, andb_true_r, ungroupDeselected_run.
  destruct (api w (tabs_get tabId)) as [[tab|] w1]; [|done].
  by destruct (negb _).
Qed.

(** The scan of the selected tabs never raises and issues lookups only.  It
    stops at the first tab found in a group, provided the lookup of that
    group is answered. *)
Lemma findExistingGroup_run (tabIds : list Z) (existing : option Z) (wasCollapsed : bool) (w : W) :
  let r := findExistingGroup api tabIds existing wasCollapsed w in
  (∃ found, outcome r = Normal found) ∧
  forallb is_lookup (issued r) = true ∧
  match first_grouped api tabIds w with
  | None => outcome r = Normal (existing, wasCollapsed)
  | Some (groupId, w1) =>
      match api w1 (tabGroups_get groupId) with
      | (Normal groupInfo, w2) =>
          outcome r = Normal (Some groupId, chrome.collapsed groupInfo) ∧ world r = w2
      | (Thrown, _) => True
      end
  end.
Proof.
  revert existing wasCollapsed w.
  induction tabIds as [|tabId rest IH]; intros existing wasCollapsed w.
  { simpl. split; [by eexists|]. done. }
  simpl. unfold mbind, M_bind, bind, attempt, await.
  destruct (api w (tabs_get tabId)) as [[tab|] w1]; simpl.
  - destruct (negb (chrome.groupId tab =? -1)); simpl.
    + destruct (api w1 (tabGroups_get (chrome.groupId tab))) as [[groupInfo|] w2]; simpl.
      * split; [by eexists|]. split; [done|]. by rewrite orb_false_r.
      * destruct (IH (Some (chrome.groupId tab)) wasCollapsed w2) as (Hn & Hl & _).
        split; [exact Hn|]. split; [|done]. exact Hl.
    + destruct (IH existing wasCollapsed w1) as (Hn & Hl & Hf).
      split; [exact Hn|]. split; [exact Hl|]. exact Hf.
  - destruct (IH existing wasCollapsed w1) as (Hn & Hl & Hf).
    split; [exact Hn|]. split; [exact Hl|]. exact Hf.
Qed.

(** Joining a group that exists: one membership query, then at most one
    [chrome.tabs.group] call, for the selected tabs the query did not list. *)
Lemma joinGroup_existing_run (groupId : Z) (selected : list Z) (w : W) :
  joinGroup api (Some groupId) selected w =
    match api w (tabs_query_groupId groupId) with
    | (Thrown, w1) => mkRun Thrown w1 [tabs_query_groupId groupId]
    | (Normal members, w1) =>
        match not_yet_members members selected with
        | [] => mkRun (Normal groupId) w1 [tabs_query_groupId groupId]
        | tabsToAdd =>
            match api w1 (tabs_group (Some groupId) tabsToAdd) with
            | (Normal _, w2) =>
                mkRun (Normal groupId) w2
                  [tabs_query_groupId groupId; tabs_group (Some groupId) tabsToAdd]
            | (Thrown, w2) =>
                mkRun Thrown w2
                  [tabs_query_groupId groupId; tabs_group (Some groupId) tabsToAdd]
            end
        end
    end.
Proof.
  unfold joinGroup, mbind, M_bind, bind, await, mret, M_ret, ret, not_yet_members.
  destruct (api w (tabs_query_groupId groupId)) as [[members|] w1]; simpl; [|done].
  destruct (List.filter _ selected) as [|tabId tabsToAdd]; simpl; [done|].
  destruct (api w1 (tabs_group (Some groupId) (tabId :: tabsToAdd))) as [[g|] w2]; done.
Qed.

Lemma joinGroup_new_run (selected : list Z) (w : W) :
  joinGroup api None selected w =
    mkRun (api w (tabs_group None selected)).1 (api w (tabs_group None selected)).2
          [tabs_group None selected].
Proof. unfold joinGroup, await. by destruct (api w (tabs_group None selected)). Qed.
End GroupPhase.

Section GroupPhaseClaims.
Context {W : Type} (api : facility W).

Lemma groupPhase_run (group : GroupSuggestion) (w : W) :
  selectedTabIds group ≠ [] →
  groupPhase api group w =
    let scan := findExistingGroup api (selectedTabIds group) None false w in
    match outcome scan with
    | Normal (existing, wasCollapsed) =>
        let join := joinGroup api existing (selectedTabIds group) (world scan) in
        match outcome join with
        | Normal groupId =>
            let update :=
              await api (tabGroups_update groupId
                           (or_else (customName group) (host group)) "grey" wasCollapsed)
                    (world join) in
            mkRun (outcome update) (world update)
                  (issued scan ++ issued join ++ issued update)
        | Thrown => mkRun Thrown (world join) (issued scan ++ issued join)
        end
    | Thrown => mkRun Thrown (world scan) (issued scan)
    end.
Proof.
  intros Hsel. unfold groupPhase.
  destruct (selectedTabIds group) as [|tabId rest] eqn:Heq; [done|].
  change ((0 <? length (tabId :: rest))%nat) with true. cbv iota. rewrite bind_run.
  destruct (outcome (findExistingGroup api (tabId :: rest) None false w))
    as [[existing wasCollapsed]|]; [|done].
  rewrite bind_run. by destruct (outcome (joinGroup api existing (tabId :: rest) _)).
Qed.

Lemma groupPhase_nothing_selected (group : GroupSuggestion) (w : W) :
  selectedTabIds group = [] → groupPhase api group w = mkRun (Normal tt) w [].
Proof. intros Hsel. unfold groupPhase. by rewrite Hsel. Qed.

Lemma ungroupPhase_no_group_call (group : GroupSuggestion) (w : W) :
  List.filter is_group_or_update (issued (ungroupPhase api group w)) = [] ∧
  List.filter is_tabs_group (issued (ungroupPhase api group w)) = [] ∧
  List.filter is_update (issued (ungroupPhase api group w)) = [].
Proof.
  rewrite ungroupPhase_loop.
  repeat split; (eapply filter_none; [|apply ungroup_loop_calls]); by intros [].
Qed.

Lemma await_issued (c : call) (w : W) : issued (await api c w) = [c].
Proof. unfold await. by destruct (api w c). Qed.

Lemma not_yet_members_spec (members : list chrome.Tab) (selected : list Z) (tabId : Z) :
  tabId ∈ not_yet_members members selected ↔
  tabId ∈ selected ∧ Some tabId ∉ chrome.id <$> members.
Proof.
  unfold not_yet_members. rewrite list_elem_of_In, filter_In, <- list_elem_of_In.
  apply and_iff_compat_l. rewrite negb_true_iff, <- not_true_iff_false.
  apply not_iff_compat. unfold includes. rewrite existsb_exists. split.
  - intros (x & Hin%list_elem_of_In & ->%Z.eqb_eq).
    apply list_elem_of_omap in Hin as (tab & Hin & Hid).
    apply list_elem_of_fmap. by exists tab.
  - intros (tab & Hid & Hin)%list_elem_of_fmap. exists tabId.
    split; [|apply Z.eqb_refl].
    apply list_elem_of_In, list_elem_of_omap. by exists tab.
Qed.

(** C5 (as amended). For a suggestion without selected tabs no group is
    created or updated.  Otherwise the selected ids are scanned in order for
    the first one whose lookup answers a grouped tab: if there is none, one
    new group is made of exactly the selected ids; if there is one and the
    lookup of its group is answered, that group is the target, and the only
    [chrome.tabs.group] call, if any, adds to it the selected ids absent
    from the answer of the membership query. *)
Theorem selected_tabs_join_first_group (group : GroupSuggestion) (w : W) :
  let selected := selectedTabIds group in
  let run := organizeGroup api group w in
  match selected with
  | [] => List.filter is_group_or_update (issued run) = []
  | _ :: _ =>
      match first_grouped api selected (world (ungroupPhase api group w)) with
      | None => List.filter is_tabs_group (issued run) = [tabs_group None selected]
      | Some (groupId, w1) =>
          match api w1 (tabGroups_get groupId) with
          | (Thrown, _) => True
          | (Normal _, w2) =>
              match api w2 (tabs_query_groupId groupId) with
              | (Thrown, _) => List.filter is_group_or_update (issued run) = []
              | (Normal members, _) =>
                  List.filter is_tabs_group (issued run) =
                    match not_yet_members members selected with
                    | [] => []
                    | tabsToAdd => [tabs_group (Some groupId) tabsToAdd]
                    end ∧
                  ∀ tabId, tabId ∈ not_yet_members members selected ↔
                           tabId ∈ selected ∧ Some tabId ∉ chrome.id <$> members
              end
          end
      end
  end.
Proof.
  simpl. destruct (organizeGroup_phases api group w) as (_ & _ & _ & ->).
  destruct (ungroupPhase_no_group_call group w) as (Hgu & Hg & Hu).
  set (w0 := world (ungroupPhase api group w)).
  destruct (selectedTabIds group) as [|tabId rest] eqn:Hsel.
  { rewrite groupPhase_nothing_selected by done. by rewrite List.filter_app, Hgu. }
  rewrite groupPhase_run by (rewrite Hsel; done). rewrite Hsel. cbv zeta.
  destruct (findExistingGroup_run api (tabId :: rest) None false w0) as (_ & Hl & Hf).
  assert (List.filter is_tabs_group
            (issued (findExistingGroup api (tabId :: rest) None false w0)) = []) as Hs1
    by (eapply filter_none; [|exact Hl]; by intros []).
  assert (List.filter is_group_or_update
            (issued (findExistingGroup api (tabId :: rest) None false w0)) = []) as Hs2
    by (eapply filter_none; [|exact Hl]; by intros []).
  remember (findExistingGroup api (tabId :: rest) None false w0) as scan eqn:Hscan.
  clear Hscan.
  destruct (first_grouped api (tabId :: rest) w0) as [[groupId w1]|].
  - destruct (api w1 (tabGroups_get groupId)) as [[groupInfo|] w2]; [|done].
    destruct Hf as [-> ->]. rewrite joinGroup_existing_run.
    destruct (api w2 (tabs_query_groupId groupId)) as [[members|] w3]; cbv beta iota.
    + split; [|intros t; exact (not_yet_members_spec members (tabId :: rest) t)].
      destruct (not_yet_members members (tabId :: rest)) as [|t ts]; cbv beta iota zeta.
      * simpl. unfold await.
        destruct (api w3 (tabGroups_update _ _ _ _)) as [[[]|] w4]; simpl;
          by rewrite !List.filter_app, Hg, Hs1.
      * destruct (api w3 (tabs_group (Some groupId) (t :: ts))) as [[g|] w4]; simpl.
        -- unfold await.
           destruct (api w4 (tabGroups_update _ _ _ _)) as [[[]|] w5]; simpl;
             by rewrite !List.filter_app, Hg, Hs1.
        -- by rewrite !List.filter_app, Hg, Hs1.
    + simpl. by rewrite !List.filter_app, Hgu, Hs2.
  - rewrite Hf, joinGroup_new_run. cbn [outcome world issued].
    destruct (api _ (tabs_group None (tabId :: rest))) as [[g|] w2]; simpl.
    + unfold await.
      destruct (api w2 (tabGroups_update _ _ _ _)) as [[[]|] w3]; simpl;
        by rewrite !List.filter_app, Hg, Hs1.
    + by rewrite !List.filter_app, Hg, Hs1.
Qed.
End GroupPhaseClaims.

Section Collapsed.
Context {W : Type} (api : facility W).

(** Every [chrome.tabGroups.update] issued for a suggestion carries, as
    [collapsed], the value answered by the lookup of the adopted group, and
    [false] for a group just created. *)
Lemma update_call_collapsed (group : GroupSuggestion) (w : W) (c : call) :
  selectedTabIds group ≠ [] →
  c ∈ issued (organizeGroup api group w) →
  is_update c = true →
  match first_grouped api (selectedTabIds group) (world (ungroupPhase api group w)) with
  | Some (groupId, w1) =>
      match api w1 (tabGroups_get groupId) with
      | (Normal groupInfo, _) =>
          c = tabGroups_update groupId (group_title_of group) "grey"
                (chrome.collapsed groupInfo)
      | (Thrown, _) => True
      end
  | None => ∃ groupId, c = tabGroups_update groupId (group_title_of group) "grey" false
  end.
Proof.
  intros Hsel Hin Hc.
  assert (c ∈ List.filter is_update (issued (organizeGroup api group w))) as Hin'.
  { apply list_elem_of_In, filter_In. split; [by apply list_elem_of_In|done]. }
  clear Hin Hc. revert Hin'.
  destruct (organizeGroup_phases api group w) as (_ & _ & _ & ->).
  destruct (ungroupPhase_no_group_call api group w) as (_ & _ & Hu).
  rewrite List.filter_app, Hu, app_nil_l. clear Hu.
  set (w0 := world (ungroupPhase api group w)).
  rewrite groupPhase_run by done. cbv zeta.
  destruct (findExistingGroup_run api (selectedTabIds group) None false w0) as (_ & Hl & Hf).
  assert (List.filter is_update
            (issued (findExistingGroup api (selectedTabIds group) None false w0)) = []) as Hs
    by (eapply filter_none; [|exact Hl]; by intros []).
  remember (findExistingGroup api (selectedTabIds group) None false w0) as scan eqn:Hscan.
  clear Hscan Hl. unfold group_title_of.
  destruct (first_grouped api (selectedTabIds group) w0) as [[groupId w1]|].
  - destruct (api w1 (tabGroups_get groupId)) as [[groupInfo|] w2]; [|done].
    destruct Hf as [-> ->]. rewrite joinGroup_existing_run.
    destruct (api w2 (tabs_query_groupId groupId)) as [[members|] w3]; cbv beta iota.
    + destruct (not_yet_members members (selectedTabIds group)) as [|t ts];
        cbv beta iota zeta.
      * simpl. unfold await.
        destruct (api w3 (tabGroups_update _ _ _ _)) as [[[]|] w4]; simpl;
          rewrite !List.filter_app, Hs; simpl; by intros ->%list_elem_of_singleton.
      * destruct (api w3 (tabs_group (Some groupId) (t :: ts))) as [[g|] w4]; simpl.
        -- unfold await.
           destruct (api w4 (tabGroups_update _ _ _ _)) as [[[]|] w5]; simpl;
             rewrite !List.filter_app, Hs; simpl; by intros ->%list_elem_of_singleton.
        -- rewrite !List.filter_app, Hs. simpl. by intros ?%not_elem_of_nil.
    + simpl. rewrite !List.filter_app, Hs. simpl. by intros ?%not_elem_of_nil.
  - rewrite Hf, joinGroup_new_run. cbn [outcome world issued].
    destruct (api _ (tabs_group None (selectedTabIds group))) as [[g|] w2]; simpl.
    + unfold await.
      destruct (api w2 (tabGroups_update _ _ _ _)) as [[[]|] w3]; simpl;
        rewrite !List.filter_app, Hs; simpl; intros ->%list_elem_of_singleton; by eexists.
    + rewrite !List.filter_app, Hs. simpl. by intros ?%not_elem_of_nil.
Qed.

(** A suggestion with selected tabs that is processed to its end has had its
    group updated. *)
Lemma update_call_issued (group : GroupSuggestion) (w : W) :
  selectedTabIds group ≠ [] →
  outcome (organizeGroup api group w) = Normal tt →
  ∃ c, c ∈ issued (organizeGroup api group w) ∧ is_update c = true.
Proof.
  intros Hsel. destruct (organizeGroup_phases api group w) as (_ & -> & _ & ->).
  rewrite groupPhase_run by done. cbv zeta.
  destruct (outcome (findExistingGroup api _ None false _)) as [[existing wasCollapsed]|];
    [|done].
  destruct (outcome (joinGroup api existing _ _)) as [groupId|]; [|done].
  intros _.
  exists (tabGroups_update groupId (or_else (customName group) (host group)) "grey"
            wasCollapsed).
  split; [|reflexivity]. cbn [issued].
  rewrite await_issued, !elem_of_app, list_elem_of_singleton. eauto.
Qed.
End Collapsed.

(** ** Resync and the outcome of [handleOrganizeTabs] *)

Section JsMapValues.
Context {K V : Type} `{EqDecision K} (P : V → Prop).

Lemma Map_update_Forall (m : JsMap K V) k f :
  Forall (λ e, P e.2) m → (∀ v, P v → P (f v)) → Forall (λ e, P e.2) (Map_update m k f).
Proof.
  intros Hm Hf. induction Hm as [|[k' v'] m Hx Hm IH]; simpl; [done|].
  case_decide; constructor; try done. by apply Hf.
Qed.

(** A [set] followed by the mutation of the stored object. *)
Lemma Map_set_update_Forall (m : JsMap K V) k v f :
  Forall (λ e, P e.2) m → P (f v) → Forall (λ e, P e.2) (Map_update (Map_set m k v) k f).
Proof.
  intros Hm Hv. induction Hm as [|[k' v'] m Hx Hm IH]; simpl.
  - rewrite decide_True by done. by repeat constructor.
  - destruct (decide (k' = k)) as [->|Hne]; simpl.
    + rewrite decide_True by done. by constructor.
    + rewrite decide_False by done. by constructor.
Qed.
End JsMapValues.

Lemma bucket_ok_push (l : list TabSummary) (tab : chrome.Tab) :
  all_tabs_selected l → bucket_ok (l ++ [tabSummary tab]).
Proof.
  intros H. split.
  - apply Forall_app. split; [done|]. by repeat constructor.
  - by destruct l.
Qed.

Lemma hostMap_push_ok hostMap host (tab : chrome.Tab) :
  Forall (λ e, bucket_ok e.2) hostMap →
  Forall (λ e, bucket_ok e.2) (hostMap_push hostMap host (tabSummary tab)).
Proof.
  intros H. unfold hostMap_push. destruct (Map_has hostMap host).
  - apply (Map_update_Forall bucket_ok); [done|].
    intros l [Hl _]. by apply bucket_ok_push.
  - apply (Map_set_update_Forall bucket_ok); [done|].
    apply bucket_ok_push. constructor.
Qed.

Section Resync.
Context (new_URL : string → completion URL) {W : Type} (api : facility W).

Lemma resync_step_run maps (tab : chrome.Tab) (w : W) :
  maps_ok maps →
  ∃ maps', outcome (resync_step new_URL api maps tab w) = Normal maps' ∧ maps_ok maps'.
Proof.
  destruct maps as [groupMap hostMap]. intros [Hg Hh]. unfold resync_step.
  destruct (actionable tab); [|by eexists].
  destruct (negb (chrome.groupId tab =? -1)).
  - unfold mbind, M_bind, bind, attempt, await, mret, M_ret, ret.
    assert (∀ name, Forall (λ e, bucket_ok e.2.2)
                      (Map_update (Map_set groupMap (chrome.groupId tab) (name, []))
                         (chrome.groupId tab)
                         (λ groupData, (groupData.1, groupData.2 ++ [tabSummary tab]))))
      as Hnew.
    { intros name. apply (Map_set_update_Forall (λ v, bucket_ok v.2)); [done|].
      apply bucket_ok_push. constructor. }
    destruct (negb (Map_has groupMap (chrome.groupId tab))); simpl.
    + destruct (api w (tabGroups_get (chrome.groupId tab))) as [[groupInfo|] w1]; simpl;
        eexists; (split; [reflexivity|]); split; simpl; auto.
    + eexists. split; [reflexivity|]. split; simpl; [|done].
      apply (Map_update_Forall (λ v, bucket_ok v.2)); [done|].
      intros v [Hv _]. by apply bucket_ok_push.
  - eexists. split; [reflexivity|]. split; simpl; [done|].
    by apply hostMap_push_ok.
Qed.

Lemma resync_loop_run (tabs : list chrome.Tab) maps (w : W) :
  maps_ok maps →
  ∃ maps', outcome (for_of_state tabs (resync_step new_URL api) maps w) = Normal maps' ∧
           maps_ok maps'.
Proof.
  revert maps w. induction tabs as [|tab tabs IH]; intros maps w Hm.
  { by exists maps. }
  simpl. destruct (resync_step_run maps tab w Hm) as (maps1 & H1 & Hm1).
  destruct (bind_normal _ (λ maps', for_of_state tabs (resync_step new_URL api) maps')
              w maps1 H1) as (-> & _).
  by apply IH.
Qed.

Lemma newGroups_well_formed maps :
  maps_ok maps → Forall well_formed (newGroups maps).
Proof.
  intros [Hg Hh]. unfold newGroups, hostGroups. apply Forall_app. split.
  - apply Forall_fmap. eapply Forall_impl; [exact Hg|].
    intros [gid [name ts]] [Hs Hne]. by repeat split.
  - apply Forall_fmap. eapply Forall_impl; [exact Hh|].
    intros [h ts] [Hs Hne]. by repeat split.
Qed.

(** The rebuilding raises exactly when the listing query is rejected, and
    otherwise yields an array of fully selected groups, none of them
    empty. *)
Lemma resync_run (w : W) :
  match (api w tabs_query_currentWindow).1 with
  | Thrown => outcome (resync new_URL api w) = Thrown
  | Normal _ => ∃ groups', outcome (resync new_URL api w) = Normal groups' ∧
                           Forall well_formed groups'
  end.
Proof.
  unfold resync, mbind, M_bind, bind, await.
  destruct (api w tabs_query_currentWindow) as [[tabs|] w1]; simpl; [|done].
  destruct (resync_loop_run (filterTabs tabs) ([], []) w1) as (maps & Hmaps & Hsel).
  { split; constructor. }
  rewrite Hmaps. simpl.
  eexists. split; [reflexivity|]. by apply newGroups_well_formed.
Qed.

Lemma organize_body_well_formed (groups newGroups : list GroupSuggestion) (w : W) :
  outcome (organize_body new_URL api groups w) = Normal newGroups →
  Forall well_formed newGroups.
Proof.
  unfold organize_body. rewrite bind_run.
  destruct (outcome (reconcile api groups w)) as [[]|]; simpl; [|done].
  pose proof (resync_run (world (reconcile api groups w))) as Hr.
  destruct (api _ tabs_query_currentWindow) as [[tabs|] w1]; simpl in *.
  - destruct Hr as (groups' & -> & Hall). by intros [= <-].
  - by rewrite Hr.
Qed.
End Resync.

(** C5 (as stated) fails when the group of the first grouped tab is dissolved
    between the lookup of the tab and the lookup of the group: tab 1 is the
    first selected tab found in a group, group 5, yet the target is group 7,
    the group of tab 2, to which tab 1 is then added. *)
Lemma first_group_not_adopted_when_dissolved :
  let group := two_tab_group true true true in
  let w := (two_groups_window, [[user_ungroups 1]]) in
  selectedTabIds group = [1; 2] ∧
  fst <$> first_grouped live_browser (selectedTabIds group)
            (world (ungroupPhase live_browser group w)) = Some 5 ∧
  issued (organizeGroup live_browser group w)
    = [ tabs_get 1; tabGroups_get 5; tabs_get 2; tabGroups_get 7;
        tabs_query_groupId 7; tabs_group (Some 7) [1];
        tabGroups_update 7 "a.com" "grey" false ].
Proof. vm_compute. by repeat split. Qed.

(** The same slip with a single selected tab: its group is dissolved after
    the tab was looked up, the dissolved group stays the target, and the
    attempt to add the tab to it ends the run, where a tab outside every
    group would have got a new group. *)
Lemma dissolved_group_stays_target :
  let w := (one_group_window, [[user_ungroups 1]]) in
  outcome (organizeGroup live_browser one_tab_group w) = Thrown ∧
  issued (organizeGroup live_browser one_tab_group w)
    = [ tabs_get 1; tabGroups_get 5; tabs_query_groupId 5; tabs_group (Some 5) [1] ] ∧
  chrome.groupId <$> open_tabs (world (organizeGroup live_browser one_tab_group w)).1 = [-1].
Proof. vm_compute. by repeat split. Qed.

Lemma deselected_failures_are_skipped_witness :
  let group := two_tab_group false false false in
  is_thrown (browser closed_tab_window (tabs_get 1)).1 = true ∧
  outcome (ungroupPhase browser group closed_tab_window) = Normal tt ∧
  issued (ungroupPhase browser group closed_tab_window)
    = [tabs_get 1; tabs_get 2; tabs_ungroup 2].
Proof.
  destruct (deselected_failures_are_skipped browser (two_tab_group false false false)
              closed_tab_window) as (Hn & _ & Hloop & _).
  destruct (Hloop [] 1 [2] eq_refl) as (_ & Hone & Hissued & _).
  split; [reflexivity|]. split; [exact Hn|].
  rewrite Hissued, Hone. reflexivity.
Defined.

Section Organize.
Context (new_URL : string → completion URL) {W : Type} (api : facility W).

(** C8. [handleOrganizeTabs] never raises.  When its [try] block raises, the
    model and the [organized] flag are what they were and a failure notice
    is shown; the model is replaced, by the rebuilt array, only when the
    block ends normally.  The block raises exactly when the reconciliation
    loop raises or the listing query of the resync is rejected. *)
Theorem handleOrganizeTabs_all_or_nothing (state : AppState) (w : W) :
  let body := organize_body new_URL api (groups state) w in
  let r := handleOrganizeTabs new_URL api state w in
  world r = world body ∧ issued r = issued body ∧
  match outcome body with
  | Thrown =>
      outcome r = Normal {| groups := groups state; organized := organized state;
                            alerts := alerts state ++ [failure_notice] |}
  | Normal newGroups =>
      outcome r = Normal {| groups := newGroups; organized := true;
                            alerts := alerts state |}
  end ∧
  (outcome body = Thrown ↔
     outcome (reconcile api (groups state) w) = Thrown ∨
     is_thrown (api (world (reconcile api (groups state) w)) tabs_query_currentWindow).1
       = true).
Proof.
  simpl. unfold handleOrganizeTabs, try_catch. rewrite bind_run.
  split; [|split; [|split]].
  - destruct (outcome (organize_body _ _ _ _)); simpl; [|done]. done.
  - destruct (outcome (organize_body _ _ _ _)); simpl; by rewrite app_nil_r.
  - by destruct (outcome (organize_body _ _ _ _)).
  - unfold organize_body. rewrite bind_run.
    destruct (outcome (reconcile api (groups state) w)) as [[]|]; simpl; [|by split; auto].
    pose proof (resync_run new_URL api (world (reconcile api (groups state) w))) as Hr.
    destruct (api _ tabs_query_currentWindow) as [[tabs|] w1]; simpl in *.
    + destruct Hr as (groups' & -> & _). split; [done|]. by intros [|].
    + rewrite Hr. split; auto.
Qed.

(** C9. When the [try] block ends normally, the model that replaces the old
    one has every tab and every group selected, whatever the old model and
    whatever the browser answered. *)
Theorem resync_selects_everything (state : AppState) (w : W) (newGroups : list GroupSuggestion) :
  outcome (organize_body new_URL api (groups state) w) = Normal newGroups →
  outcome (handleOrganizeTabs new_URL api state w)
    = Normal {| groups := newGroups; organized := true; alerts := alerts state |} ∧
  Forall (λ group, groupSelected group = true ∧
                   Forall (λ tab, selected tab = true) (tabs group)) newGroups.
Proof.
  intros Hbody. split.
  - unfold handleOrganizeTabs, try_catch. rewrite bind_run, Hbody. done.
  - eapply Forall_impl; [by eapply organize_body_well_formed|]. by intros g [Hg _].
Qed.
End Organize.

Lemma resync_selects_everything_witness :
  let state := {| groups := [two_tab_group true false false]; organized := false;
                  alerts := [] |} in
  ∃ newGroups,
    outcome (organize_body example_URL browser (groups state) two_groups_window)
      = Normal newGroups ∧
    (fmap selected ∘ tabs <$> newGroups) = [[true]; [true]] ∧
    Forall (λ group, groupSelected group = true ∧
                     Forall (λ tab, selected tab = true) (tabs group)) newGroups.
Proof.
  eexists. split; [vm_compute; reflexivity|]. split; [reflexivity|].
  eapply (resync_selects_everything example_URL browser
            {| groups := [two_tab_group true false false]; organized := false;
               alerts := [] |} two_groups_window).
  vm_compute. reflexivity.
Defined.

(** A failing run: the only selected tab was closed, so the creation of its
    group is rejected; the model is the one before the call. *)
Lemma handleOrganizeTabs_all_or_nothing_witness :
  let state := {| groups := [two_tab_group true false false]; organized := false;
                  alerts := [] |} in
  outcome (organize_body example_URL browser (groups state) closed_tab_window) = Thrown ∧
  outcome (handleOrganizeTabs example_URL browser state closed_tab_window)
    = Normal {| groups := groups state; organized := false;
                alerts := [failure_notice] |}.
Proof.
  pose proof (handleOrganizeTabs_all_or_nothing example_URL browser
                {| groups := [two_tab_group true false false]; organized := false;
                   alerts := [] |} closed_tab_window) as (_ & _ & H & _).
  split; [vm_compute; reflexivity|]. exact H.
Defined.

(** ** The models the component can hold *)

Lemma all_selected_consistent g : all_selected g → group_consistent g.
Proof.
  intros [Hg Ht]. unfold group_consistent. rewrite Hg. symmetry.
  apply forallb_forall. intros tab Hin%list_elem_of_In.
  rewrite Forall_forall in Ht. by apply Ht.
Qed.

Lemma toggleGroup_inv (groups groups' : list GroupSuggestion) groupIndex :
  toggleGroup groupIndex groups = Some groups' →
  ∃ group, groups !! groupIndex = Some group ∧
    groups' = <[groupIndex :=
                 {| host := host group;
                    tabs := with_selected (negb (groupSelected group)) <$> tabs group;
                    groupSelected := negb (groupSelected group);
                    customName := customName group |}]> groups.
Proof.
  unfold toggleGroup. destruct (groups !! groupIndex) as [group|]; [|done].
  intros [= <-]. by exists group.
Qed.

Lemma toggleTab_inv (groups groups' : list GroupSuggestion) groupIndex tabIndex :
  toggleTab groupIndex tabIndex groups = Some groups' →
  ∃ group tab, groups !! groupIndex = Some group ∧ tabs group !! tabIndex = Some tab ∧
    groups' = <[groupIndex :=
                 {| host := host group;
                    tabs := <[tabIndex := with_selected (negb (selected tab)) tab]> (tabs group);
                    groupSelected :=
                      forallb selected
                        (<[tabIndex := with_selected (negb (selected tab)) tab]> (tabs group));
                    customName := customName group |}]> groups.
Proof.
  unfold toggleTab. destruct (groups !! groupIndex) as [group|]; [|done]. simpl.
  destruct (tabs group !! tabIndex) as [tab|] eqn:Htab; [|done]. simpl.
  intros [= <-]. exists group, tab. by rewrite Htab.
Qed.

Lemma updateGroupName_inv (groups groups' : list GroupSuggestion) groupIndex newName :
  updateGroupName groupIndex newName groups = Some groups' →
  ∃ group, groups !! groupIndex = Some group ∧
    groups' = <[groupIndex :=
                 {| host := host group; tabs := tabs group;
                    groupSelected := groupSelected group;
                    customName := Some newName |}]> groups.
Proof.
  unfold updateGroupName. destruct (groups !! groupIndex) as [group|]; [|done].
  intros [= <-]. by exists group.
Qed.

Lemma Forall_insert_lookup {A} (P : A → Prop) (l : list A) i x y :
  Forall P l → l !! i = Some x → P y → Forall P (<[i := y]> l).
Proof.
  intros Hl Hx Hy. rewrite Forall_lookup in *. intros j z Hj.
  destruct (decide (i = j)) as [->|Hne].
  - apply list_lookup_insert_Some in Hj as [(_ & -> & _)|(? & _)]; [done|lia].
  - rewrite list_lookup_insert_ne in Hj by done. eauto.
Qed.

Lemma loadTabs_groups_well_formed (new_URL : string → completion URL) listing :
  Forall well_formed (loadTabs_groups new_URL listing).
Proof.
  rewrite loadTabs_groups_fresh_build. unfold fresh_build.
  apply Forall_fmap, Forall_forall. intros k Hk. split.
  - split; [done|]. apply Forall_selected_tabSummary.
  - simpl. apply first_seen_elem_of, list_elem_of_fmap in Hk as (tab & -> & Hin).
    intros Hnil%fmap_nil_inv.
    assert (tab ∈ filter (λ tab', key_of new_URL tab' = key_of new_URL tab) (kept listing))
      as Hin' by by apply list_elem_of_filter.
    rewrite Hnil in Hin'. by apply not_elem_of_nil in Hin'.
Qed.

(** Every model the component can hold is consistent and has no empty
    group; the two toggles therefore keep it so at every in-range position. *)
Lemma reachable_model_invariants (new_URL : string → completion URL) {W} (api : facility W)
    (groups : list GroupSuggestion) :
  reachable_model new_URL api groups →
  model_consistent groups ∧ Forall (λ group, tabs group ≠ []) groups.
Proof.
  induction 1 as [|listing|groups i groups' _ [IHc IHn] Ht
                  |groups i j groups' _ [IHc IHn] Ht
                  |groups i name groups' _ [IHc IHn] Ht
                  |groups w groups' _ _ Hbody].
  - split; constructor.
  - pose proof (loadTabs_groups_well_formed new_URL listing) as Hwf. split.
    + eapply Forall_impl; [exact Hwf|]. intros g [Hg _]. by apply all_selected_consistent.
    + eapply Forall_impl; [exact Hwf|]. by intros g [_ Hg].
  - apply toggleGroup_inv in Ht as (group & Hg & ->).
    assert (tabs group ≠ []) as Hne by (rewrite Forall_lookup in IHn; eauto).
    split.
    + apply model_consistent_insert; [done|]. unfold group_consistent. simpl.
      by rewrite forallb_with_selected.
    + eapply Forall_insert_lookup; [done..|]. simpl. by intros ?%fmap_nil_inv.
  - apply toggleTab_inv in Ht as (group & tab & Hg & Htab & ->).
    assert (tabs group ≠ []) as Hne by (rewrite Forall_lookup in IHn; eauto).
    split.
    + by apply model_consistent_insert.
    + eapply Forall_insert_lookup; [done..|]. simpl. intros Hnil.
      apply (f_equal length) in Hnil. rewrite length_insert in Hnil.
      by destruct (tabs group).
  - apply updateGroupName_inv in Ht as (group & Hg & ->). split.
    + apply model_consistent_insert; [done|].
      unfold model_consistent in IHc. rewrite Forall_lookup in IHc. exact (IHc _ _ Hg).
    + eapply Forall_insert_lookup; [done..|]. simpl.
      rewrite Forall_lookup in IHn. exact (IHn _ _ Hg).
  - pose proof (organize_body_well_formed _ _ _ _ _ Hbody) as Hwf. split.
    + eapply Forall_impl; [exact Hwf|]. intros g [Hg _]. by apply all_selected_consistent.
    + eapply Forall_impl; [exact Hwf|]. by intros g [_ Hg].
Qed.

(** C1. On every model the component can hold, a [toggleGroup] or a
    [toggleTab] at in-range indices succeeds and leaves every group with
    [groupSelected] equal to the conjunction of the [selected] flags of its
    tabs. *)
Theorem toggle_reestablishes_group_flag (new_URL : string → completion URL) {W}
    (api : facility W) (groups : list GroupSuggestion) (groupIndex : nat) :
  reachable_model new_URL api groups →
  (groupIndex < length groups)%nat →
  (∃ groups', toggleGroup groupIndex groups = Some groups' ∧
              Forall (λ group, groupSelected group = forallb selected (tabs group)) groups') ∧
  (∀ group tabIndex,
     groups !! groupIndex = Some group → (tabIndex < length (tabs group))%nat →
     ∃ groups', toggleTab groupIndex tabIndex groups = Some groups' ∧
                Forall (λ group, groupSelected group = forallb selected (tabs group)) groups').
Proof.
  intros Hreach [group Hg]%lookup_lt_is_Some_2. split.
  - eexists. split; [by apply toggleGroup_eq|].
    eapply (reachable_model_invariants new_URL api), reach_toggleGroup; [exact Hreach|].
    by apply toggleGroup_eq.
  - intros group' tabIndex Hg' [tab Ht]%lookup_lt_is_Some_2.
    eexists. split; [by eapply toggleTab_eq|].
    eapply (reachable_model_invariants new_URL api), reach_toggleTab; [exact Hreach|].
    by eapply toggleTab_eq.
Qed.

(** The model loaded from the example window, after one tab of its first
    group has been deselected. *)
Lemma toggle_reestablishes_group_flag_witness :
  ∃ groups,
    toggleTab 0 0 (loadTabs_groups example_URL (open_tabs scenario_window)) = Some groups ∧
    (selected <$> tabs (default (two_tab_group true true true) (head groups)))
      = [false; true] ∧
    (∃ groups', toggleGroup 0 groups = Some groups' ∧
                Forall (λ group, groupSelected group = forallb selected (tabs group))
                       groups') ∧
    (∃ groups', toggleTab 0 1 groups = Some groups' ∧
                Forall (λ group, groupSelected group = forallb selected (tabs group))
                       groups').
Proof.
  eexists. split; [vm_compute; reflexivity|]. split; [reflexivity|].
  edestruct (toggle_reestablishes_group_flag example_URL browser _ 0
               (reach_toggleTab example_URL browser _ 0 0 _
                  (reach_loadTabs example_URL browser (open_tabs scenario_window))
                  eq_refl)) as [HG HT].
  { simpl. lia. }
  split; [exact HG|]. eapply HT; [reflexivity|simpl; lia].
Defined.

(** ** The reference browser keeps the collapsed state of its groups *)

Section JsMapGet.
Context {V : Type}.
Implicit Types (m : JsMap Z V).

Lemma Map_get_filter_key m (p : Z → bool) k :
  Map_get (List.filter (λ e, p e.1) m) k = if p k then Map_get m k else None.
Proof.
  induction m as [|[k' v] m IH]; simpl; [by destruct (p k)|].
  destruct (p k') eqn:Hp; simpl.
  - case_decide as Hk; [subst; by rewrite Hp|done].
  - case_decide as Hk; [subst; by rewrite Hp in IH |- *|done].
Qed.

Lemma Map_get_set m k v k' :
  Map_get (Map_set m k v) k' = if decide (k = k') then Some v else Map_get m k'.
Proof.
  induction m as [|[k0 v0] m IH]; simpl.
  - by repeat case_decide.
  - destruct (decide (k0 = k)) as [->|Hne]; simpl.
    + by repeat case_decide.
    + rewrite IH. repeat case_decide; congruence.
Qed.

Lemma Map_has_get m k : Map_has m k = true ↔ is_Some (Map_get m k).
Proof.
  unfold Map_has. induction m as [|[k' v] m IH]; simpl.
  - split; [done|by intros [? ?]].
  - case_decide as Hk.
    + rewrite bool_decide_eq_true_2 by done. simpl. split; [by eexists|done].
    + rewrite bool_decide_eq_false_2 by done. simpl. exact IH.
Qed.

Lemma Map_get_Forall_key m (P : Z → Prop) k v :
  Forall (λ e, P e.1) m → Map_get m k = Some v → P k.
Proof.
  induction 1 as [|[k' v'] m Hx _ IH]; simpl; [done|].
  case_decide; [by subst|done].
Qed.

Lemma Map_set_Forall_key m (P : Z → Prop) k v :
  Forall (λ e, P e.1) m → P k → Forall (λ e, P e.1) (Map_set m k v).
Proof.
  induction 1 as [|[k' v'] m Hx Hm IH]; simpl; intros Hk.
  - by repeat constructor.
  - case_decide; constructor; auto.
Qed.
End JsMapGet.

Lemma collapsed_kept_refl b : browser_wf b → collapsed_kept b b.
Proof. intros Hwf. split; [lia|]. split; [done|]. intros g group' Hg. left. by exists group'. Qed.

Lemma collapsed_kept_trans b1 b2 b3 :
  collapsed_kept b1 b2 → collapsed_kept b2 b3 → collapsed_kept b1 b3.
Proof.
  intros (Hn12 & Hwf2 & H12) (Hn23 & Hwf3 & H23).
  split; [lia|]. split; [done|]. intros g group3 Hg3.
  destruct (H23 g group3 Hg3) as [(group2 & Hg2 & Hc)|[Hnew Hc]].
  - destruct (H12 g group2 Hg2) as [(group1 & Hg1 & Hc')|[Hnew Hc']].
    + left. exists group1. split; [done|congruence].
    + right. split; [done|congruence].
  - right. split; [lia|done].
Qed.

(** Moving tabs between the groups listed in [b] keeps every surviving
    group as it is. *)
Lemma regroup_kept b groupId tabIds :
  browser_wf b →
  collapsed_kept b (regroup b groupId tabIds (tab_groups b) (next_groupId b)).
Proof.
  intros Hwf. split; [simpl; lia|]. split.
  - unfold browser_wf, regroup, dissolve_empty. simpl.
    apply Forall_forall. intros e [He _]%list_elem_of_In%filter_In.
    unfold browser_wf in Hwf. rewrite Forall_forall in Hwf.
    by apply Hwf, list_elem_of_In.
  - intros g group'. unfold regroup, dissolve_empty. simpl.
    rewrite (Map_get_filter_key _ (λ k, existsb (λ tab, chrome.groupId tab =? k) _)).
    destruct (existsb _ _); [|done]. intros Hg. left. by exists group'.
Qed.

Lemma regroup_get b groupId tabIds k group' :
  Map_get (tab_groups (regroup b groupId tabIds (tab_groups b) (next_groupId b))) k
    = Some group' →
  Map_get (tab_groups b) k = Some group'.
Proof.
  unfold regroup, dissolve_empty. simpl.
  rewrite (Map_get_filter_key _ (λ k, existsb (λ tab, chrome.groupId tab =? k) _)).
  by destruct (existsb _ _).
Qed.

Lemma scan_inv_regroup b groupId tabIds existing wasCollapsed :
  scan_inv b existing wasCollapsed →
  scan_inv (regroup b groupId tabIds (tab_groups b) (next_groupId b)) existing wasCollapsed.
Proof.
  destruct existing as [g|]; simpl; [|done].
  intros H group' Hg%regroup_get. by apply H.
Qed.

Lemma browser_ungroup_kept b tabId :
  browser_wf b → collapsed_kept b (browser b (tabs_ungroup tabId)).2.
Proof.
  intros Hwf. simpl. destruct (tab_open b tabId); simpl.
  - by apply regroup_kept.
  - by apply collapsed_kept_refl.
Qed.

(** A created group is expanded and gets an id that no group had. *)
Lemma browser_create_kept b tabIds :
  browser_wf b →
  collapsed_kept b (browser b (tabs_group None tabIds)).2 ∧
  ∀ groupId, (browser b (tabs_group None tabIds)).1 = Normal groupId →
             scan_inv (browser b (tabs_group None tabIds)).2 (Some groupId) false.
Proof.
  intros Hwf. simpl.
  destruct (forallb (tab_open b) tabIds && negb (bool_decide (tabIds = []))); simpl;
    [|split; [by apply collapsed_kept_refl|done]].
  set (new := {| chrome.group_title := None; chrome.color := "grey";
                 chrome.collapsed := false |}).
  assert (∀ k group',
            Map_get (dissolve_empty (move_to_group (next_groupId b) tabIds <$> open_tabs b)
                       (Map_set (tab_groups b) (next_groupId b) new)) k = Some group' →
            if decide (next_groupId b = k) then group' = new
            else Map_get (tab_groups b) k = Some group') as Hget.
  { intros k group'. unfold dissolve_empty.
    rewrite (Map_get_filter_key _ (λ k, existsb (λ tab, chrome.groupId tab =? k) _)).
    destruct (existsb _ _); [|done]. rewrite Map_get_set.
    case_decide; [by intros [= <-]|done]. }
  split.
  - split; [simpl; lia|]. split.
    + unfold browser_wf, dissolve_empty. simpl.
      apply Forall_forall. intros e [He _]%list_elem_of_In%filter_In.
      assert (Forall (λ e, e.1 < next_groupId b + 1)
                (Map_set (tab_groups b) (next_groupId b) new)) as Hall.
      { apply (Map_set_Forall_key _ (λ k, k < next_groupId b + 1)); [|lia].
        eapply Forall_impl; [exact Hwf|]. simpl. lia. }
      rewrite Forall_forall in Hall. by apply Hall, list_elem_of_In.
    + intros k group' Hk%Hget. case_decide as Hnew.
      * right. subst. split; [lia|done].
      * left. by exists group'.
  - intros g [= <-] group' Hk%Hget. rewrite decide_True in Hk by done. by subst.
Qed.

Lemma browser_update_kept b groupId title color collapsed :
  browser_wf b → scan_inv b (Some groupId) collapsed →
  collapsed_kept b (browser b (tabGroups_update groupId title color collapsed)).2.
Proof.
  intros Hwf Hinv. simpl.
  destruct (Map_has (tab_groups b) groupId) eqn:Hhas; simpl;
    [|by apply collapsed_kept_refl].
  apply Map_has_get in Hhas as [group Hgroup].
  split; [simpl; lia|]. split.
  - unfold browser_wf. simpl.
    apply (Map_set_Forall_key _ (λ k, k < next_groupId b)); [done|].
    by apply (Map_get_Forall_key _ (λ k, k < next_groupId b) _ _ Hwf Hgroup).
  - intros k group'. simpl. rewrite Map_get_set. case_decide as Hk.
    + subst k. intros [= <-]. left. exists group. split; [done|]. simpl. by apply Hinv.
    + intros Hk'. left. by exists group'.
Qed.

Lemma ungroupDeselected_browser b tabId :
  browser_wf b → collapsed_kept b (world (ungroupDeselected browser tabId b)).
Proof.
  intros Hwf. rewrite ungroupDeselected_run.
  assert ((browser b (tabs_get tabId)).2 = b) as Hpure
    by (simpl; by destruct (List.find _ _)).
  destruct (browser b (tabs_get tabId)) as [[tab|] b1]; simpl in Hpure; subst b1.
  - destruct (negb _); simpl.
    + by apply browser_ungroup_kept.
    + by apply collapsed_kept_refl.
  - by apply collapsed_kept_refl.
Qed.

Lemma ungroup_loop_browser tabIds b :
  browser_wf b → collapsed_kept b (world (for_of tabIds (ungroupDeselected browser) b)).
Proof.
  revert b. induction tabIds as [|tabId tabIds IH]; intros b Hwf.
  { by apply collapsed_kept_refl. }
  simpl.
  destruct (bind_normal (ungroupDeselected browser tabId)
              (λ _, for_of tabIds (ungroupDeselected browser)) b tt
              (ungroupDeselected_normal browser _ _)) as (_ & -> & _).
  pose proof (ungroupDeselected_browser b tabId Hwf) as H1.
  eapply collapsed_kept_trans; [exact H1|]. apply IH. apply H1.
Qed.

(** On the reference browser the scan changes nothing and returns, with a
    group it could look up, the [collapsed] attribute of that group. *)
Lemma findExistingGroup_browser tabIds existing wasCollapsed b :
  world (findExistingGroup browser tabIds existing wasCollapsed b) = b ∧
  ∃ existing' wasCollapsed',
    outcome (findExistingGroup browser tabIds existing wasCollapsed b)
      = Normal (existing', wasCollapsed') ∧
    (scan_inv b existing wasCollapsed → scan_inv b existing' wasCollapsed').
Proof.
  revert existing wasCollapsed.
  induction tabIds as [|tabId rest IH]; intros existing wasCollapsed.
  { simpl. split; [done|]. by eexists _, _. }
  simpl. unfold mbind, M_bind, bind, attempt, await. simpl.
  destruct (List.find (has_id tabId) (open_tabs b)) as [tab|]; simpl.
  - destruct (negb (chrome.groupId tab =? -1)); simpl.
    + destruct (Map_get (tab_groups b) (chrome.groupId tab)) as [group|] eqn:Hg; simpl.
      * split; [done|]. eexists _, _. split; [done|]. intros _ group' Hg'.
        rewrite orb_false_r. congruence.
      * destruct (IH (Some (chrome.groupId tab)) wasCollapsed)
          as (Hw & existing' & wasCollapsed' & Ho & Hinv).
        split; [exact Hw|]. eexists _, _. split; [exact Ho|]. intros _.
        apply Hinv. simpl. intros group'. by rewrite Hg.
    + apply IH.
  - apply IH.
Qed.

Lemma groupPhase_browser (group : GroupSuggestion) b :
  browser_wf b → collapsed_kept b (world (groupPhase browser group b)).
Proof.
  intros Hwf. destruct (decide (selectedTabIds group = [])) as [Hnil|Hsel].
  { rewrite groupPhase_nothing_selected by done. by apply collapsed_kept_refl. }
  rewrite groupPhase_run by done. cbv zeta.
  destruct (findExistingGroup_browser (selectedTabIds group) None false b)
    as (-> & existing & wasCollapsed & -> & Hinv).
  specialize (Hinv eq_refl).
  destruct existing as [groupId|].
  - rewrite joinGroup_existing_run.
    change (browser b (tabs_query_groupId groupId))
      with (Normal (List.filter (λ tab, chrome.groupId tab =? groupId) (open_tabs b)), b).
    cbv beta iota.
    destruct (not_yet_members _ (selectedTabIds group)) as [|t ts]; cbv beta iota zeta.
    + cbn [outcome world issued]. unfold await.
      pose proof (browser_update_kept b groupId (or_else (customName group) (host group))
                    "grey" wasCollapsed Hwf Hinv) as Hk.
      by destruct (browser b (tabGroups_update _ _ _ _)) as [[[]|] b1].
    + pose proof (regroup_kept b groupId (t :: ts) Hwf) as Hk1.
      pose proof (scan_inv_regroup b groupId (t :: ts) _ _ Hinv) as Hinv1.
      change (browser b (tabs_group (Some groupId) (t :: ts)))
        with (if Map_has (tab_groups b) groupId && forallb (tab_open b) (t :: ts)
                 && negb (bool_decide (t :: ts = []))
              then (Normal groupId,
                    regroup b groupId (t :: ts) (tab_groups b) (next_groupId b))
              else (Thrown, b)).
      destruct (_ && _ && _); cbn [outcome world issued];
        [|by apply collapsed_kept_refl].
      unfold await.
      pose proof (browser_update_kept _ groupId (or_else (customName group) (host group))
                    "grey" wasCollapsed (proj1 (proj2 Hk1)) Hinv1) as Hk2.
      destruct (browser _ (tabGroups_update _ _ _ _)) as [[[]|] b2];
        by eapply collapsed_kept_trans.
  - rewrite joinGroup_new_run. cbn [outcome world issued].
    destruct (browser_create_kept b (selectedTabIds group) Hwf) as [Hk1 Hnew].
    simpl in Hinv. subst wasCollapsed.
    destruct (browser b (tabs_group None (selectedTabIds group))) as [[groupId|] b1];
      cbn [outcome world issued fst snd] in *; [|done].
    unfold await.
    pose proof (browser_update_kept b1 groupId (or_else (customName group) (host group))
                  "grey" false (proj1 (proj2 Hk1)) (Hnew _ eq_refl)) as Hk2.
    destruct (browser b1 (tabGroups_update _ _ _ _)) as [[[]|] b2];
      by eapply collapsed_kept_trans.
Qed.

Lemma organizeGroup_browser (group : GroupSuggestion) b :
  browser_wf b → collapsed_kept b (world (organizeGroup browser group b)).
Proof.
  intros Hwf. destruct (organizeGroup_phases browser group b) as (_ & _ & -> & _).
  assert (collapsed_kept b (world (ungroupPhase browser group b))) as H1
    by (rewrite ungroupPhase_loop; by apply ungroup_loop_browser).
  eapply collapsed_kept_trans; [exact H1|]. apply groupPhase_browser, H1.
Qed.

(** Reconciliation on the reference browser, however it ends: every group
    that exists afterwards and existed before has the [collapsed] attribute
    it had, and every group created meanwhile is expanded. *)
Lemma reconcile_browser (groups : list GroupSuggestion) b :
  browser_wf b → collapsed_kept b (world (reconcile browser groups b)).
Proof.
  unfold reconcile. revert b. induction groups as [|group groups IH]; intros b Hwf.
  { by apply collapsed_kept_refl. }
  simpl. rewrite bind_run.
  pose proof (organizeGroup_browser group b Hwf) as H1.
  destruct (outcome (organizeGroup browser group b)) as [[]|]; simpl; [|done].
  eapply collapsed_kept_trans; [exact H1|]. apply IH, H1.
Qed.

(** C6. The [collapsed] value written by the update of an adopted group is
    the one its lookup answered, a created group is written [false], and the
    update is issued whenever the suggestion is processed to its end.  On the
    reference browser, reconciliation leaves every group that existed with
    the [collapsed] attribute it had, and every created group expanded.  In
    the scenario of two existing groups, tab 3 joins group 10, no group is
    created, group 10 stays collapsed and group 11 stays expanded. *)
Theorem collapsed_state_is_kept :
  (∀ W (api : facility W) (group : GroupSuggestion) (w : W) (c : call),
     selectedTabIds group ≠ [] →
     c ∈ issued (organizeGroup api group w) →
     is_update c = true →
     match first_grouped api (selectedTabIds group) (world (ungroupPhase api group w)) with
     | Some (groupId, w1) =>
         match api w1 (tabGroups_get groupId) with
         | (Normal groupInfo, _) =>
             c = tabGroups_update groupId (group_title_of group) "grey"
                   (chrome.collapsed groupInfo)
         | (Thrown, _) => True
         end
     | None => ∃ groupId, c = tabGroups_update groupId (group_title_of group) "grey" false
     end) ∧
  (∀ W (api : facility W) (group : GroupSuggestion) (w : W),
     selectedTabIds group ≠ [] →
     outcome (organizeGroup api group w) = Normal tt →
     ∃ c, c ∈ issued (organizeGroup api group w) ∧ is_update c = true) ∧
  (∀ (groups : list GroupSuggestion) (b : Browser),
     browser_wf b → collapsed_kept b (world (reconcile browser groups b))) ∧
  (let r := handleOrganizeTabs example_URL browser scenario_state scenario_window in
   (host <$> groups scenario_state = ["a.com"; "b.com"]) ∧
   is_thrown (outcome r) = false ∧
   ((λ tab, (chrome.id tab, chrome.groupId tab)) <$> open_tabs (world r)
      = [(Some 1, 10); (Some 2, 11); (Some 3, 10)]) ∧
   ((λ e, (e.1, chrome.group_title e.2, chrome.collapsed e.2)) <$> tab_groups (world r)
      = [(10, Some "a.com", true); (11, Some "b.com", false)]) ∧
   List.filter is_group_or_update (issued r)
      = [ tabs_group (Some 10) [3]; tabGroups_update 10 "a.com" "grey" true;
          tabGroups_update 11 "b.com" "grey" false ]).
Proof.
  split; [exact (@update_call_collapsed)|]. split; [exact (@update_call_issued)|].
  split; [exact reconcile_browser|].
  vm_compute. by repeat split.
Qed.

Lemma collapsed_state_is_kept_witness :
  let group := two_tab_group true true true in
  let c := tabGroups_update 5 "a.com" "grey" true in
  selectedTabIds group ≠ [] ∧
  c ∈ issued (organizeGroup browser group two_groups_window) ∧
  is_update c = true ∧
  match first_grouped browser (selectedTabIds group)
          (world (ungroupPhase browser group two_groups_window)) with
  | Some (groupId, w1) =>
      match browser w1 (tabGroups_get groupId) with
      | (Normal groupInfo, _) =>
          c = tabGroups_update groupId (group_title_of group) "grey"
                (chrome.collapsed groupInfo)
      | (Thrown, _) => True
      end
  | None => ∃ groupId, c = tabGroups_update groupId (group_title_of group) "grey" false
  end.
Proof.
  assert (tabGroups_update 5 "a.com" "grey" true
          ∈ issued (organizeGroup browser (two_tab_group true true true) two_groups_window))
    as Hin by (vm_compute; do 4 right; left).
  split; [discriminate|]. split; [exact Hin|]. split; [reflexivity|].
  apply (proj1 collapsed_state_is_kept Browser browser); [discriminate|exact Hin|reflexivity].
Defined.

(** * Further properties of the component *)

(** ** The updaters of the selection model *)

(** An updater raises exactly when its index is outside the array (for
    [toggleTab]: or the tab index outside the group's tabs). *)
Theorem updaters_raise_out_of_range (groups : list GroupSuggestion) groupIndex tabIndex newName :
  (toggleGroup groupIndex groups = None ↔ (length groups ≤ groupIndex)%nat) ∧
  (updateGroupName groupIndex newName groups = None ↔ (length groups ≤ groupIndex)%nat) ∧
  (toggleTab groupIndex tabIndex groups = None ↔
     (length groups ≤ groupIndex)%nat ∨
     ∃ group, groups !! groupIndex = Some group ∧ (length (tabs group) ≤ tabIndex)%nat).
Proof.
  unfold toggleGroup, updateGroupName, toggleTab.
  destruct (groups !! groupIndex) as [group|] eqn:Hg; simpl.
  - pose proof (lookup_lt_Some _ _ _ Hg) as Hlt.
    split; [split; [done|lia]|]. split; [split; [done|lia]|].
    destruct (tabs group !! tabIndex) as [tab|] eqn:Ht; simpl.
    + pose proof (lookup_lt_Some _ _ _ Ht) as Hlt'. split; [done|].
      intros [?|(g & [= <-] & ?)]; lia.
    + apply lookup_ge_None in Ht. split; [|done]. intros _. right. by exists group.
  - apply lookup_ge_None in Hg. split; [done|]. split; [done|]. split; [by left|done].
Qed.

Lemma group_identity_insert (groups : list GroupSuggestion) i g g' :
  groups !! i = Some g → group_identity g' = group_identity g →
  group_identity <$> <[i := g']> groups = group_identity <$> groups.
Proof.
  intros Hg Heq. rewrite list_fmap_insert, Heq. apply list_insert_id.
  by rewrite list_lookup_fmap, Hg.
Qed.

Lemma tab_identity_with_selected b (l : list TabSummary) :
  tab_identity <$> (with_selected b <$> l) = tab_identity <$> l.
Proof. rewrite <- list_fmap_compose. by apply list_fmap_ext. Qed.

(** The two toggles change selection flags and nothing else: the groups,
    their order, hosts and names, and the tabs with their order, ids, titles
    and addresses stay.  [toggleGroup] gives all tabs of the group the
    negated group flag; [toggleTab] negates the flag of the one tab. *)
Theorem toggles_change_flags_only (groups groups' : list GroupSuggestion) groupIndex tabIndex :
  (toggleGroup groupIndex groups = Some groups' →
     group_identity <$> groups' = group_identity <$> groups ∧
     ∃ group, groups !! groupIndex = Some group ∧
       selection_flags groups' =
         <[groupIndex := replicate (length (tabs group)) (negb (groupSelected group))]>
           (selection_flags groups)) ∧
  (toggleTab groupIndex tabIndex groups = Some groups' →
     group_identity <$> groups' = group_identity <$> groups ∧
     ∃ group tab, groups !! groupIndex = Some group ∧ tabs group !! tabIndex = Some tab ∧
       selection_flags groups' =
         <[groupIndex := <[tabIndex := negb (selected tab)]> (selected <$> tabs group)]>
           (selection_flags groups)).
Proof.
  split.
  - intros (group & Hg & ->)%toggleGroup_inv. split.
    + eapply group_identity_insert; [done|]. unfold group_identity. simpl.
      by rewrite tab_identity_with_selected.
    + exists group. split; [done|]. unfold selection_flags.
      rewrite list_fmap_insert. simpl. f_equal.
      rewrite <- list_fmap_compose. clear Hg.
      induction (tabs group) as [|tab l IH]; [done|]. simpl. by rewrite <- IH.
  - intros (group & tab & Hg & Ht & ->)%toggleTab_inv. split.
    + eapply group_identity_insert; [done|]. unfold group_identity. simpl.
      f_equal. rewrite list_fmap_insert. apply list_insert_id.
      by rewrite list_lookup_fmap, Ht.
    + exists group, tab. split; [done|]. split; [done|]. unfold selection_flags.
      rewrite list_fmap_insert. simpl. by rewrite list_fmap_insert.
Qed.

Lemma toggles_change_flags_only_witness :
  ∃ groups',
    toggleTab 0 1 [two_tab_group true true true] = Some groups' ∧
    group_identity <$> groups' = group_identity <$> [two_tab_group true true true] ∧
    selection_flags groups' = [[true; false]].
Proof.
  exists [two_tab_group true false false]. split; [reflexivity|].
  destruct (proj2 (toggles_change_flags_only [two_tab_group true true true]
                     [two_tab_group true false false] 0 1) eq_refl)
    as (Hid & group & tab & Hg & Ht & Hflags).
  split; [exact Hid|]. rewrite Hflags. injection Hg as <-. injection Ht as <-.
  reflexivity.
Defined.

Lemma toggled_group_uniform b (l : list TabSummary) :
  Forall (λ tab, selected tab = b) (with_selected b <$> l).
Proof. apply Forall_fmap, Forall_true. done. Qed.

(** Once a group has been toggled as a whole, toggling it is an involution:
    the state after one [toggleGroup] comes back after two more.  (The tab
    flags that a first [toggleGroup] overwrites are the only thing that two
    calls lose.) *)
Theorem toggleGroup_involutive_after_first (groups groups1 : list GroupSuggestion) groupIndex :
  toggleGroup groupIndex groups = Some groups1 →
  ∃ groups2,
    toggleGroup groupIndex groups1 = Some groups2 ∧
    toggleGroup groupIndex groups2 = Some groups1.
Proof.
  intros (group & Hg & ->)%toggleGroup_inv.
  pose proof (lookup_lt_Some _ _ _ Hg) as Hlt.
  eexists. split.
  { apply toggleGroup_eq. by apply list_lookup_insert_eq. }
  erewrite toggleGroup_eq; [|apply list_lookup_insert_eq; by rewrite length_insert].
  simpl. rewrite !list_insert_insert_eq, negb_involutive. do 3 f_equal.
  rewrite <- !list_fmap_compose. by apply list_fmap_ext.
Qed.

Lemma toggleGroup_involutive_after_first_witness :
  ∃ groups2,
    toggleGroup 0 [two_tab_group true true true] = Some groups2 ∧
    toggleGroup 0 groups2 = Some [two_tab_group true true true].
Proof.
  apply (toggleGroup_involutive_after_first [two_tab_group true false false]
           [two_tab_group true true true] 0).
  reflexivity.
Defined.

Lemma existsb_fmap {A B} (f : A → B) (p : B → bool) (l : list A) :
  existsb p (f <$> l) = existsb (λ x, p (f x)) l.
Proof. induction l as [|x l IH]; csimpl; [done|]. by rewrite IH. Qed.

(** [updateGroupName] at an in-range index sets the name of that group and
    changes nothing else: hosts, tabs and flags of every group stay, so does
    the answer of [hasSelectedTabs], and the model is consistent after the
    call exactly when it was before. *)
Theorem updateGroupName_sets_name_only (groups : list GroupSuggestion) groupIndex newName group :
  groups !! groupIndex = Some group →
  ∃ groups' group',
    updateGroupName groupIndex newName groups = Some groups' ∧
    groups' !! groupIndex = Some group' ∧
    customName group' = Some newName ∧
    (∀ j, j ≠ groupIndex → groups' !! j = groups !! j) ∧
    (λ g, (host g, tabs g, groupSelected g)) <$> groups'
      = (λ g, (host g, tabs g, groupSelected g)) <$> groups ∧
    hasSelectedTabs groups' = hasSelectedTabs groups ∧
    (model_consistent groups' ↔ model_consistent groups).
Proof.
  intros Hg. pose proof (lookup_lt_Some _ _ _ Hg) as Hlt.
  unfold updateGroupName. rewrite Hg. simpl. eexists _, _.
  split; [done|]. split; [by apply list_lookup_insert_eq|]. split; [done|].
  split; [intros j Hj; by apply list_lookup_insert_ne|].
  assert ((λ g, (host g, tabs g, groupSelected g)) <$>
            <[groupIndex := {| host := host group; tabs := tabs group;
                               groupSelected := groupSelected group;
                               customName := Some newName |}]> groups
          = (λ g, (host g, tabs g, groupSelected g)) <$> groups) as Hsame.
  { rewrite list_fmap_insert. apply list_insert_id. by rewrite list_lookup_fmap, Hg. }
  split; [exact Hsame|]. split.
  - unfold hasSelectedTabs.
    rewrite <- !(existsb_fmap (λ g, (host g, tabs g, groupSelected g))
                   (λ x, existsb selected x.1.2)).
    by rewrite Hsame.
  - unfold model_consistent.
    assert (∀ l : list GroupSuggestion,
              Forall group_consistent l ↔
              Forall (λ x, x.2 = forallb selected x.1.2)
                ((λ g, (host g, tabs g, groupSelected g)) <$> l)) as Hvia.
    { intros l. by rewrite Forall_fmap. }
    by rewrite !Hvia, Hsame.
Qed.

Lemma updateGroupName_sets_name_only_witness :
  ∃ groups',
    updateGroupName 0 "work" [two_tab_group true false false] = Some groups' ∧
    customName <$> groups' = [Some "work"] ∧
    hasSelectedTabs groups' = true.
Proof.
  destruct (updateGroupName_sets_name_only [two_tab_group true false false] 0 "work"
              (two_tab_group true false false) eq_refl)
    as (groups' & group' & Hup & Hg' & Hname & _ & _ & Hhas & _).
  exists groups'. split; [exact Hup|]. split; [|by rewrite Hhas].
  injection Hup as <-. reflexivity.
Defined.

Local Ltac lookup_inserted :=
  repeat first
    [ rewrite list_lookup_insert_ne by done
    | rewrite list_lookup_insert_eq by (rewrite ?length_insert; eauto using lookup_lt_Some) ].

Local Ltac commute_cases :=
  repeat first
    [ progress simpl
    | progress lookup_inserted
    | match goal with H : ?x = _ |- context [?x] => rewrite H end
    | match goal with |- context [tabs ?g !! ?n] => destruct (tabs g !! n) eqn:? end ];
  try done.

(** Updates of different parts of the model commute: toggles of two
    different groups, toggles of two different tabs, and a rename with any
    toggle.  (A [toggleGroup] and a [toggleTab] of the same group do not.) *)
Theorem selection_updates_commute (groups : list GroupSuggestion) i j k l newName :
  (i ≠ j → toggleGroup i groups ≫= toggleGroup j = toggleGroup j groups ≫= toggleGroup i) ∧
  (i ≠ j → toggleGroup i groups ≫= toggleTab j l = toggleTab j l groups ≫= toggleGroup i) ∧
  (i ≠ j ∨ k ≠ l →
     toggleTab i k groups ≫= toggleTab j l = toggleTab j l groups ≫= toggleTab i k) ∧
  (updateGroupName i newName groups ≫= toggleGroup j
     = toggleGroup j groups ≫= updateGroupName i newName) ∧
  (updateGroupName i newName groups ≫= toggleTab j l
     = toggleTab j l groups ≫= updateGroupName i newName).
Proof.
  split; [|split; [|split; [|split]]].
  - intros Hne. unfold toggleGroup.
    destruct (groups !! i) as [gi|] eqn:Hi; destruct (groups !! j) as [gj|] eqn:Hj;
      commute_cases.
    f_equal. by apply list_insert_insert_ne.
  - intros Hne. unfold toggleGroup, toggleTab.
    destruct (groups !! i) as [gi|] eqn:Hi; destruct (groups !! j) as [gj|] eqn:Hj;
      commute_cases.
    f_equal. by apply list_insert_insert_ne.
  - intros Hne. unfold toggleTab. destruct (decide (i = j)) as [<-|Hij].
    + destruct Hne as [|Hkl]; [done|].
      destruct (groups !! i) as [gi|] eqn:Hi; commute_cases.
      rewrite !list_insert_insert_eq.
      by rewrite (list_insert_insert_ne (tabs gi) l k) by done.
    + destruct (groups !! i) as [gi|] eqn:Hi; destruct (groups !! j) as [gj|] eqn:Hj;
        commute_cases.
      f_equal. by apply list_insert_insert_ne.
  - unfold updateGroupName, toggleGroup. destruct (decide (i = j)) as [<-|Hij].
    + destruct (groups !! i) as [gi|] eqn:Hi; commute_cases.
      by rewrite !list_insert_insert_eq.
    + destruct (groups !! i) as [gi|] eqn:Hi; destruct (groups !! j) as [gj|] eqn:Hj;
        commute_cases.
      f_equal. by apply list_insert_insert_ne.
  - unfold updateGroupName, toggleTab. destruct (decide (i = j)) as [<-|Hij].
    + destruct (groups !! i) as [gi|] eqn:Hi; commute_cases.
      by rewrite !list_insert_insert_eq.
    + destruct (groups !! i) as [gi|] eqn:Hi; destruct (groups !! j) as [gj|] eqn:Hj;
        commute_cases.
      f_equal. by apply list_insert_insert_ne.
Qed.

Lemma selection_updates_commute_witness :
  let groups := [two_tab_group true true true; two_tab_group true false false] in
  toggleGroup 0 groups ≫= toggleTab 1 0 = toggleTab 1 0 groups ≫= toggleGroup 0 ∧
  toggleTab 0 0 groups ≫= toggleTab 0 1 = toggleTab 0 1 groups ≫= toggleTab 0 0.
Proof.
  destruct (selection_updates_commute
              [two_tab_group true true true; two_tab_group true false false]
              0 0 0 1 "") as (_ & _ & Htabs & _).
  destruct (selection_updates_commute
              [two_tab_group true true true; two_tab_group true false false]
              0 1 0 0 "") as (_ & Hgroups & _).
  split; [apply Hgroups; lia|apply Htabs; right; lia].
Defined.

(** A [toggleGroup] and a [toggleTab] of the same group do not commute. *)
Example toggleGroup_toggleTab_same_group :
  toggleGroup 0 [two_tab_group true true true] ≫= toggleTab 0 0
    = Some [two_tab_group true false false] ∧
  toggleTab 0 0 [two_tab_group true true true] ≫= toggleGroup 0
    = Some [two_tab_group true true true].
Proof. by split. Qed.

(** ** KeyExtractor and the fresh build *)

(** An address whose hostname is ["www."] followed by the hostname of another
    address gets the same key as that other address (unless the latter
    itself begins with ["www."]): the tabs of [www.example.com] and of
    [example.com] share a suggestion. *)
Theorem www_alias_shares_key (new_URL : string → completion URL) (url1 url2 : string) u1 u2 :
  new_URL url1 = Normal u1 →
  new_URL url2 = Normal u2 →
  hostname u1 = "www." +:+ hostname u2 →
  (∀ rest, hostname u2 ≠ "www." +:+ rest) →
  getHostname new_URL url1 = getHostname new_URL url2 ∧
  getHostname new_URL url2 = Normal (hostname u2).
Proof.
  intros H1 H2 Hwww Hplain. unfold getHostname. rewrite H1, H2. simpl.
  destruct (replace_leading_www_cases (hostname u2)) as [(rest & Hr & _)|[_ ->]].
  { by apply Hplain in Hr. }
  by rewrite Hwww.
Qed.

Lemma www_alias_shares_key_witness :
  getHostname example_URL "https://www.a.com/" = getHostname example_URL "https://a.com/1" ∧
  getHostname example_URL "https://a.com/1" = Normal "a.com".
Proof.
  apply (www_alias_shares_key example_URL "https://www.a.com/" "https://a.com/1"
           {| hostname := "www.a.com" |} {| hostname := "a.com" |});
    [reflexivity|reflexivity|reflexivity|].
  intros rest. discriminate.
Defined.

Section JsMapPush.
Context {K V A : Type} `{EqDecision K} (get : V → list A).

(** Creating the bucket of a key on first sight and pushing into it adds the
    pushed element to the contents of the map and moves nothing. *)
Lemma Map_push_concat (m : JsMap K V) k v0 f x :
  get v0 = [] → (∀ v, get (f v) = get v ++ [x]) →
  concat ((λ e, get e.2) <$> Map_update (if Map_has m k then m else Map_set m k v0) k f)
  ≡ₚ concat ((λ e, get e.2) <$> m) ++ [x].
Proof.
  intros Hv0 Hf. induction m as [|[k' v'] m IH].
  - simpl. rewrite decide_True by done. csimpl. by rewrite Hf, Hv0.
  - unfold Map_has in *. simpl.
    destruct (decide (k' = k)) as [->|Hne].
    + rewrite bool_decide_eq_true_2 by done. simpl. rewrite decide_True by done.
      csimpl. rewrite Hf. by rewrite <- !app_assoc, (Permutation_app_comm [x]).
    + rewrite bool_decide_eq_false_2 by done. simpl.
      destruct (existsb _ m) eqn:Hhas; simpl; rewrite ?decide_False by done;
        simpl; rewrite ?decide_False by done; csimpl; by rewrite IH, app_assoc.
Qed.
End JsMapPush.

Lemma hostMap_push_tabs hostMap host (summary : TabSummary) :
  concat ((λ e, e.2) <$> hostMap_push hostMap host summary)
  ≡ₚ concat ((λ e, e.2) <$> hostMap) ++ [summary].
Proof. unfold hostMap_push. by apply (Map_push_concat (λ v, v)). Qed.

Lemma all_tabs_hostGroups hostMap :
  all_tabs (hostGroups hostMap) = concat ((λ e, e.2) <$> hostMap).
Proof.
  unfold all_tabs, hostGroups. rewrite <- list_fmap_compose. f_equal.
  apply list_fmap_ext. by intros _ [h ts] _.
Qed.

Lemma loadTabs_fold_tabs (new_URL : string → completion URL) (l : list chrome.Tab) acc :
  concat ((λ e, e.2) <$> fold_left (loadTabs_step new_URL) l acc)
  ≡ₚ concat ((λ e, e.2) <$> acc) ++ (tabSummary <$> List.filter actionable l).
Proof.
  revert acc. induction l as [|tab l IH]; intros acc; simpl.
  { by rewrite app_nil_r. }
  rewrite IH. unfold loadTabs_step. destruct (actionable tab); [|done].
  rewrite hostMap_push_tabs. csimpl. by rewrite <- app_assoc.
Qed.

Lemma elem_of_kept (listing : list chrome.Tab) (tab : chrome.Tab) :
  tab ∈ kept listing ↔
  tab ∈ listing ∧ actionable tab = true ∧
  String.prefix "chrome://" (default "" (chrome.url tab)) = false ∧
  String.prefix "chrome-extension://" (default "" (chrome.url tab)) = false.
Proof.
  unfold kept, filterTabs. rewrite list_elem_of_In, !filter_In, <- list_elem_of_In.
  rewrite !andb_true_iff, !negb_true_iff. unfold actionable.
  rewrite !andb_true_iff. naive_solver.
Qed.

(** The fresh build loses and repeats nothing: the tabs of its suggestions
    are, up to order, the summaries of the tabs it keeps; and it keeps
    exactly the listed tabs that have a non-zero id, a non-empty title and a
    non-empty address that is neither [chrome://] nor [chrome-extension://]. *)
Theorem loadTabs_groups_partition (new_URL : string → completion URL) (listing : list chrome.Tab) :
  all_tabs (loadTabs_groups new_URL listing) ≡ₚ tabSummary <$> kept listing ∧
  (∀ summary, summary ∈ all_tabs (loadTabs_groups new_URL listing) ↔
     ∃ tab, tab ∈ listing ∧ summary = tabSummary tab ∧
       chrome.id tab = Some (id summary) ∧ id summary ≠ 0 ∧
       chrome.title tab = Some (title summary) ∧ title summary ≠ "" ∧
       chrome.url tab = Some (url summary) ∧ url summary ≠ "" ∧
       String.prefix "chrome://" (url summary) = false ∧
       String.prefix "chrome-extension://" (url summary) = false).
Proof.
  assert (all_tabs (loadTabs_groups new_URL listing) ≡ₚ tabSummary <$> kept listing) as Hperm.
  { unfold loadTabs_groups, loadTabs_hostMap. rewrite all_tabs_hostGroups.
    by rewrite loadTabs_fold_tabs. }
  split; [exact Hperm|]. intros summary. rewrite Hperm, list_elem_of_fmap.
  split.
  - intros (tab & -> & (Hin & Hact & Hc & He)%elem_of_kept). exists tab.
    unfold actionable, truthy_number, truthy_string in Hact.
    destruct tab as [[n|] [u|] [t|] g]; simpl in *;
      rewrite ?andb_false_r in Hact; try done.
    apply andb_true_iff in Hact as [[Hn Hu]%andb_true_iff Ht].
    apply negb_true_iff in Hn, Hu, Ht.
    apply Z.eqb_neq in Hn. apply String.eqb_neq in Hu, Ht. by repeat split.
  - intros (tab & Hin & -> & Hid & Hn & Ht & Htne & Hu & Hune & Hc & He).
    exists tab. split; [done|]. apply elem_of_kept. split; [done|].
    unfold actionable, truthy_number, truthy_string.
    destruct tab as [[n|] [u|] [t|] g]; simpl in *; try done.
    apply Z.eqb_neq in Hn. apply String.eqb_neq in Htne, Hune.
    by rewrite Hn, Htne, Hune.
Qed.

(** ** The rebuilt model *)

Section ResyncTabs.
Context (new_URL : string → completion URL) {W : Type} (api : facility W).

Lemma resync_step_tabs maps (tab : chrome.Tab) (w : W) :
  ∃ maps', outcome (resync_step new_URL api maps tab w) = Normal maps' ∧
    maps_tabs maps' ≡ₚ maps_tabs maps ++ (if actionable tab then [tabSummary tab] else []).
Proof.
  destruct maps as [groupMap hostMap]. unfold resync_step.
  destruct (actionable tab); [|eexists; split; [done|by rewrite app_nil_r]].
  destruct (negb (chrome.groupId tab =? -1)).
  - unfold mbind, M_bind, bind, attempt, await, mret, M_ret, ret.
    assert (∀ name,
              maps_tabs (Map_update
                           (if Map_has groupMap (chrome.groupId tab) then groupMap
                            else Map_set groupMap (chrome.groupId tab) (name, []))
                           (chrome.groupId tab)
                           (λ groupData, (groupData.1, groupData.2 ++ [tabSummary tab])),
                         hostMap)
              ≡ₚ maps_tabs (groupMap, hostMap) ++ [tabSummary tab]) as Hpush.
    { intros name. unfold maps_tabs. simpl.
      rewrite (Map_push_concat (λ v : string * list TabSummary, v.2)) by done.
      rewrite <- !app_assoc. f_equiv. apply Permutation_app_comm. }
    destruct (Map_has groupMap (chrome.groupId tab)) eqn:Hhas; simpl.
    + eexists. split; [reflexivity|]. exact (Hpush "").
    + destruct (api w (tabGroups_get (chrome.groupId tab))) as [[groupInfo|] w1]; simpl;
        eexists; (split; [reflexivity|]); apply Hpush.
  - eexists. split; [reflexivity|]. unfold maps_tabs. simpl.
    by rewrite hostMap_push_tabs, app_assoc.
Qed.

Lemma resync_loop_tabs (tabs : list chrome.Tab) maps (w : W) :
  ∃ maps', outcome (for_of_state tabs (resync_step new_URL api) maps w) = Normal maps' ∧
    maps_tabs maps' ≡ₚ maps_tabs maps ++ (tabSummary <$> List.filter actionable tabs).
Proof.
  revert maps w. induction tabs as [|tab tabs IH]; intros maps w.
  { exists maps. split; [done|]. simpl. by rewrite app_nil_r. }
  simpl. destruct (resync_step_tabs maps tab w) as (maps1 & H1 & Hp1).
  destruct (bind_normal _ (λ maps', for_of_state tabs (resync_step new_URL api) maps')
              w maps1 H1) as (-> & _).
  destruct (IH maps1 (world (resync_step new_URL api maps tab w))) as (maps2 & H2 & Hp2).
  exists maps2. split; [exact H2|]. rewrite Hp2, Hp1.
  destruct (actionable tab); csimpl; by rewrite <- ?app_assoc, ?app_nil_r.
Qed.

Lemma all_tabs_newGroups maps : all_tabs (newGroups maps) = maps_tabs maps.
Proof.
  unfold all_tabs, newGroups, maps_tabs. rewrite fmap_app, concat_app.
  f_equal; [|apply all_tabs_hostGroups].
  rewrite <- list_fmap_compose. f_equal. apply list_fmap_ext. by intros _ [g d] _.
Qed.

(** The resync loses and repeats nothing either: when the listing query is
    answered, the tabs of the rebuilt model are, up to order, the summaries
    of the listed tabs the filter and the guard keep, whatever the browser
    answers to the group lookups. *)
Theorem resync_partition (w : W) :
  match (api w tabs_query_currentWindow).1 with
  | Normal listing =>
      ∃ groups', outcome (resync new_URL api w) = Normal groups' ∧
                 all_tabs groups' ≡ₚ tabSummary <$> kept listing
  | Thrown => outcome (resync new_URL api w) = Thrown
  end.
Proof.
  unfold resync, mbind, M_bind, bind, await.
  destruct (api w tabs_query_currentWindow) as [[listing|] w1]; simpl; [|done].
  destruct (resync_loop_tabs (filterTabs listing) ([], []) w1) as (maps & Hmaps & Hp).
  rewrite Hmaps. simpl. eexists. split; [reflexivity|].
  by rewrite all_tabs_newGroups, Hp.
Qed.
End ResyncTabs.

Lemma all_selected_hasSelectedTabs (groups : list GroupSuggestion) :
  Forall all_selected groups →
  hasSelectedTabs groups = true ↔ all_tabs groups ≠ [].
Proof.
  unfold hasSelectedTabs, all_tabs.
  induction 1 as [|g l [_ Hg] _ IH]; simpl; [done|].
  destruct (tabs g) as [|tab ts] eqn:Htabs; simpl.
  - exact IH.
  - apply Forall_cons in Hg as [-> _]. done.
Qed.

Lemma well_formed_all_tabs (groups : list GroupSuggestion) :
  Forall well_formed groups → all_tabs groups ≠ [] ↔ groups ≠ [].
Proof.
  unfold all_tabs. destruct 1 as [|g l [_ Hg] _]; simpl; [done|].
  split; [done|]. intros _. by destruct (tabs g).
Qed.

(** A model that has just been built, by [loadTabs] or by the resync, has a
    selected tab exactly when it has a group at all: the "Organize Tabs"
    button, disabled by [!hasSelectedTabs()], is then enabled unless the list
    is empty.  For the fresh build this is when no listed tab is kept. *)
Theorem built_model_has_selected_tabs (new_URL : string → completion URL) {W} (api : facility W) :
  (∀ listing,
     (hasSelectedTabs (loadTabs_groups new_URL listing) = true ↔
        loadTabs_groups new_URL listing ≠ []) ∧
     (loadTabs_groups new_URL listing ≠ [] ↔ kept listing ≠ [])) ∧
  (∀ groups w groups',
     outcome (organize_body new_URL api groups w) = Normal groups' →
     hasSelectedTabs groups' = true ↔ groups' ≠ []).
Proof.
  split.
  - intros listing.
    pose proof (loadTabs_groups_well_formed new_URL listing) as Hwf.
    assert (Forall all_selected (loadTabs_groups new_URL listing)) as Hsel
      by (eapply Forall_impl; [exact Hwf|]; by intros g [Hg _]).
    split.
    + by rewrite all_selected_hasSelectedTabs, well_formed_all_tabs.
    + rewrite <- well_formed_all_tabs by done.
      assert (all_tabs (loadTabs_groups new_URL listing) ≡ₚ tabSummary <$> kept listing)
        as Hperm.
      { unfold loadTabs_groups, loadTabs_hostMap. rewrite all_tabs_hostGroups.
        by rewrite loadTabs_fold_tabs. }
      split.
      * intros Hne Hnil. apply Hne. apply Permutation_nil_r. by rewrite Hperm, Hnil.
      * intros Hne Hnil. rewrite Hnil in Hperm. symmetry in Hperm.
        apply Permutation_nil_r, fmap_nil_inv in Hperm. done.
  - intros groups w groups' Hwf%organize_body_well_formed.
    assert (Forall all_selected groups') as Hsel
      by (eapply Forall_impl; [exact Hwf|]; by intros g [Hg _]).
    by rewrite all_selected_hasSelectedTabs, well_formed_all_tabs.
Qed.

Lemma built_model_has_selected_tabs_witness :
  ∃ groups',
    outcome (organize_body example_URL browser [two_tab_group false false false]
               two_groups_window) = Normal groups' ∧
    hasSelectedTabs [two_tab_group false false false] = false ∧
    hasSelectedTabs groups' = true.
Proof.
  eexists. split; [vm_compute; reflexivity|]. split; [reflexivity|].
  eapply (proj2 (built_model_has_selected_tabs example_URL browser)
            [two_tab_group false false false] two_groups_window).
  - vm_compute. reflexivity.
  - discriminate.
Defined.

(** [loadTabs] always clears the loading flag.  It replaces the groups, by
    the fresh build of the listed tabs, only when all three of its calls are
    answered.  When the listing, the window or the active-tab lookup is
    rejected, the tabs already listed are dropped, the groups and the active
    tab stay as they were, and the rejected call is the last one issued: the
    calls after it are not made. *)
Theorem loadTabs_all_or_nothing (new_URL : string → completion URL) {W} (api : load_facility W)
    (state : PopupState) (w : W) :
  loading (loadTabs new_URL api state w).1.1 = false ∧
  ((∃ tabs w1 currentWindow w2 activeTab w3,
      api w load_query_currentWindow = (Normal tabs, w1) ∧
      api w1 windows_getCurrent = (Normal currentWindow, w2) ∧
      api w2 (tabs_query_active (window_id currentWindow)) = (Normal activeTab, w3) ∧
      loadTabs new_URL api state w =
        ({| loading := false; popup_groups := loadTabs_groups new_URL tabs;
            activeTabId := head activeTab ≫= chrome.id |},
         w3,
         [load_query_currentWindow; windows_getCurrent;
          tabs_query_active (window_id currentWindow)]))
   ∨
   ((loadTabs new_URL api state w).1.1 = loadTabs_failed state ∧
    ((is_thrown (api w load_query_currentWindow).1 = true ∧
      loadTabs new_URL api state w =
        (loadTabs_failed state, (api w load_query_currentWindow).2,
         [load_query_currentWindow]))
     ∨
     ∃ tabs w1, api w load_query_currentWindow = (Normal tabs, w1) ∧
       ((is_thrown (api w1 windows_getCurrent).1 = true ∧
         loadTabs new_URL api state w =
           (loadTabs_failed state, (api w1 windows_getCurrent).2,
            [load_query_currentWindow; windows_getCurrent]))
        ∨
        ∃ currentWindow w2, api w1 windows_getCurrent = (Normal currentWindow, w2) ∧
          is_thrown (api w2 (tabs_query_active (window_id currentWindow))).1 = true ∧
          loadTabs new_URL api state w =
            (loadTabs_failed state,
             (api w2 (tabs_query_active (window_id currentWindow))).2,
             [load_query_currentWindow; windows_getCurrent;
              tabs_query_active (window_id currentWindow)]))))) ∧
  (Forall well_formed (popup_groups state) →
   Forall well_formed (popup_groups (loadTabs new_URL api state w).1.1)).
Proof.
  unfold loadTabs.
  destruct (api w load_query_currentWindow) as [[tabs|] w1] eqn:E1; simpl;
    [|split; [done|]; split; [right; split; [done|by left]|done]].
  destruct (api w1 windows_getCurrent) as [[currentWindow|] w2] eqn:E2; simpl;
    [|split; [done|]; split; [|done]; right; split; [done|]; right;
      exists tabs, w1; split; [done|]; left; by rewrite E2].
  destruct (api w2 (tabs_query_active (window_id currentWindow))) as [[activeTab|] w3] eqn:E3;
    simpl.
  - split; [done|]. split.
    + left. by exists tabs, w1, currentWindow, w2, activeTab, w3.
    + intros _. apply loadTabs_groups_well_formed.
  - split; [done|]. split; [|done]. right. split; [done|]. right.
    exists tabs, w1. split; [done|]. right. exists currentWindow, w2.
    split; [done|]. by rewrite E3.
Qed.

(** The window is listed but [chrome.windows.getCurrent] is rejected: the
    popup stops loading with the groups it had, here none, and the
    active-tab query is not issued. *)
Lemma loadTabs_all_or_nothing_witness :
  let state := {| loading := true; popup_groups := []; activeTabId := None |} in
  let listing := [example_tab 1 "https://a.com/1" (-1)] in
  (loadTabs example_URL (example_loader listing false) state tt).1.1
    = {| loading := false; popup_groups := []; activeTabId := None |} ∧
  (loadTabs example_URL (example_loader listing false) state tt).2
    = [load_query_currentWindow; windows_getCurrent] ∧
  host <$> popup_groups (loadTabs example_URL (example_loader listing true) state tt).1.1
    = ["a.com"] ∧
  activeTabId (loadTabs example_URL (example_loader listing true) state tt).1.1 = Some 1.
Proof.
  pose proof (loadTabs_all_or_nothing example_URL
                (example_loader [example_tab 1 "https://a.com/1" (-1)] false)
                {| loading := true; popup_groups := []; activeTabId := None |} tt)
    as (_ & [(tabs & w1 & cw & w2 & _ & _ & _ & Hcw & _)|[Hfailed Hcalls]] & _).
  { discriminate Hcw. }
  split; [exact Hfailed|]. split; [|by split].
  destruct Hcalls as [[Hq _]|(tabs & w1 & _ & [[_ Hrun]|(cw & w2 & Hcw & _)])].
  - discriminate Hq.
  - by rewrite Hrun.
  - discriminate Hcw.
Defined.

(** ** Reconciliation: what it calls, and when it fails *)

Lemma selectedTabIds_subset (group : GroupSuggestion) tabId :
  tabId ∈ selectedTabIds group → tabId ∈ id <$> tabs group.
Proof.
  unfold selectedTabIds. rewrite !list_elem_of_fmap.
  intros (tab & -> & [Hin _]%list_elem_of_In%filter_In). exists tab.
  split; [done|]. by apply list_elem_of_In.
Qed.

Lemma unselectedTabIds_subset (group : GroupSuggestion) tabId :
  tabId ∈ unselectedTabIds group → tabId ∈ id <$> tabs group.
Proof.
  unfold unselectedTabIds. rewrite !list_elem_of_fmap.
  intros (tab & -> & [Hin _]%list_elem_of_In%filter_In). exists tab.
  split; [done|]. by apply list_elem_of_In.
Qed.

Section CallsIssued.
Context {W : Type} (api : facility W).

Lemma ungroup_loop_within (tabIds : list Z) (w : W) c :
  c ∈ issued (for_of tabIds (ungroupDeselected api) w) →
  ∃ tabId, tabId ∈ tabIds ∧ (c = tabs_get tabId ∨ c = tabs_ungroup tabId).
Proof.
  revert w. induction tabIds as [|tabId tabIds IH]; intros w; simpl.
  { by intros ?%not_elem_of_nil. }
  destruct (bind_normal (ungroupDeselected api tabId)
              (λ _, for_of tabIds (ungroupDeselected api)) w tt
              (ungroupDeselected_normal api _ _)) as (_ & _ & ->).
  rewrite elem_of_app. intros [Hin|Hin].
  - exists tabId. split; [left|]. revert Hin. rewrite ungroupDeselected_run.
    destruct (api w (tabs_get tabId)) as [[tab|] w1]; [destruct (negb _)|]; simpl;
      rewrite ?elem_of_cons, ?elem_of_nil; naive_solver.
  - destruct (IH _ Hin) as (t & Ht & Hc). exists t. split; [by right|done].
Qed.

Lemma findExistingGroup_within (tabIds : list Z) existing wasCollapsed (w : W) c :
  c ∈ issued (findExistingGroup api tabIds existing wasCollapsed w) →
  (∃ tabId, tabId ∈ tabIds ∧ c = tabs_get tabId) ∨ (∃ groupId, c = tabGroups_get groupId).
Proof.
  revert existing wasCollapsed w.
  induction tabIds as [|tabId rest IH]; intros existing wasCollapsed w; simpl.
  { by intros ?%not_elem_of_nil. }
  assert (∀ e wc w', c ∈ issued (findExistingGroup api rest e wc w') →
            (∃ t, t ∈ tabId :: rest ∧ c = tabs_get t) ∨ (∃ g, c = tabGroups_get g)) as IH'.
  { intros e wc w' [(t & Ht & ->)|Hg]%IH; [left; exists t; split; [by right|done]|by right]. }
  assert (c = tabs_get tabId →
          (∃ t, t ∈ tabId :: rest ∧ c = tabs_get t) ∨ (∃ g, c = tabGroups_get g)) as Hget.
  { intros ->. left. exists tabId. split; [left|done]. }
  unfold mbind, M_bind, bind, attempt, await.
  destruct (api w (tabs_get tabId)) as [[tab|] w1]; simpl.
  - destruct (negb (chrome.groupId tab =? -1)); simpl.
    + destruct (api w1 (tabGroups_get (chrome.groupId tab))) as [[groupInfo|] w2]; simpl;
        rewrite ?elem_of_cons, ?elem_of_app, ?elem_of_cons, ?elem_of_nil;
        intros H; destruct_or!; try done;
        first [by apply Hget|by eapply IH'|right; by eexists].
    + rewrite elem_of_cons. intros [?|Hin]; [by apply Hget|by eapply IH'].
  - rewrite elem_of_cons. intros [?|Hin]; [by apply Hget|by eapply IH'].
Qed.

Lemma not_yet_members_subset (members : list chrome.Tab) (selected : list Z) tabId :
  tabId ∈ not_yet_members members selected → tabId ∈ selected.
Proof. by intros [? _]%not_yet_members_spec. Qed.

Lemma joinGroup_within (existing : option Z) (selected : list Z) (w : W) c :
  selected ≠ [] →
  c ∈ issued (joinGroup api existing selected w) →
  (∃ groupId, c = tabs_query_groupId groupId) ∨
  (∃ target tabIds, c = tabs_group target tabIds ∧ tabIds ≠ [] ∧
                    ∀ tabId, tabId ∈ tabIds → tabId ∈ selected).
Proof.
  intros Hsel. destruct existing as [groupId|].
  - rewrite joinGroup_existing_run.
    destruct (api w (tabs_query_groupId groupId)) as [[members|] w1].
    + pose proof (not_yet_members_subset members selected) as Hsub.
      destruct (not_yet_members members selected) as [|t ts]; cbv beta iota zeta.
      * simpl. rewrite elem_of_cons, elem_of_nil. intros [->|[]]. left. by eexists.
      * assert (c ∈ [tabs_query_groupId groupId; tabs_group (Some groupId) (t :: ts)] →
                (∃ g, c = tabs_query_groupId g) ∨
                (∃ target tabIds, c = tabs_group target tabIds ∧ tabIds ≠ [] ∧
                   ∀ tabId, tabId ∈ tabIds → tabId ∈ selected)) as Hboth.
        { rewrite !elem_of_cons, elem_of_nil. intros [->|[->|[]]]; [left; by eexists|].
          right. by eexists _, _. }
        by destruct (api w1 (tabs_group (Some groupId) (t :: ts))) as [[g|] w2].
    + simpl. rewrite elem_of_cons, elem_of_nil. intros [->|[]]. left. by eexists.
  - rewrite joinGroup_new_run. simpl. rewrite elem_of_cons, elem_of_nil.
    intros [->|[]]. right. by eexists _, _.
Qed.

(** The calls issued for one suggestion, in order: those of the loop over
    the deselected tabs, the lookups of the scan, the calls of the join, and
    at most one update, last. *)
Lemma organizeGroup_issued (group : GroupSuggestion) (w : W) c :
  c ∈ issued (organizeGroup api group w) → call_within group c.
Proof.
  destruct (organizeGroup_phases api group w) as (_ & _ & _ & ->).
  rewrite elem_of_app. intros [Hin|Hin].
  - rewrite ungroupPhase_loop in Hin.
    apply ungroup_loop_within in Hin. destruct Hin as (tabId & Ht & [Hc|Hc]);
      subst c; simpl; [|done].
    by apply unselectedTabIds_subset.
  - destruct (decide (selectedTabIds group = [])) as [Hnil|Hsel].
    { rewrite groupPhase_nothing_selected in Hin by done. by apply not_elem_of_nil in Hin. }
    rewrite groupPhase_run in Hin by done. cbv zeta in Hin.
    set (w0 := world (ungroupPhase api group w)) in *.
    assert (∀ c', c' ∈ issued (findExistingGroup api (selectedTabIds group) None false w0) →
                  call_within group c') as Hscan.
    { intros c' [(t & Ht & ->)|(g & ->)]%findExistingGroup_within; simpl; [|done].
      by apply selectedTabIds_subset. }
    assert (∀ e w' c', c' ∈ issued (joinGroup api e (selectedTabIds group) w') →
                       call_within group c') as Hjoin.
    { intros e w' c' [(g & ->)|(t & ids & -> & Hne & Hsub)]%joinGroup_within; by simpl. }
    destruct (outcome (findExistingGroup api _ None false w0)) as [[existing wasCollapsed]|];
      [|by apply Hscan].
    destruct (outcome (joinGroup api existing _ _)) as [groupId|]; cbn [issued] in Hin.
    + rewrite await_issued, !elem_of_app, list_elem_of_singleton in Hin.
      destruct Hin as [Hin|[Hin|Hin]]; [by apply Hscan|by eapply Hjoin|by subst c].
    + rewrite elem_of_app in Hin. destruct Hin as [Hin|Hin]; [by apply Hscan|by eapply Hjoin].
Qed.

Lemma reconcile_issued (groups : list GroupSuggestion) (w : W) c :
  c ∈ issued (reconcile api groups w) → ∃ group, group ∈ groups ∧ call_within group c.
Proof.
  unfold reconcile. revert w. induction groups as [|group groups IH]; intros w; simpl.
  { by intros ?%not_elem_of_nil. }
  rewrite bind_run.
  destruct (outcome (organizeGroup api group w)) as [[]|]; simpl.
  - rewrite elem_of_app. intros [Hin|Hin].
    + exists group. split; [left|by apply organizeGroup_issued in Hin].
    + destruct (IH _ Hin) as (g & Hg & Hc). exists g. split; [by right|done].
  - intros Hin. exists group. split; [left|by apply organizeGroup_issued in Hin].
Qed.
End CallsIssued.

Section Failures.
Context (new_URL : string → completion URL) {W : Type} (api : facility W).

Lemma raised_by_unguarded_bind {A B} (m : M W A) (k : A → M W B) (w : W) :
  raised_by_unguarded (m w) → (∀ a w', raised_by_unguarded (k a w')) →
  raised_by_unguarded ((m ≫= k) w).
Proof.
  unfold raised_by_unguarded. intros Hm Hk. rewrite bind_run.
  destruct (outcome (m w)) as [a|] eqn:Hout; cbn [outcome issued]; [|by intros _; apply Hm].
  intros (c & Hlast & Hc)%Hk. exists c. by rewrite last_app, Hlast.
Qed.

Lemma raised_by_unguarded_normal {A} (r : Run W A) a :
  outcome r = Normal a → raised_by_unguarded r.
Proof. unfold raised_by_unguarded. by intros ->. Qed.

Lemma raised_by_unguarded_await (c : call) (w : W) :
  is_unguarded c = true → raised_by_unguarded (await api c w).
Proof. intros Hc _. exists c. by rewrite await_issued. Qed.

Lemma joinGroup_raised (existing : option Z) (selected : list Z) (w : W) :
  raised_by_unguarded (joinGroup api existing selected w).
Proof.
  destruct existing as [groupId|].
  - rewrite joinGroup_existing_run.
    destruct (api w (tabs_query_groupId groupId)) as [[members|] w1].
    + destruct (not_yet_members members selected) as [|t ts]; cbv beta iota zeta; [done|].
      destruct (api w1 (tabs_group (Some groupId) (t :: ts))) as [[g|] w2]; [done|].
      intros _. by eexists.
    + intros _. by eexists.
  - rewrite joinGroup_new_run. intros _. by eexists.
Qed.

Lemma organizeGroup_raised (group : GroupSuggestion) (w : W) :
  raised_by_unguarded (organizeGroup api group w).
Proof.
  apply raised_by_unguarded_bind.
  { eapply raised_by_unguarded_normal, organizeGroup_phases. }
  intros [] w1. unfold groupPhase.
  destruct (0 <? length (selectedTabIds group))%nat; [|done].
  apply raised_by_unguarded_bind.
  { destruct (findExistingGroup_run api (selectedTabIds group) None false w1)
      as ((found & Hfound) & _). by eapply raised_by_unguarded_normal. }
  intros [existing wasCollapsed] w2. apply raised_by_unguarded_bind.
  { apply joinGroup_raised. }
  intros groupId w3.
  exact (raised_by_unguarded_await (tabGroups_update groupId _ "grey" wasCollapsed) w3 eq_refl).
Qed.

Lemma reconcile_raised (groups : list GroupSuggestion) (w : W) :
  raised_by_unguarded (reconcile api groups w).
Proof.
  unfold reconcile. revert w. induction groups as [|group groups IH]; intros w; [done|].
  simpl. apply raised_by_unguarded_bind; [apply organizeGroup_raised|]. intros _ w'. apply IH.
Qed.

Lemma resync_loop_normal (tabs : list chrome.Tab) maps (w : W) :
  ∃ maps', outcome (for_of_state tabs (resync_step new_URL api) maps w) = Normal maps'.
Proof.
  revert maps w. induction tabs as [|tab tabs IH]; intros maps w; [by eexists|].
  simpl. rewrite bind_run.
  assert (∃ m, outcome (resync_step new_URL api maps tab w) = Normal m) as [m Hm].
  { destruct maps as [groupMap hostMap]. unfold resync_step.
    destruct (actionable tab); [|by eexists].
    destruct (negb (chrome.groupId tab =? -1)); [|by eexists].
    rewrite bind_run. destruct (negb (Map_has groupMap (chrome.groupId tab))); [|by eexists].
    unfold mbind, M_bind, bind, attempt, await.
    destruct (api w (tabGroups_get (chrome.groupId tab))) as [[groupInfo|] w1]; by eexists. }
  rewrite Hm. cbn [outcome]. apply IH.
Qed.

Lemma organize_body_raised (groups : list GroupSuggestion) (w : W) :
  raised_by_unguarded (organize_body new_URL api groups w).
Proof.
  apply raised_by_unguarded_bind; [apply reconcile_raised|]. intros _ w1.
  apply raised_by_unguarded_bind;
    [exact (raised_by_unguarded_await tabs_query_currentWindow w1 eq_refl)|]. intros tabs w2.
  apply raised_by_unguarded_bind; [|done].
  destruct (resync_loop_normal (filterTabs tabs) ([], []) w2) as [maps' Hmaps].
  by eapply raised_by_unguarded_normal.
Qed.

(** [handleOrganizeTabs] shows its failure notice only when a call awaited
    outside the inner [try] blocks is rejected: if the handler did not
    replace the model, the last call it issued is a membership query, a
    [chrome.tabs.group], a [chrome.tabGroups.update] or the listing query.
    The rejection of a tab lookup, a group lookup or an ungroup never ends
    the run. *)
Theorem failure_follows_unguarded_call (state state' : AppState) (w : W) :
  let r := handleOrganizeTabs new_URL api state w in
  outcome r = Normal state' →
  alerts state' ≠ alerts state →
  organized state' = organized state ∧ groups state' = groups state ∧
  ∃ c, last (issued r) = Some c ∧ is_unguarded c = true.
Proof.
  cbv zeta. unfold handleOrganizeTabs, try_catch. rewrite bind_run.
  pose proof (organize_body_raised (groups state) w) as Hraised.
  destruct (outcome (organize_body new_URL api (groups state) w)) as [newGroups|] eqn:Hbody;
    cbn [outcome issued world mret M_ret ret].
  - by intros [= <-].
  - intros [= <-] _. split; [done|]. split; [done|].
    rewrite app_nil_r. by apply Hraised.
Qed.
End Failures.

Lemma failure_follows_unguarded_call_witness :
  let state := {| groups := [two_tab_group true false false]; organized := false;
                  alerts := [] |} in
  let r := handleOrganizeTabs example_URL browser state closed_tab_window in
  ∃ state', outcome r = Normal state' ∧ alerts state' ≠ alerts state ∧
            last (issued r) = Some (tabs_group None [1]) ∧
            ∃ c, last (issued r) = Some c ∧ is_unguarded c = true.
Proof.
  eexists. split; [vm_compute; reflexivity|]. split; [done|]. split; [vm_compute; reflexivity|].
  eapply (failure_follows_unguarded_call example_URL browser
            {| groups := [two_tab_group true false false]; organized := false;
               alerts := [] |} _ closed_tab_window); [vm_compute; reflexivity|done].
Defined.

Lemma no_selected_tab_ids (groups : list GroupSuggestion) group :
  hasSelectedTabs groups = false → group ∈ groups → selectedTabIds group = [].
Proof.
  unfold hasSelectedTabs, selectedTabIds. intros Hnone Hin.
  assert (existsb selected (tabs group) = false) as Hgroup.
  { destruct (existsb selected (tabs group)) eqn:Hex; [|done].
    rewrite <- Hnone. symmetry. apply existsb_exists. exists group.
    split; [by apply list_elem_of_In|done]. }
  induction (tabs group) as [|tab l IH]; [done|].
  simpl in *. apply orb_false_iff in Hgroup as [-> Hl]. by apply IH.
Qed.

Lemma call_within_nothing_selected (group : GroupSuggestion) (c : call) :
  selectedTabIds group = [] → call_within group c → is_get_or_ungroup c = true.
Proof.
  intros Hsel. destruct c as [| | | | |target tabIds|]; simpl; try done; try tauto.
  intros [Hne Hsub]. destruct tabIds as [|tabId tabIds]; [done|].
  specialize (Hsub tabId). rewrite Hsel in Hsub. apply not_elem_of_nil in Hsub; [done|left].
Qed.

(** When no tab of the model is selected, reconciliation cannot fail and
    creates, extends or renames no group: it issues tab lookups and ungroup
    calls only, and ends normally whatever the browser answers. *)
Theorem nothing_selected_only_ungroups {W} (api : facility W)
    (groups : list GroupSuggestion) (w : W) :
  hasSelectedTabs groups = false →
  outcome (reconcile api groups w) = Normal tt ∧
  forallb is_get_or_ungroup (issued (reconcile api groups w)) = true.
Proof.
  intros Hnone.
  assert (∀ c, c ∈ issued (reconcile api groups w) → is_get_or_ungroup c = true) as Hcalls.
  { intros c (group & Hg & Hwithin)%reconcile_issued.
    eapply call_within_nothing_selected; [|done].
    by eapply no_selected_tab_ids. }
  split.
  - pose proof (reconcile_raised api groups w) as Hraised.
    destruct (outcome (reconcile api groups w)) as [[]|] eqn:Hout; [done|].
    destruct (Hraised Hout) as (c & Hlast & Hc).
    assert (is_get_or_ungroup c = true) as Hget.
    { apply Hcalls. apply last_Some in Hlast as [l ->].
      rewrite elem_of_app, list_elem_of_singleton. by right. }
    by destruct c.
  - apply forallb_forall. intros c Hin%list_elem_of_In. by apply Hcalls.
Qed.

Lemma nothing_selected_only_ungroups_witness :
  let groups := [two_tab_group false false false] in
  hasSelectedTabs groups = false ∧
  issued (reconcile browser groups two_groups_window)
    = [tabs_get 1; tabs_ungroup 1; tabs_get 2; tabs_ungroup 2] ∧
  outcome (reconcile browser groups two_groups_window) = Normal tt ∧
  forallb is_get_or_ungroup (issued (reconcile browser groups two_groups_window)) = true.
Proof.
  split; [reflexivity|]. split; [vm_compute; reflexivity|].
  apply (nothing_selected_only_ungroups browser [two_tab_group false false false]
           two_groups_window).
  reflexivity.
Defined.

(** ** The rebuilt model mirrors the browser's groups *)

Section JsMapKeys.
Context {K V : Type} `{EqDecision K}.
Implicit Types (m : JsMap K V) (k : K).

Lemma Map_has_keys m k : Map_has m k = true ↔ k ∈ m.*1.
Proof.
  unfold Map_has. rewrite existsb_exists, list_elem_of_fmap. split.
  - intros (e & Hin%list_elem_of_In & He%bool_decide_eq_true). by exists e.
  - intros (e & -> & Hin%list_elem_of_In). exists e. by rewrite bool_decide_eq_true.
Qed.

Lemma Map_set_absent m k v : k ∉ m.*1 → Map_set m k v = m ++ [(k, v)].
Proof.
  induction m as [|[k' v'] m IH]; simpl; [done|].
  rewrite not_elem_of_cons. intros [Hne Hnin].
  rewrite decide_False by done. by rewrite IH.
Qed.

Lemma Map_update_keys m k f : (Map_update m k f).*1 = m.*1.
Proof.
  induction m as [|[k' v'] m IH]; simpl; [done|].
  destruct (decide (k' = k)); csimpl; [done|]. by rewrite IH.
Qed.

Lemma Map_update_absent m k f : k ∉ m.*1 → Map_update m k f = m.
Proof.
  induction m as [|[k' v'] m IH]; simpl; [done|].
  rewrite not_elem_of_cons. intros [Hne Hnin].
  rewrite decide_False by done. by rewrite IH.
Qed.

Lemma Map_update_last m k v f : k ∉ m.*1 → Map_update (m ++ [(k, v)]) k f = m ++ [(k, f v)].
Proof.
  induction m as [|[k' v'] m IH]; simpl.
  - intros _. by rewrite decide_True.
  - rewrite not_elem_of_cons. intros [Hne Hnin].
    rewrite decide_False by done. by rewrite IH.
Qed.

(** With distinct keys, an update touches the one entry of its key. *)
Lemma Map_update_entries m k f :
  NoDup m.*1 →
  Map_update m k f = (λ e, if decide (e.1 = k) then (e.1, f e.2) else e) <$> m.
Proof.
  induction m as [|[k' v'] m IH]; csimpl; [done|].
  rewrite NoDup_cons. intros [Hnin Hnd]. simpl. destruct (decide (k' = k)) as [->|Hne].
  - f_equal. rewrite <- (Map_update_absent m k f) at 1 by done. by apply IH.
  - f_equal. by apply IH.
Qed.
End JsMapKeys.

Lemma filter_none_true {A} (p : A → bool) (l : list A) :
  (∀ x, x ∈ l → p x = false) → List.filter p l = [].
Proof.
  induction l as [|x l IH]; intros Hall; [done|]. simpl.
  rewrite (Hall x) by left. apply IH. intros y Hy. apply Hall. by right.
Qed.

Lemma filter_filter_comm {A} (p q : A → bool) (l : list A) :
  List.filter p (List.filter q l) = List.filter q (List.filter p l).
Proof.
  induction l as [|x l IH]; [done|]. simpl.
  destruct (p x) eqn:Hp, (q x) eqn:Hq; simpl; rewrite ?Hp, ?Hq, IH; done.
Qed.

Section ResyncGroups.
Context (new_URL : string → completion URL) {W : Type} (api : facility W).
Implicit Types (groupMap : JsMap Z (string * list TabSummary))
               (hostMap : JsMap string (list TabSummary)).

Lemma ungrouped_snoc (seen : list chrome.Tab) (tab : chrome.Tab) hostMap :
  hostMap = fold_left (loadTabs_step new_URL) (ungrouped seen) [] →
  (if actionable tab && (chrome.groupId tab =? -1)
   then hostMap_push hostMap (hostname_key new_URL (default "" (chrome.url tab)))
          (tabSummary tab)
   else hostMap)
  = fold_left (loadTabs_step new_URL) (ungrouped (seen ++ [tab])) [].
Proof.
  intros ->. unfold ungrouped. rewrite List.filter_app. simpl.
  destruct (chrome.groupId tab =? -1).
  - rewrite fold_left_app. simpl. unfold loadTabs_step. by destruct (actionable tab).
  - by rewrite app_nil_r, andb_false_r.
Qed.

Lemma resync_inv_skipped seen maps (tab : chrome.Tab) :
  actionable tab = false → resync_inv new_URL seen maps →
  resync_inv new_URL (seen ++ [tab]) maps.
Proof.
  intros Hact (Hnd & Hkeys & Hbuckets & Hhm).
  unfold resync_inv. rewrite List.filter_app. simpl. rewrite Hact, app_nil_r.
  split; [done|]. split; [done|]. split; [done|].
  rewrite <- (ungrouped_snoc seen tab maps.2 Hhm). by rewrite Hact.
Qed.

Lemma resync_inv_ungrouped seen groupMap hostMap (tab : chrome.Tab) :
  actionable tab = true → chrome.groupId tab = -1 →
  resync_inv new_URL seen (groupMap, hostMap) →
  resync_inv new_URL (seen ++ [tab])
    (groupMap, hostMap_push hostMap (hostname_key new_URL (default "" (chrome.url tab)))
                 (tabSummary tab)).
Proof.
  intros Hact Hgid (Hnd & Hkeys & Hbuckets & Hhm). simpl in *.
  unfold resync_inv. rewrite List.filter_app. simpl. rewrite Hact.
  split; [done|]. split; [|split].
  - intros g. rewrite Hkeys.
    split; intros (Hg & t & Ht & Htg); (split; [done|]); exists t.
    + split; [|done]. rewrite elem_of_app. by left.
    + split; [|done]. apply elem_of_app in Ht as [Ht|Ht%list_elem_of_singleton]; [done|].
      subst t. congruence.
  - simpl. apply Forall_forall. intros e He.
    rewrite Forall_forall in Hbuckets. rewrite (Hbuckets e He), List.filter_app. simpl.
    assert (e.1 ≠ -1) as Hne.
    { apply (Hkeys e.1). by apply list_elem_of_fmap_2. }
    rewrite Hgid. destruct (Z.eqb_spec (-1) e.1); [congruence|]. by rewrite app_nil_r.
  - simpl. rewrite <- (ungrouped_snoc seen tab hostMap Hhm).
    by rewrite Hact, Hgid.
Qed.

Lemma resync_inv_grouped seen groupMap hostMap (tab : chrome.Tab) name :
  actionable tab = true → chrome.groupId tab ≠ -1 →
  resync_inv new_URL seen (groupMap, hostMap) →
  let groupMap' :=
    Map_update (if Map_has groupMap (chrome.groupId tab) then groupMap
                else Map_set groupMap (chrome.groupId tab) (name, []))
               (chrome.groupId tab)
               (λ groupData, (groupData.1, groupData.2 ++ [tabSummary tab])) in
  groupMap'.*1 = groupMap.*1 ++
                 (if Map_has groupMap (chrome.groupId tab) then [] else [chrome.groupId tab]) ∧
  resync_inv new_URL (seen ++ [tab]) (groupMap', hostMap).
Proof.
  intros Hact Hgid (Hnd & Hkeys & Hbuckets & Hhm). simpl in *.
  assert ((if actionable tab && (chrome.groupId tab =? -1)
           then hostMap_push hostMap (hostname_key new_URL (default "" (chrome.url tab)))
                  (tabSummary tab)
           else hostMap) = hostMap) as Hsame.
  { destruct (Z.eqb_spec (chrome.groupId tab) (-1)); [done|]. by rewrite andb_false_r. }
  pose proof (ungrouped_snoc seen tab hostMap Hhm) as Hhm'. rewrite Hsame in Hhm'.
  assert (∀ g, g ≠ -1 ∧ (∃ t, t ∈ List.filter actionable (seen ++ [tab]) ∧ chrome.groupId t = g)
               ↔ g ∈ groupMap.*1 ∨ g = chrome.groupId tab) as Hmet.
  { intros g. rewrite Hkeys, List.filter_app. simpl. rewrite Hact. split.
    - intros (Hg & t & [Ht|Ht%list_elem_of_singleton]%elem_of_app & Htg).
      + left. split; [done|]. by exists t.
      + right. by subst t.
    - intros [(Hg & t & Ht & Htg)| ->].
      + split; [done|]. exists t. split; [|done]. rewrite elem_of_app. by left.
      + split; [done|]. exists tab. split; [|done].
        rewrite elem_of_app, list_elem_of_singleton. by right. }
  destruct (Map_has groupMap (chrome.groupId tab)) eqn:Hhas.
  - apply Map_has_keys in Hhas. split; [by rewrite Map_update_keys, app_nil_r|].
    unfold resync_inv. simpl. rewrite Map_update_keys.
    split; [done|]. split; [|split; [|done]].
    + intros g. rewrite Hmet. split; [by left|]. by intros [?| ->].
    + rewrite Map_update_entries by done. apply Forall_fmap.
      eapply Forall_impl; [exact Hbuckets|]. intros [g [n l]] He. simpl in *.
      rewrite !List.filter_app. simpl. rewrite Hact. simpl.
      destruct (decide (g = chrome.groupId tab)) as [->|Hne]; simpl.
      * by rewrite Z.eqb_refl, fmap_app, He.
      * destruct (Z.eqb_spec (chrome.groupId tab) g); [congruence|]. by rewrite app_nil_r.
  - assert (chrome.groupId tab ∉ groupMap.*1) as Hnin.
    { rewrite <- Map_has_keys. by rewrite Hhas. }
    rewrite Map_set_absent, Map_update_last by done.
    split; [by rewrite fmap_app|].
    unfold resync_inv. simpl. rewrite fmap_app. simpl.
    split; [|split; [|split; [|done]]].
    + apply NoDup_app. split; [done|]. split; [|apply NoDup_singleton].
      intros g Hg ->%list_elem_of_singleton. done.
    + intros g. rewrite Hmet, elem_of_app, list_elem_of_singleton. done.
    + apply Forall_app. split.
      * apply Forall_forall. intros e He. rewrite Forall_forall in Hbuckets.
        rewrite (Hbuckets e He), !List.filter_app. simpl. rewrite Hact. simpl.
        destruct (Z.eqb_spec (chrome.groupId tab) e.1) as [Heq|]; [|by rewrite app_nil_r].
        destruct Hnin. rewrite Heq. by apply list_elem_of_fmap_2.
      * apply Forall_singleton. simpl. rewrite !List.filter_app. simpl.
        rewrite Hact. simpl. rewrite Z.eqb_refl.
        rewrite filter_none_true; [done|]. intros t Ht.
        destruct (Z.eqb_spec (chrome.groupId t) (chrome.groupId tab)) as [Heq|]; [|done].
        destruct Hnin. apply Hkeys. split; [done|]. by exists t.
Qed.

Lemma resync_step_inv seen maps (tab : chrome.Tab) (w : W) :
  resync_inv new_URL seen maps →
  ∃ maps' met,
    outcome (resync_step new_URL api maps tab w) = Normal maps' ∧
    issued (resync_step new_URL api maps tab w) = tabGroups_get <$> met ∧
    maps'.1.*1 = maps.1.*1 ++ met ∧
    resync_inv new_URL (seen ++ [tab]) maps'.
Proof.
  intros Hinv. destruct maps as [groupMap hostMap]. unfold resync_step.
  destruct (actionable tab) eqn:Hact.
  2:{ exists (groupMap, hostMap), []. simpl. rewrite app_nil_r.
      split; [done|]. split; [done|]. split; [done|]. by apply resync_inv_skipped. }
  destruct (Z.eqb_spec (chrome.groupId tab) (-1)) as [Hgid|Hgid]; simpl.
  { eexists _, []. simpl. rewrite app_nil_r.
    split; [done|]. split; [done|]. split; [done|]. by apply resync_inv_ungrouped. }
  pose proof (λ name, resync_inv_grouped seen groupMap hostMap tab name Hact Hgid Hinv) as Hg.
  cbv zeta in Hg. unfold mbind, M_bind, bind, attempt, await, mret, M_ret, ret.
  destruct (Map_has groupMap (chrome.groupId tab)); simpl.
  - destruct (Hg "") as [Hkeys Hinv']. eexists _, [].
    split; [done|]. split; [done|]. split; [exact Hkeys|exact Hinv'].
  - destruct (api w (tabGroups_get (chrome.groupId tab))) as [[groupInfo|] w1]; simpl.
    + destruct (Hg (or_else (chrome.group_title groupInfo)
                      (hostname_key new_URL (default "" (chrome.url tab)))))
        as [Hkeys Hinv'].
      eexists _, [chrome.groupId tab].
      split; [done|]. split; [done|]. split; [exact Hkeys|exact Hinv'].
    + destruct (Hg (hostname_key new_URL (default "" (chrome.url tab)))) as [Hkeys Hinv'].
      eexists _, [chrome.groupId tab].
      split; [done|]. split; [done|]. split; [exact Hkeys|exact Hinv'].
Qed.

Lemma resync_loop_inv (tabs seen : list chrome.Tab) maps (w : W) :
  resync_inv new_URL seen maps →
  ∃ maps' met,
    outcome (for_of_state tabs (resync_step new_URL api) maps w) = Normal maps' ∧
    issued (for_of_state tabs (resync_step new_URL api) maps w) = tabGroups_get <$> met ∧
    maps'.1.*1 = maps.1.*1 ++ met ∧
    resync_inv new_URL (seen ++ tabs) maps'.
Proof.
  revert seen maps w. induction tabs as [|tab tabs IH]; intros seen maps w Hinv.
  { exists maps, []. simpl. by rewrite !app_nil_r. }
  simpl. destruct (resync_step_inv seen maps tab w Hinv) as (maps1 & met1 & H1 & Hi1 & Hk1 & Hinv1).
  destruct (bind_normal _ (λ maps', for_of_state tabs (resync_step new_URL api) maps')
              w maps1 H1) as (-> & _ & ->).
  destruct (IH _ maps1 (world (resync_step new_URL api maps tab w)) Hinv1)
    as (maps2 & met2 & H2 & Hi2 & Hk2 & Hinv2).
  exists maps2, (met1 ++ met2). split; [exact H2|].
  rewrite Hi1, Hi2, Hk2, Hk1, fmap_app, <- !app_assoc. split; [done|]. split; [done|].
  by rewrite <- app_assoc in Hinv2.
Qed.

Lemma resync_inv_initial : resync_inv new_URL [] ([], []).
Proof.
  split; [constructor|]. split; [|split; [constructor|done]].
  intros g. simpl. split; [by intros ?%not_elem_of_nil|].
  by intros (_ & t & ?%not_elem_of_nil & _).
Qed.

(** The resync reads and never writes. *)
Lemma resync_issued (w : W) (c : call) :
  c ∈ issued (resync new_URL api w) →
  c = tabs_query_currentWindow ∨ ∃ groupId, c = tabGroups_get groupId.
Proof.
  unfold resync, mbind, M_bind, bind, await.
  destruct (api w tabs_query_currentWindow) as [[listing|] w1]; cbn [outcome world issued].
  - destruct (resync_loop_inv (filterTabs listing) [] ([], []) w1 resync_inv_initial)
      as (maps & met & Hout & Hissued & _).
    rewrite Hout, Hissued. cbn [outcome world issued mret M_ret ret].
    rewrite app_nil_r, elem_of_app, list_elem_of_singleton, list_elem_of_fmap.
    intros [->|(g & -> & _)]; [by left|right; by exists g].
  - rewrite list_elem_of_singleton. by left.
Qed.

Lemma first_met_elem_of (groupIds : list Z) g : g ∈ first_met groupIds ↔ g ∈ groupIds.
Proof.
  induction groupIds as [|g' groupIds IH]; simpl; [done|].
  rewrite !elem_of_cons, list_elem_of_filter, IH.
  destruct (decide (g = g')); naive_solver.
Qed.

Lemma first_met_snoc (groupIds : list Z) g :
  first_met (groupIds ++ [g]) =
    if decide (g ∈ groupIds) then first_met groupIds else first_met groupIds ++ [g].
Proof.
  induction groupIds as [|g' groupIds IH]; simpl; [done|].
  rewrite IH. destruct (decide (g ∈ groupIds)) as [Hin|Hnin].
  - rewrite decide_True; [done|by right].
  - rewrite filter_app. destruct (decide (g = g')) as [->|Hne].
    + rewrite decide_True by left. rewrite filter_cons_False by naive_solver.
      simpl. by rewrite app_nil_r.
    + rewrite decide_False by (rewrite elem_of_cons; naive_solver).
      by rewrite filter_cons_True.
Qed.

Lemma groups_met_keys (keptTabs : list chrome.Tab) :
  (groups_met new_URL keptTabs).*1 = first_met (chrome.groupId <$> grouped keptTabs).
Proof.
  unfold groups_met. rewrite <- list_fmap_compose.
  etransitivity; [by apply list_fmap_ext|apply list_fmap_id].
Qed.

Lemma elem_of_groups_met (keptTabs : list chrome.Tab) g :
  g ∈ (groups_met new_URL keptTabs).*1 ↔
  g ≠ -1 ∧ ∃ tab, tab ∈ keptTabs ∧ chrome.groupId tab = g.
Proof.
  rewrite groups_met_keys, first_met_elem_of, list_elem_of_fmap. unfold grouped. split.
  - intros (tab & -> & [Hin Hg%negb_true_iff%Z.eqb_neq]%list_elem_of_In%filter_In).
    split; [done|]. exists tab. split; [by apply list_elem_of_In|done].
  - intros (Hg & tab & Hin & <-). exists tab. split; [done|].
    apply list_elem_of_In, filter_In. split; [by apply list_elem_of_In|].
    by apply negb_true_iff, Z.eqb_neq.
Qed.

(** Later tabs do not change the key of a group that has been met. *)
Lemma first_key_app (keptTabs more : list chrome.Tab) g :
  (∃ tab, tab ∈ keptTabs ∧ chrome.groupId tab = g) →
  first_key new_URL g (keptTabs ++ more) = first_key new_URL g keptTabs.
Proof.
  intros (tab & Hin & Hg). unfold first_key. rewrite List.filter_app.
  destruct (List.filter (λ tab, chrome.groupId tab =? g) keptTabs) as [|t l] eqn:Hf; [|done].
  exfalso. assert (In tab []) as []. rewrite <- Hf. apply filter_In.
  split; [by apply list_elem_of_In|]. by apply Z.eqb_eq.
Qed.

Lemma groups_met_snoc (keptTabs : list chrome.Tab) (tab : chrome.Tab) :
  groups_met new_URL (keptTabs ++ [tab]) =
    if negb (chrome.groupId tab =? -1)
    then if decide (chrome.groupId tab ∈ (groups_met new_URL keptTabs).*1)
         then groups_met new_URL keptTabs
         else groups_met new_URL keptTabs ++ [(chrome.groupId tab, key_of new_URL tab)]
    else groups_met new_URL keptTabs.
Proof.
  assert (∀ l : list Z, (∀ g, g ∈ l → g ∈ (groups_met new_URL keptTabs).*1) →
               (λ g, (g, first_key new_URL g (keptTabs ++ [tab]))) <$> l
               = (λ g, (g, first_key new_URL g keptTabs)) <$> l) as Hsame.
  { intros l Hl. apply list_fmap_ext. intros i g Hi. f_equal. apply first_key_app.
    by eapply elem_of_groups_met, Hl, list_elem_of_lookup_2. }
  pose proof (groups_met_keys keptTabs) as Hkeys.
  unfold groups_met at 1. unfold grouped. rewrite List.filter_app. simpl.
  destruct (Z.eqb_spec (chrome.groupId tab) (-1)) as [Hg|Hg]; simpl.
  - rewrite app_nil_r. apply Hsame. intros g. by rewrite Hkeys.
  - rewrite fmap_app. simpl. rewrite first_met_snoc, Hkeys.
    destruct (decide (chrome.groupId tab ∈ chrome.groupId <$> _)) as [Hin|Hnin].
    + rewrite decide_True by (by apply first_met_elem_of).
      apply Hsame. intros g. by rewrite Hkeys.
    + rewrite decide_False by (by rewrite first_met_elem_of).
      rewrite fmap_app. f_equal; [apply Hsame; intros g; by rewrite Hkeys|].
      simpl. do 2 f_equal. unfold first_key. rewrite List.filter_app. simpl.
      rewrite Z.eqb_refl. rewrite filter_none_true; [done|].
      intros t Ht. apply Z.eqb_neq. intros Heq. apply Hnin.
      apply list_elem_of_fmap. exists t. split; [done|].
      apply list_elem_of_In, filter_In. split; [by apply list_elem_of_In|].
      apply negb_true_iff, Z.eqb_neq. congruence.
Qed.

Lemma lookup_names_keys (met : list (Z * string)) (w : W) :
  (lookup_names api met w).1.*1 = met.*1.
Proof.
  revert w. induction met as [|[g key] met IH]; intros w; simpl; [done|].
  destruct (api w (tabGroups_get g)) as [answer w1]. specialize (IH w1).
  destruct (lookup_names api met w1) as [named w2]. csimpl in *. by f_equal.
Qed.

Lemma lookup_names_snoc (met : list (Z * string)) g key (w : W) :
  lookup_names api (met ++ [(g, key)]) w =
    ((lookup_names api met w).1
       ++ [(g, group_name (api (lookup_names api met w).2 (tabGroups_get g)).1 key)],
     (api (lookup_names api met w).2 (tabGroups_get g)).2).
Proof.
  revert w. induction met as [|[g' key'] met IH]; intros w; simpl.
  - by destruct (api w (tabGroups_get g)) as [answer w1].
  - destruct (api w (tabGroups_get g')) as [answer w1]. rewrite IH.
    by destruct (lookup_names api met w1) as [named w2].
Qed.

Lemma names_of_update groupMap g (summary : TabSummary) :
  names_of (Map_update groupMap g (λ groupData, (groupData.1, groupData.2 ++ [summary])))
  = names_of groupMap.
Proof.
  unfold names_of. induction groupMap as [|[g' [name l]] groupMap IH]; simpl; [done|].
  destruct (decide (g' = g)); csimpl; [done|]. by rewrite IH.
Qed.

Lemma names_of_keys groupMap : (names_of groupMap).*1 = groupMap.*1.
Proof. unfold names_of. rewrite <- list_fmap_compose. by apply list_fmap_ext. Qed.

(** The names in the map are those of the lookups made so far, and the
    browser is in the state they left. *)
Lemma resync_step_names (w0 : W) seen groupMap hostMap (tab : chrome.Tab) (w : W) :
  names_of groupMap
    = (lookup_names api (groups_met new_URL (List.filter actionable seen)) w0).1 →
  w = (lookup_names api (groups_met new_URL (List.filter actionable seen)) w0).2 →
  let r := resync_step new_URL api (groupMap, hostMap) tab w in
  ∃ maps', outcome r = Normal maps' ∧
    names_of maps'.1
      = (lookup_names api (groups_met new_URL (List.filter actionable (seen ++ [tab]))) w0).1 ∧
    world r
      = (lookup_names api (groups_met new_URL (List.filter actionable (seen ++ [tab]))) w0).2.
Proof.
  intros Hnames Hw. cbv zeta. unfold resync_step. rewrite List.filter_app. simpl.
  destruct (actionable tab) eqn:Hact.
  2:{ rewrite app_nil_r. by eexists. }
  rewrite groups_met_snoc.
  assert (Map_has groupMap (chrome.groupId tab) = true ↔
          chrome.groupId tab ∈ (groups_met new_URL (List.filter actionable seen)).*1) as Hhas.
  { by rewrite Map_has_keys, <- names_of_keys, Hnames, lookup_names_keys. }
  destruct (negb (chrome.groupId tab =? -1)).
  2:{ by eexists. }
  unfold mbind, M_bind, bind, attempt, await, mret, M_ret, ret.
  destruct (Map_has groupMap (chrome.groupId tab)) eqn:Hmap; simpl.
  - rewrite decide_True by (by apply Hhas). eexists. split; [reflexivity|].
    simpl. by rewrite names_of_update.
  - assert (chrome.groupId tab ∉ groupMap.*1) as Hnin.
    { rewrite <- Map_has_keys. by rewrite Hmap. }
    rewrite decide_False by (rewrite <- Hhas; congruence).
    rewrite lookup_names_snoc, <- Hw, <- Hnames.
    destruct (api w (tabGroups_get (chrome.groupId tab))) as [[groupInfo|] w1]; simpl;
      (eexists; split; [reflexivity|]); simpl;
      rewrite Map_set_absent, Map_update_last by done;
      unfold names_of; by rewrite fmap_app.
Qed.

Lemma resync_loop_names (w0 : W) (tabs seen : list chrome.Tab) maps (w : W) :
  names_of maps.1
    = (lookup_names api (groups_met new_URL (List.filter actionable seen)) w0).1 →
  w = (lookup_names api (groups_met new_URL (List.filter actionable seen)) w0).2 →
  let r := for_of_state tabs (resync_step new_URL api) maps w in
  ∃ maps', outcome r = Normal maps' ∧
    names_of maps'.1
      = (lookup_names api (groups_met new_URL (List.filter actionable (seen ++ tabs))) w0).1 ∧
    world r
      = (lookup_names api (groups_met new_URL (List.filter actionable (seen ++ tabs))) w0).2.
Proof.
  cbv zeta. revert seen maps w. induction tabs as [|tab tabs IH]; intros seen maps w Hn Hw.
  { exists maps. rewrite app_nil_r. by split. }
  simpl. destruct maps as [groupMap hostMap].
  destruct (resync_step_names w0 seen groupMap hostMap tab w Hn Hw) as (maps1 & H1 & Hn1 & Hw1).
  destruct (bind_normal _ (λ maps', for_of_state tabs (resync_step new_URL api) maps')
              w maps1 H1) as (-> & -> & _).
  destruct (IH (seen ++ [tab]) maps1 _ Hn1 Hw1) as (maps2 & H2 & Hn2 & Hw2).
  exists maps2. rewrite <- app_assoc in Hn2, Hw2. by split.
Qed.

(** What the resync of [handleOrganizeTabs] builds when the listing query
    is answered.  It looks up each group of the listing once, in the order
    in which the groups are first met among the kept tabs, and issues no
    other call.  The rebuilt array holds first one suggestion per group, in
    that same order: its tabs are the kept tabs of the group in listing
    order, whatever their hostnames, and its name, which is also its custom
    name, is the title the lookup of the group answered, or the hostname key
    of the first kept tab of the group when that title is empty or the
    lookup is rejected.  Then comes the fresh build of the tabs outside
    every group. *)
Theorem resync_mirrors_browser_groups (w : W) :
  match api w tabs_query_currentWindow with
  | (Thrown, _) => outcome (resync new_URL api w) = Thrown
  | (Normal listing, w1) =>
      let met := groups_met new_URL (kept listing) in
      let named := (lookup_names api met w1).1 in
      met.*1 = first_met (chrome.groupId <$> grouped (kept listing)) ∧
      named.*1 = met.*1 ∧
      NoDup named.*1 ∧
      (∀ groupId, groupId ∈ named.*1 ↔
         groupId ≠ -1 ∧ ∃ tab, tab ∈ kept listing ∧ chrome.groupId tab = groupId) ∧
      issued (resync new_URL api w)
        = tabs_query_currentWindow :: (tabGroups_get <$> named.*1) ∧
      world (resync new_URL api w) = (lookup_names api met w1).2 ∧
      outcome (resync new_URL api w)
        = Normal ((mirrored_group listing <$> named)
                  ++ loadTabs_groups new_URL (ungrouped listing))
  end.
Proof.
  unfold resync, mbind, M_bind, bind, await.
  destruct (api w tabs_query_currentWindow) as [[listing|] w1]; simpl; [|done].
  destruct (resync_loop_inv (filterTabs listing) [] ([], []) w1 resync_inv_initial)
    as ([groupMap hostMap] & met & Hout & Hissued & Hkeys & Hnd & Hmet & Hbuckets & Hhm).
  destruct (resync_loop_names w1 (filterTabs listing) [] ([], []) w1 eq_refl eq_refl)
    as (maps' & Hout' & Hnames & Hworld).
  rewrite Hout in Hout'. injection Hout' as <-.
  simpl in *. fold (kept listing) in Hnames, Hworld.
  rewrite Hout, Hissued, Hworld, <- Hnames, names_of_keys. simpl.
  rewrite app_nil_r.
  split; [apply groups_met_keys|].
  split; [by rewrite <- names_of_keys, Hnames, lookup_names_keys|].
  split; [done|]. split; [exact Hmet|]. split; [by rewrite Hkeys|]. split; [done|].
  f_equal. unfold newGroups. simpl. f_equal.
  - unfold names_of. rewrite <- list_fmap_compose. apply Forall_fmap_ext.
    eapply Forall_impl; [exact Hbuckets|]. intros [g [n l]] He. simpl in *.
    unfold mirrored_group, tabs_in_group, kept. simpl. by rewrite He.
  - unfold loadTabs_groups, loadTabs_hostMap. rewrite Hhm. unfold ungrouped, filterTabs.
    by rewrite filter_filter_comm.
Qed.

(** The window of the examples: groups 10 and 11 are met in this order, and
    each suggestion carries the title of its group. *)
Example resync_mirrors_scenario :
  outcome (resync example_URL browser scenario_window)
  = Normal [ {| host := "a.com"; tabs := [tabSummary (example_tab 1 "https://a.com/1" 10)];
                groupSelected := true; customName := Some "a.com" |};
             {| host := "b.com"; tabs := [tabSummary (example_tab 2 "https://b.com/1" 11)];
                groupSelected := true; customName := Some "b.com" |};
             {| host := "a.com"; tabs := [tabSummary (example_tab 3 "https://a.com/3" (-1))];
                groupSelected := true; customName := None |} ] ∧
  issued (resync example_URL browser scenario_window)
  = [tabs_query_currentWindow; tabGroups_get 10; tabGroups_get 11].
Proof. by vm_compute. Qed.
End ResyncGroups.

(** ** The view *)

Lemma displayed_title_length (title : string) :
  (length (displayed_title title) ≤ 53)%nat ∧
  ((length (utf16 title) ≤ 50)%nat → displayed_title title = utf16 title) ∧
  ((50 < length (utf16 title))%nat →
     displayed_title title = take 50 (utf16 title) ++ utf16 "..." ∧
     length (displayed_title title) = 53%nat).
Proof.
  unfold displayed_title.
  destruct (Nat.ltb_spec 50 (length (utf16 title))) as [Hlong|Hshort].
  - rewrite length_app, length_take.
    change (length (utf16 "...")) with 3%nat.
    split; [lia|]. split; [lia|]. intros _. split; [done|lia].
  - split; [lia|]. split; [done|lia].
Qed.

(** On texts of the ASCII range a code unit is a character. *)
Lemma utf16_ascii (s : string) :
  Forall (λ c, byte c < 128) (String.list_ascii_of_string s) →
  utf16 s = byte <$> String.list_ascii_of_string s.
Proof.
  unfold utf16. induction s as [|c s IH]; simpl; [done|].
  rewrite Forall_cons. intros [Hc Hs].
  destruct (Z.ltb_spec (byte c) 128) as [_|?]; [|lia]. csimpl.
  rewrite IH by done. unfold code_units.
  by destruct (Z.ltb_spec (byte c) 65536) as [_|?]; [|lia].
Qed.

(** Twenty ideographs (U+65E5) are sixty bytes and twenty code units: the
    title is shown whole.  Sixty of them are cut after the fiftieth.  A code
    point outside the basic plane (U+1F600) is four bytes and two code
    units. *)
Example displayed_title_ideographs :
  let day := String (ascii_of_nat 230) (String (ascii_of_nat 151)
               (String (ascii_of_nat 165) EmptyString)) in
  let face := String (ascii_of_nat 240) (String (ascii_of_nat 159)
                (String (ascii_of_nat 152) (String (ascii_of_nat 128) EmptyString))) in
  let twenty := String.concat "" (replicate 20 day) in
  let sixty := twenty +:+ twenty +:+ twenty in
  utf16 day = [26085] ∧
  utf16 face = [55357; 56832] ∧
  String.length twenty = 60%nat ∧
  displayed_title twenty = replicate 20 26085 ∧
  displayed_title sixty = replicate 50 26085 ++ [46; 46; 46].
Proof. vm_compute. done. Qed.

Lemma fmap_concat_list {A B} (f : A → B) (ls : list (list A)) :
  f <$> concat ls = concat ((λ l : list A, f <$> l) <$> ls).
Proof. induction ls as [|l ls IH]; csimpl; [done|]. by rewrite fmap_app, IH. Qed.

Lemma elem_of_concat_2 {A} (x : A) (l : list A) (ls : list (list A)) :
  x ∈ l → l ∈ ls → x ∈ concat ls.
Proof.
  intros Hx Hl. induction Hl; simpl; rewrite elem_of_app; [by left|right; auto].
Qed.

Lemma imap_render_group (active : option Z) (editing : option nat) {B}
    (f : GroupCard → B) (g : GroupSuggestion → B) (groups : list GroupSuggestion) :
  (∀ i group, f (render_group active editing i group) = g group) →
  f <$> imap (render_group active editing) groups = g <$> groups.
Proof.
  intros Hfg. rewrite fmap_imap, <- imap_const. apply imap_ext. intros i group _. apply Hfg.
Qed.

Lemma render_keys (active : option Z) (editing : option nat) (groups : list GroupSuggestion) :
  card_key <$> imap (render_group active editing) groups = (group_keys <$> groups).*1 ∧
  row_key <$> concat (card_rows <$> imap (render_group active editing) groups)
    = concat (group_keys <$> groups).*2.
Proof.
  split.
  - rewrite (imap_render_group active editing card_key host) by done.
    rewrite <- list_fmap_compose. by apply list_fmap_ext.
  - rewrite (imap_render_group active editing card_rows (λ g, render_tab active <$> tabs g))
      by done.
    rewrite fmap_concat_list, <- !list_fmap_compose. f_equal.
    apply list_fmap_ext. intros _ group _. simpl.
    rewrite <- list_fmap_compose. by apply list_fmap_ext.
Qed.

Lemma group_keys_insert (groups : list GroupSuggestion) i group group' :
  groups !! i = Some group → group_keys group' = group_keys group →
  group_keys <$> <[i := group']> groups = group_keys <$> groups.
Proof.
  intros Hg Hk. rewrite list_fmap_insert, Hk. apply list_insert_id.
  by rewrite list_lookup_fmap, Hg.
Qed.

(** The updaters leave the keys alone. *)
Lemma editable_model_keys (new_URL : string → completion URL) listing groups :
  editable_model new_URL listing groups →
  group_keys <$> groups = group_keys <$> loadTabs_groups new_URL listing.
Proof.
  induction 1 as [|groups i groups' _ IH Ht|groups i j groups' _ IH Ht
                  |groups i name groups' _ IH Ht]; [done|..]; rewrite <- IH.
  - apply toggleGroup_inv in Ht as (group & Hg & ->).
    apply (group_keys_insert _ _ group); [done|]. unfold group_keys. simpl. f_equal.
    rewrite <- list_fmap_compose. by apply list_fmap_ext.
  - apply toggleTab_inv in Ht as (group & tab & Hg & Htab & ->).
    apply (group_keys_insert _ _ group); [done|]. unfold group_keys. simpl. f_equal.
    rewrite list_fmap_insert. apply list_insert_id. by rewrite list_lookup_fmap, Htab.
  - apply updateGroupName_inv in Ht as (group & Hg & ->).
    by apply (group_keys_insert _ _ group).
Qed.

Lemma loadTabs_groups_keys (new_URL : string → completion URL) (listing : list chrome.Tab) :
  NoDup (chrome.id <$> kept listing) →
  NoDup (group_keys <$> loadTabs_groups new_URL listing).*1 ∧
  NoDup (concat (group_keys <$> loadTabs_groups new_URL listing).*2).
Proof.
  intros Hids. split.
  - assert ((group_keys <$> loadTabs_groups new_URL listing).*1
            = first_seen (key_of new_URL <$> kept listing)) as ->.
    { rewrite loadTabs_groups_fresh_build. unfold fresh_build.
      rewrite <- !list_fmap_compose.
      etransitivity; [by apply list_fmap_ext|apply list_fmap_id]. }
    apply first_seen_NoDup.
  - assert (concat (group_keys <$> loadTabs_groups new_URL listing).*2
            = id <$> all_tabs (loadTabs_groups new_URL listing)) as ->.
    { unfold all_tabs. rewrite fmap_concat_list, <- !list_fmap_compose. f_equal. }
    assert (all_tabs (loadTabs_groups new_URL listing) ≡ₚ tabSummary <$> kept listing) as ->.
    { unfold loadTabs_groups, loadTabs_hostMap. rewrite all_tabs_hostGroups.
      by rewrite loadTabs_fold_tabs. }
    rewrite <- list_fmap_compose.
    assert (id ∘ tabSummary <$> kept listing = default 0 <$> (chrome.id <$> kept listing)) as ->.
    { rewrite <- list_fmap_compose. by apply list_fmap_ext. }
    apply NoDup_fmap_2_strong; [|done].
    intros x y (tx & -> & Hx%elem_of_kept)%list_elem_of_fmap
               (ty & -> & Hy%elem_of_kept)%list_elem_of_fmap.
    destruct Hx as (_ & Hx & _), Hy as (_ & Hy & _). unfold actionable in *.
    destruct (chrome.id tx), (chrome.id ty); simpl in *; try done. by intros ->.
Qed.

(** In the main view no two cards share a React key and no two rows do,
    provided the browser listed no tab id twice: the fresh build has one
    suggestion per host, and the updaters never touch a host or a tab id. *)
Theorem rendered_keys_unique (new_URL : string → completion URL) (listing : list chrome.Tab)
    (groups : list GroupSuggestion) (active : option Z) (editing : option nat)
    (cards : list GroupCard) (disabled : bool) :
  editable_model new_URL listing groups →
  NoDup (chrome.id <$> kept listing) →
  render false false groups active editing = MainView cards disabled →
  NoDup (card_key <$> cards) ∧ NoDup (row_key <$> concat (card_rows <$> cards)).
Proof.
  intros Hmodel Hids [= <- _].
  destruct (render_keys active editing groups) as [-> ->].
  rewrite (editable_model_keys _ _ _ Hmodel). by apply loadTabs_groups_keys.
Qed.

Lemma rendered_keys_unique_witness :
  let listing := open_tabs scenario_window in
  ∃ groups cards disabled,
    toggleGroup 0 (loadTabs_groups example_URL listing) = Some groups ∧
    render false false groups (Some 1) None = MainView cards disabled ∧
    card_key <$> cards = ["a.com"; "b.com"] ∧
    NoDup (card_key <$> cards) ∧ NoDup (row_key <$> concat (card_rows <$> cards)).
Proof.
  eexists _, _, _. split; [vm_compute; reflexivity|]. split; [reflexivity|].
  split; [vm_compute; reflexivity|].
  eapply (rendered_keys_unique example_URL (open_tabs scenario_window) _ (Some 1) None).
  - apply (edit_toggleGroup example_URL _
             (loadTabs_groups example_URL (open_tabs scenario_window)) 0%nat);
      [apply edit_loaded|]. vm_compute. reflexivity.
  - apply (bool_decide_unpack _). vm_compute. reflexivity.
  - reflexivity.
Defined.

(** The main view follows the model: the "Organize Tabs" button is enabled
    exactly when some row's checkbox is checked; the card of the group being
    renamed shows an input and no count, every other card a label that counts
    its rows; and no row shows more than 53 code units of a title: a title
    of at most 50 code units is shown whole, a longer one as its first 50
    followed by three dots, while the tooltip of a row that is not the active
    tab keeps the whole title. *)
Theorem main_view_follows_model (groups : list GroupSuggestion) (active : option Z)
    (editing : option nat) (cards : list GroupCard) (disabled : bool) :
  render false false groups active editing = MainView cards disabled →
  (disabled = false ↔
     ∃ card row, card ∈ cards ∧ row ∈ card_rows card ∧ row_checked row = true) ∧
  (cards = [] ↔ groups = []) ∧
  ∀ groupIndex card, cards !! groupIndex = Some card →
    match card_label card with
    | NameInput _ => editing = Some groupIndex
    | NameLabel _ count plural =>
        editing ≠ Some groupIndex ∧ count = length (card_rows card) ∧
        (plural = false ↔ length (card_rows card) = 1%nat)
    end ∧
    ∀ row, row ∈ card_rows card →
      (length (row_text row) ≤ 53)%nat ∧
      ∃ tab, tab ∈ all_tabs groups ∧ row_key row = id tab ∧
             (row_active row = false → row_tooltip row = title tab) ∧
             ((length (utf16 (title tab)) ≤ 50)%nat → row_text row = utf16 (title tab)) ∧
             ((50 < length (utf16 (title tab)))%nat →
                row_text row = take 50 (utf16 (title tab)) ++ utf16 "...").
Proof.
  intros [= <- <-]. split; [|split].
  - rewrite negb_false_iff. unfold hasSelectedTabs. rewrite existsb_exists. split.
    + intros (group & Hin%list_elem_of_In & (tab & Htab%list_elem_of_In & Hsel)%existsb_exists).
      apply list_elem_of_lookup in Hin as [i Hi].
      exists (render_group active editing i group), (render_tab active tab).
      split; [by eapply elem_of_lookup_imap_2|]. split; [|done].
      simpl. by apply list_elem_of_fmap_2.
    + intros (card & row & (i & group & -> & Hi)%elem_of_lookup_imap & Hrow & Hsel).
      simpl in Hrow. apply list_elem_of_fmap in Hrow as (tab & -> & Htab).
      exists group. split; [eapply list_elem_of_In, list_elem_of_lookup_2; exact Hi|].
      apply existsb_exists. exists tab. split; [by apply list_elem_of_In|done].
  - by destruct groups.
  - intros i card (group & Hi & ->)%list_lookup_imap_Some. split.
    { cbn [render_group card_label card_rows]. rewrite length_fmap.
      case_bool_decide as Hedit; [done|]. split; [done|]. split; [done|].
      rewrite negb_false_iff. apply Nat.eqb_eq. }
    intros row (tab & -> & Htab)%list_elem_of_fmap. simpl.
    destruct (displayed_title_length (title tab)) as (Hle & Hshort & Hlong).
    split; [done|]. exists tab. split.
    { unfold all_tabs. apply (elem_of_concat_2 _ (tabs group)); [done|].
      apply list_elem_of_fmap_2. by eapply list_elem_of_lookup_2. }
    split; [done|]. split.
    { by intros ->. }
    split; [done|]. by intros [? _]%Hlong.
Qed.

(** Nothing is selected and the one group is being renamed: the button is
    disabled and the card shows the input. *)
Lemma main_view_follows_model_witness :
  let groups := [two_tab_group false false false] in
  ∃ cards card,
    render false false groups None (Some 0%nat) = MainView cards true ∧
    cards !! 0%nat = Some card ∧ card_label card = NameInput "a.com" ∧
    (true = false ↔
       ∃ card row, card ∈ cards ∧ row ∈ card_rows card ∧ row_checked row = true) ∧
    (cards = [] ↔ groups = []) ∧
    ∀ row, row ∈ card_rows card → (length (row_text row) ≤ 53)%nat.
Proof.
  eexists _, _. split; [reflexivity|]. split; [reflexivity|]. split; [reflexivity|].
  destruct (main_view_follows_model [two_tab_group false false false] None (Some 0%nat)
              _ true eq_refl) as (Hbutton & Hempty & Hcards).
  split; [exact Hbutton|]. split; [exact Hempty|].
  intros row Hrow. destruct (Hcards 0%nat _ eq_refl) as [_ Hrows]. by apply Hrows.
Defined.

(** A load that fails is shown as a window without tabs.  After [loadTabs]
    from the initial state the popup shows the main view, never the loading
    view; the "Organize Tabs" button is disabled exactly when the view has no
    card and shows "No tabs to organize."; and it has no card when one of
    the three calls was rejected, just as when the listing holds no tab the
    build keeps. *)
Theorem failed_load_looks_empty (new_URL : string → completion URL) {W}
    (api : load_facility W) (w : W) (editing : option nat) :
  let state' := (loadTabs new_URL api initial_popup w).1.1 in
  ∃ cards,
    popup_view state' false editing = MainView cards (bool_decide (cards = [])) ∧
    (if load_rejected api w then cards = []
     else ∃ listing w1, api w load_query_currentWindow = (Normal listing, w1) ∧
                        length cards = length (loadTabs_groups new_URL listing) ∧
                        (cards = [] ↔ kept listing = [])).
Proof.
  cbv zeta. unfold loadTabs, load_rejected, popup_view, render.
  destruct (api w load_query_currentWindow) as [[listing|] w1]; simpl; [|by exists []].
  destruct (api w1 windows_getCurrent) as [[currentWindow|] w2]; simpl; [|by exists []].
  destruct (api w2 (tabs_query_active (window_id currentWindow))) as [[activeTab|] w3]; simpl;
    [|by exists []].
  eexists. split.
  - f_equal. pose proof (loadTabs_groups_well_formed new_URL listing) as Hwf.
    assert (Forall all_selected (loadTabs_groups new_URL listing)) as Hsel
      by (eapply Forall_impl; [exact Hwf|]; by intros g [Hg _]).
    pose proof (all_selected_hasSelectedTabs _ Hsel) as Hbutton.
    rewrite (well_formed_all_tabs _ Hwf) in Hbutton.
    destruct (loadTabs_groups new_URL listing) as [|g gs]; [done|].
    rewrite (proj2 Hbutton) by done. symmetry. apply bool_decide_eq_false_2.
    by rewrite imap_cons.
  - exists listing, w1. split; [done|]. split; [by rewrite length_imap|].
    assert (all_tabs (loadTabs_groups new_URL listing) ≡ₚ tabSummary <$> kept listing) as Hperm.
    { unfold loadTabs_groups, loadTabs_hostMap. rewrite all_tabs_hostGroups.
      by rewrite loadTabs_fold_tabs. }
    pose proof (well_formed_all_tabs _ (loadTabs_groups_well_formed new_URL listing)) as Hne.
    split.
    + intros Hnil. destruct (loadTabs_groups new_URL listing) as [|g gs] eqn:Hg; [|done].
      apply Permutation_nil_l in Hperm. symmetry in Hperm.
      by apply fmap_nil_inv in Hperm.
    + intros Hnil. rewrite Hnil in Hperm. apply Permutation_nil_r in Hperm.
      destruct (loadTabs_groups new_URL listing) as [|g gs]; [done|].
      exfalso. by apply Hne.
Qed.

(** After [handleOrganizeTabs] the popup shows either the success message or
    what it showed before.  When the run succeeds the view is the success
    view whatever the rebuilt array holds: the model of the resync is stored
    but not displayed.  When it fails the views before and after agree, and
    the only trace is the notice. *)
Theorem organize_outcome_in_view (new_URL : string → completion URL) {W} (api : facility W)
    (state : AppState) (w : W) (active : option Z) (editing : option nat) :
  ∃ state', outcome (handleOrganizeTabs new_URL api state w) = Normal state' ∧
    match outcome (organize_body new_URL api (groups state) w) with
    | Normal newGroups =>
        groups state' = newGroups ∧ alerts state' = alerts state ∧
        render false (organized state') (groups state') active editing = SuccessView
    | Thrown =>
        alerts state' = alerts state ++ [failure_notice] ∧
        render false (organized state') (groups state') active editing
          = render false (organized state) (groups state) active editing
    end.
Proof.
  unfold handleOrganizeTabs, try_catch. rewrite bind_run.
  destruct (outcome (organize_body new_URL api (groups state) w)) as [newGroups|];
    simpl; eexists; (split; [reflexivity|]); done.
Qed.

(** A name typed by the user is what the card shows and what every update
    call for the suggestion carries as title, except the empty name: a
    suggestion renamed to the empty string is shown, and sent to the
    browser, under its host. *)
Theorem renamed_group_title {W} (api : facility W) (groups groups' : list GroupSuggestion)
    (groupIndex : nat) (newName : string) (group' : GroupSuggestion)
    (active : option Z) (editing : option nat) (w : W) :
  updateGroupName groupIndex newName groups = Some groups' →
  groups' !! groupIndex = Some group' →
  let shown := if decide (newName = "") then host group' else newName in
  card_name (render_group active editing groupIndex group') = shown ∧
  ∀ groupId title color collapsed,
    tabGroups_update groupId title color collapsed ∈ issued (organizeGroup api group' w) →
    title = shown.
Proof.
  intros (group & Hg & ->)%updateGroupName_inv Hg'.
  rewrite list_lookup_insert_eq in Hg' by (by eapply lookup_lt_Some).
  injection Hg' as <-. cbv zeta.
  assert (or_else (Some newName) (host group)
          = if decide (newName = "") then host group else newName) as Hname.
  { simpl. destruct (String.eqb_spec newName ""), (decide (newName = "")); done. }
  split.
  { unfold card_name, render_group. cbn [card_label].
    by destruct (bool_decide (editing = Some groupIndex)). }
  intros groupId title color collapsed Hin%organizeGroup_issued.
  destruct Hin as (_ & -> & _). exact Hname.
Qed.

Lemma renamed_group_title_witness :
  ∃ groups' group',
    updateGroupName 0 "" [two_tab_group true true true] = Some groups' ∧
    groups' !! 0%nat = Some group' ∧
    customName group' = Some "" ∧
    card_name (render_group None None 0 group') = "a.com" ∧
    ∀ groupId title color collapsed,
      tabGroups_update groupId title color collapsed
        ∈ issued (organizeGroup browser group' two_groups_window) →
      title = "a.com".
Proof.
  eexists _, _. split; [reflexivity|]. split; [reflexivity|]. split; [reflexivity|].
  exact (renamed_group_title browser [two_tab_group true true true] _ 0 "" _ None None
           two_groups_window eq_refl eq_refl).
Defined.

(** ** What the handler asks of the browser *)

(** Whatever the browser answers, [handleOrganizeTabs] changes the window
    only through calls that follow the selection.  A call it issues either
    belongs to one suggestion of the model, or is a read of the resync: the
    listing query or a group lookup.  For a call that belongs to a
    suggestion: an ungroup names a deselected tab of it, a grouping names
    selected tabs of it and at least one, a tab lookup names one of its tabs,
    and an update carries its name, or its host when it has no name, and the
    colour grey; group lookups, membership queries and updates are issued
    only for suggestions with a selected tab. *)
Theorem organize_calls_follow_selection (new_URL : string → completion URL) {W}
    (api : facility W) (state : AppState) (w : W) (c : call) :
  c ∈ issued (handleOrganizeTabs new_URL api state w) →
  (∃ group, group ∈ groups state ∧ call_within group c) ∨
  c = tabs_query_currentWindow ∨ ∃ groupId, c = tabGroups_get groupId.
Proof.
  assert (issued (handleOrganizeTabs new_URL api state w)
          = issued (organize_body new_URL api (groups state) w)) as ->.
  { unfold handleOrganizeTabs, try_catch. rewrite bind_run.
    destruct (outcome (organize_body _ _ _ _)); cbn [outcome issued world mret M_ret ret];
      by rewrite app_nil_r. }
  unfold organize_body. rewrite bind_run.
  destruct (outcome (reconcile api (groups state) w)) as [[]|]; cbn [issued].
  - rewrite elem_of_app. intros [Hin|Hin].
    + left. by apply reconcile_issued in Hin.
    + right. by apply resync_issued in Hin.
  - intros Hin. left. by apply reconcile_issued in Hin.
Qed.

Lemma organize_calls_follow_selection_witness :
  let state := {| groups := [two_tab_group true false false]; organized := false;
                  alerts := [] |} in
  let c := tabs_ungroup 2 in
  c ∈ issued (handleOrganizeTabs example_URL browser state two_groups_window) ∧
  ((∃ group, group ∈ groups state ∧ call_within group c) ∨
   c = tabs_query_currentWindow ∨ ∃ groupId, c = tabGroups_get groupId).
Proof.
  assert (tabs_ungroup 2 ∈
            issued (handleOrganizeTabs example_URL browser
                      {| groups := [two_tab_group true false false]; organized := false;
                         alerts := [] |} two_groups_window)) as Hin.
  { apply list_elem_of_In. vm_compute. tauto. }
  split; [exact Hin|].
  exact (organize_calls_follow_selection example_URL browser _ _ _ Hin).
Defined.

(** ** Reconciliation of one suggestion on the reference browser *)

Lemma tab_open_group_of b tabId : tab_open b tabId = true ↔ is_Some (group_of b tabId).
Proof.
  unfold tab_open, group_of. induction (open_tabs b) as [|tab l IH]; simpl.
  - split; [done|by intros [? ?]].
  - destruct (has_id tabId tab); simpl; [|exact IH]. split; [by eexists|done].
Qed.

Lemma has_id_move groupId tabIds tabId tab :
  has_id tabId (move_to_group groupId tabIds tab) = has_id tabId tab.
Proof. unfold move_to_group. by destruct (existsb _ tabIds). Qed.

Lemma moved_includes tabIds tabId tab :
  has_id tabId tab = true → existsb (λ t, has_id t tab) tabIds = includes tabIds tabId.
Proof.
  unfold has_id, includes. intros H%bool_decide_eq_true.
  induction tabIds as [|t l IH]; simpl; [done|]. rewrite IH, H. f_equal.
  destruct (Z.eqb_spec tabId t) as [->|Hne].
  - by rewrite bool_decide_eq_true_2.
  - rewrite bool_decide_eq_false_2; [done|congruence].
Qed.

Lemma includes_elem_of (l : list Z) (x : Z) : includes l x = true ↔ x ∈ l.
Proof.
  unfold includes. rewrite existsb_exists. split.
  - intros (y & Hy%list_elem_of_In & ->%Z.eqb_eq). done.
  - intros Hx. exists x. split; [by apply list_elem_of_In|apply Z.eqb_refl].
Qed.

Lemma group_of_regroup b groupId tabIds groups next tabId :
  group_of (regroup b groupId tabIds groups next) tabId
  = if includes tabIds tabId then (λ _, groupId) <$> group_of b tabId else group_of b tabId.
Proof.
  unfold group_of, regroup. cbn [open_tabs].
  induction (open_tabs b) as [|tab l IH]; csimpl.
  - by destruct (includes _ _).
  - rewrite has_id_move. destruct (has_id tabId tab) eqn:Hid; [|exact IH].
    simpl. unfold move_to_group. rewrite (moved_includes _ _ _ Hid).
    by destruct (includes tabIds tabId).
Qed.

Lemma omap_id_move groupId tabIds (l : list chrome.Tab) :
  omap chrome.id (move_to_group groupId tabIds <$> l) = omap chrome.id l.
Proof.
  induction l as [|tab l IH]; csimpl; [done|]. rewrite IH.
  unfold move_to_group. by destruct (existsb _ tabIds).
Qed.

Lemma Map_has_dissolve (tabs : list chrome.Tab) (groups : JsMap Z chrome.TabGroup) k :
  Map_has groups k = true →
  existsb (λ tab, chrome.groupId tab =? k) tabs = true →
  Map_has (dissolve_empty tabs groups) k = true.
Proof.
  rewrite !Map_has_get. unfold dissolve_empty.
  rewrite (Map_get_filter_key _ (λ k, existsb (λ tab, chrome.groupId tab =? k) tabs)).
  by intros ? ->.
Qed.

Lemma Map_has_set (m : JsMap Z chrome.TabGroup) k v k' :
  Map_has m k' = true ∨ k = k' → Map_has (Map_set m k v) k' = true.
Proof.
  rewrite !Map_has_get, Map_get_set. intros [H| ->].
  - by destruct (decide (k = k')).
  - by rewrite decide_True.
Qed.

Lemma group_of_member b tabId groupId :
  group_of b tabId = Some groupId →
  existsb (λ tab, chrome.groupId tab =? groupId) (open_tabs b) = true.
Proof.
  unfold group_of. destruct (List.find _ _) as [tab|] eqn:Hfind; [|done].
  intros [= <-]. apply find_some in Hfind as [Hin _].
  apply existsb_exists. exists tab. split; [done|apply Z.eqb_refl].
Qed.

Lemma find_unique (l : list chrome.Tab) (tab : chrome.Tab) tabId :
  NoDup (omap chrome.id l) → tab ∈ l → chrome.id tab = Some tabId →
  List.find (has_id tabId) l = Some tab.
Proof.
  induction l as [|t l IH]; intros Hnd Hin Hid; [by apply not_elem_of_nil in Hin|].
  simpl. unfold has_id at 1. case_bool_decide as Ht.
  - apply elem_of_cons in Hin as [->|Hin]; [done|]. exfalso.
    csimpl in Hnd. rewrite Ht in Hnd. simpl in Hnd. apply NoDup_cons in Hnd as [Hnin _].
    apply Hnin. apply list_elem_of_omap. by exists tab.
  - apply elem_of_cons in Hin as [->|Hin]; [congruence|]. apply IH; [|done..].
    csimpl in Hnd. destruct (chrome.id t); simpl in Hnd; [by apply NoDup_cons in Hnd as [_ ?]|done].
Qed.

(** The answer of the membership query lists tab [tabId] exactly when the
    tab is in the group. *)
Lemma includes_members b groupId tabId :
  NoDup (omap chrome.id (open_tabs b)) →
  includes (omap chrome.id (List.filter (λ tab, chrome.groupId tab =? groupId) (open_tabs b)))
           tabId = true
  ↔ group_of b tabId = Some groupId.
Proof.
  intros Hnd. rewrite includes_elem_of, list_elem_of_omap. unfold group_of. split.
  - intros (tab & [Hin Hg%Z.eqb_eq]%list_elem_of_In%filter_In & Hid).
    rewrite (find_unique _ tab) by (done || by apply list_elem_of_In). simpl. by rewrite Hg.
  - destruct (List.find _ _) as [tab|] eqn:Hfind; [|done]. intros [= <-].
    apply find_some in Hfind as [Hin Hid%bool_decide_eq_true].
    exists tab. split; [|done]. apply list_elem_of_In, filter_In. split; [done|apply Z.eqb_refl].
Qed.

Lemma regroup_ok b groupId tabIds groups next :
  NoDup (omap chrome.id (open_tabs b)) →
  (∀ tab, tab ∈ open_tabs b → chrome.groupId tab ≠ -1 →
          Map_has groups (chrome.groupId tab) = true) →
  (groupId ≠ -1 → Map_has groups groupId = true) →
  0 ≤ next →
  window_ok (regroup b groupId tabIds groups next).
Proof.
  intros Hnd Hgroups Hg Hnext. split; [|split; [|done]]; cbn [regroup open_tabs tab_groups].
  - by rewrite omap_id_move.
  - intros tab' Hin Hne. apply Map_has_dissolve.
    + apply list_elem_of_fmap in Hin as (tab & -> & Hin). unfold move_to_group in *.
      destruct (existsb _ tabIds); simpl in *; auto.
    + apply existsb_exists. exists tab'. split; [by apply list_elem_of_In|apply Z.eqb_refl].
Qed.

Lemma ungroupDeselected_window b tabId :
  window_ok b →
  window_ok (world (ungroupDeselected browser tabId b)) ∧
  ∀ i, group_of (world (ungroupDeselected browser tabId b)) i
       = if decide (i = tabId) then (λ _, -1) <$> group_of b i else group_of b i.
Proof.
  intros Hok. rewrite ungroupDeselected_run.
  assert (∀ i, (if decide (i = tabId) then (λ _, -1) <$> group_of b i else group_of b i)
               = if includes [tabId] i then (λ _, -1) <$> group_of b i else group_of b i)
    as Hsingle.
  { intros i. unfold includes. simpl. rewrite orb_false_r.
    destruct (Z.eqb_spec i tabId), (decide (i = tabId)); done. }
  change (browser b (tabs_get tabId))
    with (match List.find (has_id tabId) (open_tabs b) with
          | Some tab => (Normal tab, b)
          | None => (Thrown, b)
          end).
  destruct (List.find (has_id tabId) (open_tabs b)) as [tab|] eqn:Hfind; cbv beta iota.
  - destruct (Z.eqb_spec (chrome.groupId tab) (-1)) as [Hg|Hg]; cbn [negb world].
    + split; [done|]. intros i. case_decide as Hi; [|done]. subst i.
      unfold group_of. rewrite Hfind. simpl. by rewrite Hg.
    + assert (tab_open b tabId = true) as Hopen.
      { apply tab_open_group_of. unfold group_of. by rewrite Hfind. }
      change (browser b (tabs_ungroup tabId))
        with (if tab_open b tabId
              then (Normal tt, regroup b (-1) [tabId] (tab_groups b) (next_groupId b))
              else (Thrown, b)).
      rewrite Hopen. cbn [snd]. destruct Hok as (Hnd & Hgroups & Hnext). split.
      * by apply regroup_ok.
      * intros i. by rewrite Hsingle, group_of_regroup.
  - cbn [world]. split; [done|]. intros i. case_decide as Hi; [|done]. subst i.
    unfold group_of. by rewrite Hfind.
Qed.

Lemma ungroup_loop_window (tabIds : list Z) b :
  window_ok b →
  window_ok (world (for_of tabIds (ungroupDeselected browser) b)) ∧
  ∀ i, group_of (world (for_of tabIds (ungroupDeselected browser) b)) i
       = if decide (i ∈ tabIds) then (λ _, -1) <$> group_of b i else group_of b i.
Proof.
  revert b. induction tabIds as [|tabId tabIds IH]; intros b Hok.
  { split; [done|]. intros i. by rewrite decide_False by apply not_elem_of_nil. }
  simpl.
  destruct (bind_normal (ungroupDeselected browser tabId)
              (λ _, for_of tabIds (ungroupDeselected browser)) b tt
              (ungroupDeselected_normal browser _ _)) as (_ & -> & _).
  destruct (ungroupDeselected_window b tabId Hok) as [Hok1 Hg1].
  destruct (IH _ Hok1) as [Hok2 Hg2]. split; [done|].
  intros i. rewrite Hg2, Hg1.
  destruct (decide (i ∈ tabIds)) as [Hin|Hnin], (decide (i = tabId)) as [->|Hne].
  - rewrite decide_True by left. by destruct (group_of b tabId).
  - by rewrite decide_True by (by right).
  - by rewrite decide_True by left.
  - rewrite decide_False; [done|]. by intros [?|?]%elem_of_cons.
Qed.

Lemma findExistingGroup_window (tabIds : list Z) existing wasCollapsed b :
  window_ok b →
  world (findExistingGroup browser tabIds existing wasCollapsed b) = b ∧
  ((∃ groupId info,
      outcome (findExistingGroup browser tabIds existing wasCollapsed b)
        = Normal (Some groupId, chrome.collapsed info) ∧
      groupId ≠ -1 ∧ Map_get (tab_groups b) groupId = Some info ∧
      ∃ tabId, tabId ∈ tabIds ∧ group_of b tabId = Some groupId)
   ∨ (outcome (findExistingGroup browser tabIds existing wasCollapsed b)
        = Normal (existing, wasCollapsed) ∧
      ∀ tabId, tabId ∈ tabIds → default (-1) (group_of b tabId) = -1)).
Proof.
  intros (Hnd & Hgroups & Hnext). revert existing wasCollapsed.
  induction tabIds as [|tabId rest IH]; intros existing wasCollapsed.
  { simpl. split; [done|]. right. split; [done|]. by intros ? ?%not_elem_of_nil. }
  assert (∀ e wc,
            default (-1) (group_of b tabId) = -1 →
            world (findExistingGroup browser rest e wc b) = b ∧
            ((∃ groupId info,
                outcome (findExistingGroup browser rest e wc b)
                  = Normal (Some groupId, chrome.collapsed info) ∧
                groupId ≠ -1 ∧ Map_get (tab_groups b) groupId = Some info ∧
                ∃ i, i ∈ tabId :: rest ∧ group_of b i = Some groupId)
             ∨ (outcome (findExistingGroup browser rest e wc b) = Normal (e, wc) ∧
                ∀ i, i ∈ tabId :: rest → default (-1) (group_of b i) = -1))) as Hrest.
  { intros e wc Hhere. destruct (IH e wc) as [Hw [(g & info & Ho & Hg & Hget & i & Hi & Hgi)|[Ho Hall]]].
    - split; [done|]. left. exists g, info. split; [done|]. split; [done|]. split; [done|].
      exists i. split; [by right|done].
    - split; [done|]. right. split; [done|]. intros i [->|Hi]%elem_of_cons; auto. }
  simpl. unfold mbind, M_bind, bind, attempt, await. simpl.
  destruct (List.find (has_id tabId) (open_tabs b)) as [tab|] eqn:Hfind; simpl.
  - destruct (Z.eqb_spec (chrome.groupId tab) (-1)) as [Hg|Hg]; simpl.
    + apply Hrest. unfold group_of. rewrite Hfind. simpl. exact Hg.
    + assert (is_Some (Map_get (tab_groups b) (chrome.groupId tab))) as [info Hinfo].
      { apply Map_has_get, Hgroups; [|done]. apply find_some in Hfind as [Hin _].
        by apply list_elem_of_In. }
      rewrite Hinfo. simpl. split; [done|]. left. exists (chrome.groupId tab), info.
      rewrite orb_false_r. split; [done|]. split; [done|]. split; [done|].
      exists tabId. split; [left|]. unfold group_of. by rewrite Hfind.
  - apply Hrest. unfold group_of. by rewrite Hfind.
Qed.

Lemma not_yet_members_window b groupId (selected : list Z) tabId :
  NoDup (omap chrome.id (open_tabs b)) →
  tabId ∈ not_yet_members
            (List.filter (λ tab, chrome.groupId tab =? groupId) (open_tabs b)) selected
  ↔ tabId ∈ selected ∧ group_of b tabId ≠ Some groupId.
Proof.
  intros Hnd. unfold not_yet_members.
  rewrite list_elem_of_In, filter_In, <- list_elem_of_In, negb_true_iff.
  rewrite <- (includes_members b groupId tabId Hnd).
  apply and_iff_compat_l. by rewrite not_true_iff_false.
Qed.

(** Moving tabs into a listed group and then setting its attributes. *)
Lemma regroup_then_update b groupId tabIds groups next title collapsed member :
  NoDup (omap chrome.id (open_tabs b)) →
  (∀ tab, tab ∈ open_tabs b → chrome.groupId tab ≠ -1 →
          Map_has groups (chrome.groupId tab) = true) →
  Map_has groups groupId = true →
  0 ≤ next →
  group_of (regroup b groupId tabIds groups next) member = Some groupId →
  let r := await browser (tabGroups_update groupId title "grey" collapsed)
             (regroup b groupId tabIds groups next) in
  outcome r = Normal tt ∧ window_ok (world r) ∧
  Map_get (tab_groups (world r)) groupId
    = Some {| chrome.group_title := Some title; chrome.color := "grey";
              chrome.collapsed := collapsed |} ∧
  ∀ i, group_of (world r) i
       = if includes tabIds i then (λ _, groupId) <$> group_of b i else group_of b i.
Proof.
  intros Hnd Hgroups Hg Hnext Hmember. cbv zeta.
  pose proof (regroup_ok b groupId tabIds groups next Hnd Hgroups (λ _, Hg) Hnext)
    as (Hnd1 & Hgroups1 & Hnext1).
  assert (Map_has (tab_groups (regroup b groupId tabIds groups next)) groupId = true) as Hhas.
  { apply Map_has_dissolve; [done|].
    exact (group_of_member (regroup b groupId tabIds groups next) member groupId Hmember). }
  unfold await.
  change (browser ?b1 (tabGroups_update groupId title "grey" collapsed))
    with (if Map_has (tab_groups b1) groupId
          then (Normal tt,
                {| open_tabs := open_tabs b1;
                   tab_groups := Map_set (tab_groups b1) groupId
                                   {| chrome.group_title := Some title;
                                      chrome.color := "grey";
                                      chrome.collapsed := collapsed |};
                   next_groupId := next_groupId b1 |})
          else (Thrown, b1)).
  rewrite Hhas. cbn [outcome world]. split; [done|]. split; [|split].
  - split; [exact Hnd1|]. split; [|exact Hnext1].
    intros tab Hin Hne. cbn [tab_groups]. apply Map_has_set. left. by apply Hgroups1.
  - cbn [tab_groups]. by rewrite Map_get_set, decide_True.
  - intros i. apply group_of_regroup.
Qed.

Lemma update_window b groupId title collapsed :
  window_ok b → Map_has (tab_groups b) groupId = true →
  let r := await browser (tabGroups_update groupId title "grey" collapsed) b in
  outcome r = Normal tt ∧ window_ok (world r) ∧
  Map_get (tab_groups (world r)) groupId
    = Some {| chrome.group_title := Some title; chrome.color := "grey";
              chrome.collapsed := collapsed |} ∧
  ∀ i, group_of (world r) i = group_of b i.
Proof.
  intros (Hnd & Hgroups & Hnext) Hhas. cbv zeta. unfold await.
  change (browser b (tabGroups_update groupId title "grey" collapsed))
    with (if Map_has (tab_groups b) groupId
          then (Normal tt,
                {| open_tabs := open_tabs b;
                   tab_groups := Map_set (tab_groups b) groupId
                                   {| chrome.group_title := Some title;
                                      chrome.color := "grey";
                                      chrome.collapsed := collapsed |};
                   next_groupId := next_groupId b |})
          else (Thrown, b)).
  rewrite Hhas. cbn [outcome world]. split; [done|]. split; [|split; [|done]].
  - split; [exact Hnd|]. split; [|exact Hnext].
    intros tab Hin Hne. cbn [tab_groups]. apply Map_has_set. left. by apply Hgroups.
  - cbn [tab_groups]. by rewrite Map_get_set, decide_True.
Qed.

Lemma groupPhase_window (group : GroupSuggestion) b :
  window_ok b →
  selectedTabIds group ≠ [] →
  (∀ tabId, tabId ∈ selectedTabIds group → tab_open b tabId = true) →
  let r := groupPhase browser group b in
  outcome r = Normal tt ∧ window_ok (world r) ∧
  ∃ groupId collapsed,
    groupId ≠ -1 ∧
    Map_get (tab_groups (world r)) groupId
      = Some {| chrome.group_title := Some (group_title_of group); chrome.color := "grey";
                chrome.collapsed := collapsed |} ∧
    (∀ tabId, tabId ∈ selectedTabIds group → group_of (world r) tabId = Some groupId) ∧
    (∀ tabId, tabId ∉ selectedTabIds group → group_of (world r) tabId = group_of b tabId).
Proof.
  intros Hok Hsel Hopen. cbv zeta. rewrite groupPhase_run by done. cbv zeta.
  destruct (findExistingGroup_window (selectedTabIds group) None false b Hok) as [Hw Hscan].
  rewrite Hw. pose proof Hok as (Hnd & Hgroups & Hnext).
  assert (∀ i, i ∈ selectedTabIds group → is_Some (group_of b i)) as Hsome.
  { intros i Hi. by apply tab_open_group_of, Hopen. }
  destruct Hscan as [(groupId & info & -> & Hne & Hget & i0 & Hi0 & Hg0)|[-> Hall]];
    cbv beta iota.
  - assert (Map_has (tab_groups b) groupId = true) as Hhas.
    { apply Map_has_get. by eexists. }
    rewrite joinGroup_existing_run.
    change (browser b (tabs_query_groupId groupId))
      with (Normal (List.filter (λ tab, chrome.groupId tab =? groupId) (open_tabs b)), b).
    cbv beta iota.
    pose proof (λ i, not_yet_members_window b groupId (selectedTabIds group) i Hnd) as Hadd.
    destruct (not_yet_members _ (selectedTabIds group)) as [|t ts] eqn:HtoAdd;
      cbv beta iota zeta; cbn [outcome world].
    + destruct (update_window b groupId (or_else (customName group) (host group))
                  (chrome.collapsed info) Hok Hhas) as (Ho & Hok' & Hget' & Hsame).
      cbv zeta in *. split; [exact Ho|]. split; [exact Hok'|].
      exists groupId, (chrome.collapsed info). split; [done|]. split; [exact Hget'|]. split.
      * intros i Hi. rewrite Hsame.
        destruct (decide (group_of b i = Some groupId)) as [|Hother]; [done|].
        exfalso. eapply not_elem_of_nil. apply Hadd. by split.
      * intros i _. apply Hsame.
    + assert (∀ i, includes (t :: ts) i = true ↔
                   i ∈ selectedTabIds group ∧ group_of b i ≠ Some groupId) as Hinc.
      { intros i. by rewrite includes_elem_of, Hadd. }
      change (browser b (tabs_group (Some groupId) (t :: ts)))
        with (if Map_has (tab_groups b) groupId && forallb (tab_open b) (t :: ts)
                 && negb (bool_decide (t :: ts = []))
              then (Normal groupId,
                    regroup b groupId (t :: ts) (tab_groups b) (next_groupId b))
              else (Thrown, b)).
      assert (forallb (tab_open b) (t :: ts) = true) as Hall.
      { apply forallb_forall. intros i Hi%list_elem_of_In. apply Hopen.
        by apply Hadd in Hi as [? _]. }
      rewrite Hhas, Hall. cbn [andb negb bool_decide decide_rel]. 
      rewrite bool_decide_eq_false_2 by done. cbn [negb outcome world].
      assert (∀ i, i ∈ selectedTabIds group →
                   (if includes (t :: ts) i then (λ _, groupId) <$> group_of b i
                    else group_of b i) = Some groupId) as Hjoined.
      { intros i Hi. destruct (includes (t :: ts) i) eqn:Hi'.
        - destruct (Hsome i Hi) as [g ->]. done.
        - destruct (decide (group_of b i = Some groupId)) as [|Hother]; [done|].
          assert (includes (t :: ts) i = true) as Hyes by (by apply Hinc).
          congruence. }
      destruct (regroup_then_update b groupId (t :: ts) (tab_groups b) (next_groupId b)
                  (or_else (customName group) (host group)) (chrome.collapsed info) i0
                  Hnd Hgroups Hhas Hnext) as (Ho & Hok' & Hget' & Hmoved).
      { rewrite group_of_regroup. by apply Hjoined. }
      cbv zeta in *. split; [exact Ho|]. split; [exact Hok'|].
      exists groupId, (chrome.collapsed info). split; [done|]. split; [exact Hget'|]. split.
      * intros i Hi. rewrite Hmoved. by apply Hjoined.
      * intros i Hi. rewrite Hmoved. destruct (includes (t :: ts) i) eqn:Hi'; [|done].
        by apply Hinc in Hi' as [? _].
  - rewrite joinGroup_new_run.
    change (browser b (tabs_group None (selectedTabIds group)))
      with (if forallb (tab_open b) (selectedTabIds group)
                 && negb (bool_decide (selectedTabIds group = []))
            then (Normal (next_groupId b),
                  regroup b (next_groupId b) (selectedTabIds group)
                    (Map_set (tab_groups b) (next_groupId b)
                       {| chrome.group_title := None; chrome.color := "grey";
                          chrome.collapsed := false |})
                    (next_groupId b + 1))
            else (Thrown, b)).
    assert (forallb (tab_open b) (selectedTabIds group) = true) as Hallopen.
    { apply forallb_forall. intros i Hi%list_elem_of_In. by apply Hopen. }
    rewrite Hallopen, bool_decide_eq_false_2 by done. cbn [andb negb fst snd outcome world].
    assert (∀ i, i ∈ selectedTabIds group →
                 (if includes (selectedTabIds group) i
                  then (λ _, next_groupId b) <$> group_of b i
                  else group_of b i) = Some (next_groupId b)) as Hjoined.
    { intros i Hi. rewrite (proj2 (includes_elem_of _ _) Hi).
      destruct (Hsome i Hi) as [g ->]. done. }
    destruct (selectedTabIds group) as [|i0 rest] eqn:Hids; [done|].
    destruct (regroup_then_update b (next_groupId b) (i0 :: rest)
                (Map_set (tab_groups b) (next_groupId b)
                   {| chrome.group_title := None; chrome.color := "grey";
                      chrome.collapsed := false |})
                (next_groupId b + 1)
                (or_else (customName group) (host group)) false i0 Hnd)
      as (Ho & Hok' & Hget' & Hmoved).
    { intros tab Hin Hne. apply Map_has_set. left. by apply Hgroups. }
    { apply Map_has_set. by right. }
    { lia. }
    { rewrite group_of_regroup. apply Hjoined. left. }
    cbv zeta in *. split; [exact Ho|]. split; [exact Hok'|].
    exists (next_groupId b), false. split; [lia|]. split; [exact Hget'|]. split.
    + intros i Hi. rewrite Hmoved. by apply Hjoined.
    + intros i Hi. rewrite Hmoved. destruct (includes (i0 :: rest) i) eqn:Hi'; [|done].
      by apply includes_elem_of in Hi'.
Qed.

Lemma filter_ids_subset (p : TabSummary → bool) (l : list TabSummary) i :
  i ∈ id <$> List.filter p l → i ∈ id <$> l.
Proof.
  rewrite !list_elem_of_fmap. intros (tab & -> & [Hin _]%list_elem_of_In%filter_In).
  exists tab. split; [done|]. by apply list_elem_of_In.
Qed.

Lemma selected_not_deselected (l : list TabSummary) i :
  NoDup (id <$> l) →
  i ∈ id <$> List.filter selected l →
  i ∉ id <$> List.filter (λ tab, negb (selected tab)) l.
Proof.
  induction l as [|tab l IH]; csimpl; [by intros _ ?%not_elem_of_nil|].
  rewrite NoDup_cons. intros [Hnin Hnd].
  destruct (selected tab); csimpl.
  - intros [->|Hi]%elem_of_cons; [|by apply IH].
    intros Hin%filter_ids_subset. done.
  - intros Hi. rewrite not_elem_of_cons. split; [|by apply IH].
    intros ->. by apply filter_ids_subset in Hi.
Qed.

(** On the reference browser, reconciling one suggestion does what the
    popup promises.  If the window is well formed, the tab ids of the
    suggestion are pairwise different, at least one tab is selected and the
    selected tabs are open, then the run ends normally in a well-formed
    window in which all the selected tabs are in one and the same group, that
    group is titled with the suggestion's name, or host, and is grey, every
    deselected tab that is open is outside every group, and the tabs that
    are not of the suggestion are in the groups they were in. *)
Theorem organizeGroup_groups_selected_tabs (group : GroupSuggestion) (b : Browser) :
  window_ok b →
  NoDup (id <$> tabs group) →
  selectedTabIds group ≠ [] →
  (∀ tabId, tabId ∈ selectedTabIds group → tab_open b tabId = true) →
  let r := organizeGroup browser group b in
  outcome r = Normal tt ∧ window_ok (world r) ∧
  ∃ groupId collapsed,
    groupId ≠ -1 ∧
    Map_get (tab_groups (world r)) groupId
      = Some {| chrome.group_title := Some (group_title_of group); chrome.color := "grey";
                chrome.collapsed := collapsed |} ∧
    (∀ tabId, tabId ∈ selectedTabIds group → group_of (world r) tabId = Some groupId) ∧
    (∀ tabId, tabId ∈ unselectedTabIds group →
       group_of (world r) tabId = (λ _, -1) <$> group_of b tabId) ∧
    (∀ tabId, tabId ∉ id <$> tabs group → group_of (world r) tabId = group_of b tabId).
Proof.
  intros Hok Hids Hsel Hopen. cbv zeta.
  destruct (organizeGroup_phases browser group b) as (_ & -> & -> & _).
  rewrite ungroupPhase_loop.
  destruct (ungroup_loop_window (unselectedTabIds group) b Hok) as [Hok1 Hg1].
  set (b1 := world (for_of (unselectedTabIds group) (ungroupDeselected browser) b)) in *.
  assert (∀ i, i ∈ selectedTabIds group → i ∉ unselectedTabIds group) as Hdisjoint.
  { intros i. by apply selected_not_deselected. }
  destruct (groupPhase_window group b1 Hok1 Hsel)
    as (Ho & Hok2 & groupId & collapsed & Hne & Hget & Hin & Hout).
  { intros i Hi. apply tab_open_group_of. rewrite Hg1.
    rewrite decide_False by (by apply Hdisjoint). by apply tab_open_group_of, Hopen. }
  cbv zeta in *. split; [exact Ho|]. split; [exact Hok2|].
  exists groupId, collapsed. split; [done|]. split; [exact Hget|]. split; [exact Hin|]. split.
  - intros i Hi. rewrite Hout, Hg1.
    + by rewrite decide_True.
    + intros Hs. by apply (Hdisjoint i).
  - intros i Hi. rewrite Hout, Hg1.
    + rewrite decide_False; [done|]. intros Hu. by apply Hi, unselectedTabIds_subset.
    + intros Hs. by apply Hi, selectedTabIds_subset.
Qed.

(** Tab 1, selected, is in group 5; tab 2, deselected, is in group 7 with a
    tab of another host.  Afterwards tab 1 is in group 5, now titled
    ["a.com"], tab 2 is outside every group and tab 9 is still in group 7. *)
Lemma organizeGroup_groups_selected_tabs_witness :
  let group := two_tab_group true false false in
  let r := organizeGroup browser group three_tabs_window in
  (group_of (world r) 1, group_of (world r) 2, group_of (world r) 9)
    = (Some 5, Some (-1), Some 7) ∧
  outcome r = Normal tt ∧ window_ok (world r) ∧
  ∃ groupId collapsed,
    groupId ≠ -1 ∧
    Map_get (tab_groups (world r)) groupId
      = Some {| chrome.group_title := Some (group_title_of group); chrome.color := "grey";
                chrome.collapsed := collapsed |} ∧
    (∀ tabId, tabId ∈ selectedTabIds group → group_of (world r) tabId = Some groupId) ∧
    (∀ tabId, tabId ∈ unselectedTabIds group →
       group_of (world r) tabId = (λ _, -1) <$> group_of three_tabs_window tabId) ∧
    (∀ tabId, tabId ∉ id <$> tabs group →
       group_of (world r) tabId = group_of three_tabs_window tabId).
Proof.
  split; [vm_compute; reflexivity|].
  apply (organizeGroup_groups_selected_tabs (two_tab_group true false false)
           three_tabs_window).
  - split; [|split; [|done]].
    + apply (bool_decide_unpack _). vm_compute. reflexivity.
    + intros tab Hin _. simpl in Hin. rewrite !elem_of_cons, elem_of_nil in Hin.
      destruct Hin as [->|[->|[->|[]]]]; reflexivity.
  - apply (bool_decide_unpack _). vm_compute. reflexivity.
  - discriminate.
  - intros tabId Hin. simpl in Hin. apply list_elem_of_singleton in Hin. by subst tabId.
Defined.
